(** * Spotify-Discord-Lyrics-Status: lyric synchronisation and update gating

    A shallow embedding of [utils.js], [lyricsService.js],
    [discordService.js] and the polling cycle of [index.js], followed by
    the properties of the lyric timeline, the lyrics cache, the
    diff-and-rate gate and the status sink.

    Conventions of the embedding:
    - a JavaScript string is the list of its UTF-16 code units, each a [Z];
      [.length] is the length of that list;
    - [null] is [None]; an array is a list;
    - [Date.now()] is read from the environment of the running call; one
      polling cycle sees one reading;
    - every HTTP call takes its outcome from the environment and is recorded
      in a log kept next to the state of the object that issued it;
    - a thrown exception is the [Throw] outcome of a computation; field
      updates made before the throw persist, as they do in JavaScript;
    - a finite Number is the rational it denotes, and [/] and [*] round
      their result to binary64. *)

From Stdlib Require Import ZArith List Bool Lia QArith Qround Qpower Lqa.
From stdpp Require Import gmap strings.

Open Scope Z_scope.

(** * JavaScript strings *)

Definition jsstring := list Z.

(** An ASCII literal as a JavaScript string. *)
Definition str (s : string) : jsstring :=
  map (fun c => Z.of_nat (Ascii.nat_of_ascii c)) (String.list_ascii_of_string s).

Module JS.

(** ECMAScript [WhiteSpace] and [LineTerminator] code units: what
    [String.prototype.trim] strips. *)
Definition isLineTerminator (c : Z) : bool :=
  (c =? 10) || (c =? 13) || (c =? 8232) || (c =? 8233).

Definition isWhiteSpace (c : Z) : bool :=
  (c =? 9) || (c =? 11) || (c =? 12) || (c =? 32) || (c =? 160)
  || (c =? 5760) || ((8192 <=? c) && (c <=? 8202)) || (c =? 8239)
  || (c =? 8287) || (c =? 12288) || (c =? 65279) || isLineTerminator c.

(** [\d] without the unicode flag: the ten ASCII digits. *)
Definition isDigit (c : Z) : bool := (48 <=? c) && (c <=? 57).

Fixpoint trimStart (s : jsstring) : jsstring :=
  match s with
  | [] => []
  | c :: s' => if isWhiteSpace c then trimStart s' else s
  end.

Definition trimEnd (s : jsstring) : jsstring := rev (trimStart (rev s)).

Definition trim (s : jsstring) : jsstring := trimEnd (trimStart s).

(** [s.split(sep)] for a one-unit separator: never the empty array. *)
Fixpoint split (sep : Z) (s : jsstring) : list jsstring :=
  match s with
  | [] => [[]]
  | c :: s' =>
      if c =? sep then [] :: split sep s'
      else match split sep s' with
           | [] => [[c]]
           | w :: ws => (c :: w) :: ws
           end
  end.

(** [s.substring(start, end)]: both indices are clamped to
    [0 .. s.length] and swapped when [start > end]. *)
Definition clamp (len i : Z) : Z := Z.max 0 (Z.min i len).

Definition substring (s : jsstring) (start end_ : Z) : jsstring :=
  let len := Z.of_nat (length s) in
  let a := clamp len start in
  let b := clamp len end_ in
  let lo := Z.min a b in
  let hi := Z.max a b in
  firstn (Z.to_nat (hi - lo)) (skipn (Z.to_nat lo) s).

(** [toLowerCase] for strings of code units below 256 (ASCII and Latin-1),
    where JavaScript lower-cases unit by unit, whatever the neighbours:
    [A-Z] and the letters from 192 to 222 (but 215, the multiplication
    sign) move up by 32 and every other unit stays. Units from 256 on are
    outside this model (they are left as they are, where JavaScript maps
    other scripts and lower-cases a capital sigma by its position in the
    word); what is proved of lower-casing is stated for strings that are
    [latin1]. *)
Definition lowerUnit (c : Z) : Z :=
  if ((65 <=? c) && (c <=? 90))
     || ((192 <=? c) && (c <=? 222) && negb (c =? 215))
  then c + 32 else c.

Definition toLowerCase (s : jsstring) : jsstring := map lowerUnit s.

(** [parseInt(s, 10)] on a string of decimal digits. *)
Definition parseInt (s : jsstring) : Z :=
  fold_left (fun acc c => acc * 10 + (c - 48)) s 0.

(** Truthiness of a string-or-null value: [null] and [''] are falsy. *)
Definition truthy (v : option jsstring) : bool :=
  match v with
  | None | Some [] => false
  | Some (_ :: _) => true
  end.

(** ** Numbers

    A finite Number is the rational it denotes. The result of [/] and [*]
    is the real result rounded to binary64: to the nearest multiple of the
    quantum of its binade, ties to the even multiple. Infinities and NaN are
    not modelled; they do not arise from operands below 2^53 in magnitude
    and a divisor that is not zero. *)

(** The nearest integer, ties to the even one. *)
Definition roundTiesToEven (x : Q) : Z :=
  let f := Qfloor x in
  match Qcompare (x - inject_Z f) (1 # 2) with
  | Lt => f
  | Gt => f + 1
  | Eq => if Z.even f then f else f + 1
  end.

(** The binade of a positive rational: the [e] with
    [2^e <= x < 2^(e+1)]. *)
Definition ilog2 (x : Q) : Z :=
  let e := Z.log2 (Qnum x) - Z.log2 (Zpos (Qden x)) in
  if Qle_bool (2 ^ e) x then e else e - 1.

(** The exponent of the spacing of binary64 around a positive [x]: 52
    bits below the binade, and never below that of the subnormal numbers,
    2^-1074. *)
Definition quantum (x : Q) : Z := Z.max (ilog2 x) (-1022) - 52.

Definition binary64 (x : Q) : Q :=
  match Qcompare x 0 with
  | Eq => 0
  | Gt => inject_Z (roundTiesToEven (x * 2 ^ (- quantum x))) * 2 ^ quantum x
  | Lt => - (inject_Z (roundTiesToEven ((- x) * 2 ^ (- quantum (- x))))
             * 2 ^ quantum (- x))
  end%Q.

(** [a / b] and [a * b] on Numbers. *)
Definition div (a b : Q) : Q := binary64 (a / b)%Q.
Definition mul (a b : Q) : Q := binary64 (a * b)%Q.

(** [Math.round] of a Number: the nearest integer, halves towards plus
    infinity. *)
Definition Math_round (x : Q) : Z := Qfloor (Qplus x (1 # 2)).

End JS.

(** * utils.js *)

Record LyricLine := { time : Z; lyric : jsstring }.

(** The result of [line.match] on the timestamp pattern of [parseLRC]:
    an opening bracket, two digits, a colon, two digits, a dot, two digits,
    a closing bracket, then any run of units that are not line terminators.
    The record holds the four capture groups. *)
Record LrcMatch := { g1 : jsstring; g2 : jsstring; g3 : jsstring; g4 : jsstring }.

(** The last group is greedy; its dot takes every code unit except a line
    terminator. *)
Fixpoint dotStar (s : jsstring) : jsstring :=
  match s with
  | [] => []
  | c :: s' => if JS.isLineTerminator c then [] else c :: dotStar s'
  end.

(** The pattern tried at the first unit of [s]. *)
Definition matchHere (s : jsstring) : option LrcMatch :=
  match s with
  | b0 :: m1 :: m2 :: co :: s1 :: s2 :: dt :: c1 :: c2 :: b1 :: rest =>
      if (b0 =? 91) && JS.isDigit m1 && JS.isDigit m2 && (co =? 58)
         && JS.isDigit s1 && JS.isDigit s2 && (dt =? 46)
         && JS.isDigit c1 && JS.isDigit c2 && (b1 =? 93)
      then Some {| g1 := [m1; m2]; g2 := [s1; s2]; g3 := [c1; c2];
                   g4 := dotStar rest |}
      else None
  | _ => None
  end.

(** The pattern is not anchored: the leftmost position where it matches
    wins. *)
Fixpoint lrcMatch (line : jsstring) : option LrcMatch :=
  match matchHere line with
  | Some m => Some m
  | None =>
      match line with
      | [] => None
      | _ :: line' => lrcMatch line'
      end
  end.

(** The body of the [forEach] callback of [parseLRC]: [lyrics] after the
    callback ran on [line]. *)
Definition parseLine (lyrics : list LyricLine) (line : jsstring) : list LyricLine :=
  match lrcMatch line with
  | Some m =>
      let minutes := JS.parseInt (g1 m) in
      let seconds := JS.parseInt (g2 m) in
      let centiseconds := JS.parseInt (g3 m) in
      let timeMs := minutes * 60000 + seconds * 1000 + centiseconds * 10 in
      let lyricText := JS.trim (g4 m) in
      if JS.truthy (Some lyricText)
      then lyrics ++ [{| time := timeMs; lyric := lyricText |}]
      else lyrics
  | None => lyrics
  end.

Definition parseLRC (lrcString : option jsstring) : list LyricLine :=
  if negb (JS.truthy lrcString) then []
  else
    let lines := JS.split 10 (default [] lrcString) in
    fold_left parseLine lines [].

(** The [for] loop of [getLyricAtProgress], entered with the value of
    [currentLyric] so far; it leaves at the first line that starts after
    [progressMs]. *)
Fixpoint lyricScan (lyrics : list LyricLine) (progressMs : Z)
    (currentLyric : option jsstring) : option jsstring :=
  match lyrics with
  | [] => currentLyric
  | l :: rest =>
      if time l <=? progressMs
      then lyricScan rest progressMs (Some (lyric l))
      else currentLyric
  end.

Definition getLyricAtProgress (lyrics : option (list LyricLine)) (progressMs : Z)
    : option jsstring :=
  match lyrics with
  | None | Some [] => None
  | Some ls => lyricScan ls progressMs None
  end.

Definition truncateLyric (lyric : jsstring) (prefix : jsstring) : jsstring :=
  let maxLength := 128 - Z.of_nat (length prefix) in
  if Z.of_nat (length lyric) >? maxLength
  then prefix ++ JS.substring lyric 0 (maxLength - 3) ++ str "..."
  else prefix ++ lyric.

(** * Effects

    A method of a class with state [S] is a function of the environment
    and the state before the call; it gives the outcome and the state
    after. *)

Inductive AxiosError :=
  | ECONNABORTED
  | HttpStatus (status : Z)
  | NetworkFailure.

Inductive JsError :=
  | AxiosFailure (e : AxiosError)
  | Error (message : string).

Inductive Result (A : Type) :=
  | Return (a : A)
  | Throw (e : JsError).
Arguments Return {A} a.
Arguments Throw {A} e.

(** The outcome of one HTTP request. *)
Inductive Reply (A : Type) :=
  | Resolved (data : A)
  | Rejected (e : AxiosError).
Arguments Resolved {A} data.
Arguments Rejected {A} e.

(** The object returned by [SpotifyService.getCurrentlyPlaying]; the
    fields [album] and [externalUrl] are never read by the orchestrator.
    [id] is the Spotify identifier of the item, a string. *)
Module Track.
Record t := {
  id : jsstring;
  name : jsstring;
  artists : jsstring;
  duration : Z;
  progress : Z;
  isPlaying : bool
}.
End Track.

(** The body of an LRCLIB [/get] response. *)
Module Lrclib.
Record data := {
  instrumental : bool;
  syncedLyrics : option jsstring;
  plainLyrics : option jsstring
}.
Record query := {
  track_name : jsstring;
  artist_name : jsstring;
  duration_ms : Z
}.
End Lrclib.

(** [CONFIG] of [index.js], as far as the polling cycle reads it. *)
Record Config := {
  CACHE_ENABLED : bool;
  RATE_LIMIT_THRESHOLD : Z;
  SYNC_OFFSET : Z
}.

(** What the outside world answers during one call: the clock, and the
    outcome of a request to each of the three services. *)
Record Env := {
  CONFIG : Config;
  now : Z;
  spotifyCurrentlyPlaying : Result (option Track.t);
  lrclibGet : Reply (option Lrclib.data);
  discordPatch : Reply unit
}.

Definition M (S A : Type) : Type := Env -> S -> Result A * S.

Definition ret {S A} (a : A) : M S A := fun _ s => (Return a, s).

Definition bind {S A B} (m : M S A) (k : A -> M S B) : M S B :=
  fun env s =>
    match m env s with
    | (Return a, s') => k a env s'
    | (Throw e, s') => (Throw e, s')
    end.

Definition throw {S A} (e : JsError) : M S A := fun _ s => (Throw e, s).

Definition tryCatch {S A} (body : M S A) (handler : JsError -> M S A) : M S A :=
  fun env s =>
    match body env s with
    | (Return a, s') => (Return a, s')
    | (Throw e, s') => handler e env s'
    end.

(** A read of the module constant [CONFIG]. *)
Definition readConfig {S} : M S Config := fun env s => (Return (CONFIG env), s).

Definition gets {S A} (f : S -> A) : M S A := fun _ s => (Return (f s), s).

Definition modify {S} (f : S -> S) : M S unit := fun _ s => (Return tt, f s).

(** A method of a member object run on the object that owns it. *)
Definition zoom {S T A} (proj : S -> T) (upd : T -> S -> S) (m : M T A) : M S A :=
  fun env s => let (r, t') := m env (proj s) in (r, upd t' s).

Declare Scope js_scope.
Delimit Scope js_scope with js.
Notation "x <- m ;; k" := (bind m (fun x => k))
  (at level 100, m at level 99, k at level 200, right associativity) : js_scope.
Notation "m ;;; k" := (bind m (fun _ => k))
  (at level 100, k at level 200, right associativity) : js_scope.
Open Scope js_scope.

Definition Date_now {S} : M S Z := fun env s => (Return (now env), s).

(** ** LyricsCache *)

Module LyricsCache.

Record entry := { lyrics : list LyricLine; timestamp : Z }.

Record t := { cache : gmap jsstring entry; ttl : Z }.

Definition new (ttl : Z) : t := {| cache := ∅; ttl := ttl |}.
Definition default_ttl : Z := 600000.

Definition generateKey (trackName artistName : jsstring) : jsstring :=
  JS.toLowerCase (trackName ++ str "::" ++ artistName).

Definition set (trackName artistName : jsstring) (lyrics : list LyricLine)
    : M t unit :=
  let key := generateKey trackName artistName in
  now <- Date_now ;;
  modify (fun c =>
    {| cache := <[key := {| lyrics := lyrics; timestamp := now |}]> (cache c);
       ttl := ttl c |}).

Definition get (trackName artistName : jsstring) : M t (option (list LyricLine)) :=
  let key := generateKey trackName artistName in
  entry <- gets (fun c => cache c !! key) ;;
  match entry with
  | None => ret None
  | Some entry =>
      now <- Date_now ;;
      limit <- gets ttl ;;
      if now - timestamp entry >? limit
      then
        modify (fun c => {| cache := delete key (cache c); ttl := ttl c |}) ;;;
        ret None
      else ret (Some (lyrics entry))
  end.

Definition clear : M t unit :=
  modify (fun c => {| cache := ∅; ttl := ttl c |}).

Definition size : M t nat := gets (fun c => base.size (cache c)).

End LyricsCache.

(** ** RateLimiter *)

Module RateLimiter.

Record t := { threshold : Z; lastUpdate : Z }.

Definition new (threshold : Z) : t := {| threshold := threshold; lastUpdate := 0 |}.

Definition canUpdate : M t bool :=
  now <- Date_now ;;
  r <- gets (fun r => r) ;;
  if now - lastUpdate r >=? threshold r
  then
    modify (fun r => {| threshold := threshold r; lastUpdate := now |}) ;;;
    ret true
  else ret false.

Definition reset : M t unit :=
  modify (fun r => {| threshold := threshold r; lastUpdate := 0 |}).

End RateLimiter.

(** ** DiffChecker *)

Module DiffChecker.

Record t := { lastLyric : option jsstring }.

Definition new : t := {| lastLyric := None |}.

Definition hasChanged (lyric : jsstring) : M t bool :=
  last <- gets lastLyric ;;
  let changed := bool_decide (Some lyric ≠ last) in
  (if changed then modify (fun _ => {| lastLyric := Some lyric |}) else ret tt) ;;;
  ret changed.

Definition reset : M t unit := modify (fun _ => {| lastLyric := None |}).

End DiffChecker.

(** * discordService.js *)

(** The body of a [PATCH /users/@me/settings] request. *)
Inductive DiscordPatch :=
  | PatchStatus (text : jsstring)
  | PatchClear.

Module DiscordService.

(** [patches] is the log of the requests issued so far, oldest first. *)
Record t := {
  lastStatus : option jsstring;
  ready : bool;
  patches : list DiscordPatch
}.

Definition new : t := {| lastStatus := None; ready := true; patches := [] |}.

Definition setLastStatus (v : option jsstring) (d : t) : t :=
  {| lastStatus := v; ready := ready d; patches := patches d |}.

Definition axios_patch (body : DiscordPatch) : M t unit :=
  fun env d =>
    let d' := {| lastStatus := lastStatus d; ready := ready d;
                 patches := patches d ++ [body] |} in
    match discordPatch env with
    | Resolved _ => (Return tt, d')
    | Rejected e => (Throw (AxiosFailure e), d')
    end.

Definition setLyricStatus (lyric : jsstring) : M t unit :=
  tryCatch
    (let text := JS.substring lyric 0 128 in
     last <- gets lastStatus ;;
     if bool_decide (Some text = last) then ret tt
     else
       axios_patch (PatchStatus text) ;;;
       modify (setLastStatus (Some text)))
    (fun error => throw error).

Definition clearStatus : M t unit :=
  tryCatch
    (axios_patch PatchClear ;;;
     modify (setLastStatus None))
    (fun error => ret tt).

Definition isReady : M t bool := gets ready.

(** The marker written in [setListeningStatus]: the four code units
    U+00F0, U+0178, U+017D, U+00B5 of the source text, then a space. *)
Definition listeningMarker : jsstring := [240; 376; 381; 181; 32].

Definition setListeningStatus (trackName artistName : jsstring) : M t unit :=
  tryCatch
    (let displayName :=
       if JS.truthy (Some artistName)
       then trackName ++ str " by " ++ artistName
       else trackName in
     setLyricStatus (listeningMarker ++ str "Listening to " ++ displayName))
    (fun error => throw error).

(** [logout] only writes to the log. *)
Definition logout : M t unit := ret tt.

End DiscordService.

(** * lyricsService.js *)

Module LyricsService.

(** [requests] is the log of the [/get] requests issued so far. *)
Record t := { requests : list Lrclib.query }.

Definition new : t := {| requests := [] |}.

Definition client_get (q : Lrclib.query) : M t (option Lrclib.data) :=
  fun env l =>
    let l' := {| requests := requests l ++ [q] |} in
    match lrclibGet env with
    | Resolved data => (Return data, l')
    | Rejected e => (Throw (AxiosFailure e), l')
    end.

(** [v || null] on a string-or-null value. *)
Definition orNull (v : option jsstring) : option jsstring :=
  if JS.truthy v then v else None.

Definition fetchLyrics (trackName artistName : jsstring) (duration : Z)
    : M t (option Lrclib.data) :=
  tryCatch
    (let primaryArtist := JS.trim (hd [] (JS.split 44 artistName)) in
     data <- client_get {| Lrclib.track_name := trackName;
                           Lrclib.artist_name := primaryArtist;
                           Lrclib.duration_ms := duration |} ;;
     match data with
     | None => ret None
     | Some data =>
         if Lrclib.instrumental data
         then ret (Some {| Lrclib.instrumental := true;
                           Lrclib.syncedLyrics := None;
                           Lrclib.plainLyrics := None |})
         else ret (Some {| Lrclib.instrumental := false;
                           Lrclib.syncedLyrics := orNull (Lrclib.syncedLyrics data);
                           Lrclib.plainLyrics := orNull (Lrclib.plainLyrics data) |})
     end)
    (fun error =>
       match error with
       | AxiosFailure ECONNABORTED => ret None
       | AxiosFailure (HttpStatus 404) => ret None
       | _ => ret None
       end).

Definition fetchAndParseLyrics (trackName artistName : jsstring) (duration : Z)
    : M t (option (list LyricLine)) :=
  lyricsData <- fetchLyrics trackName artistName duration ;;
  match lyricsData with
  | None => ret None
  | Some lyricsData =>
      if negb (JS.truthy (Lrclib.syncedLyrics lyricsData)) then ret None
      else
        tryCatch
          (let parsedLyrics := parseLRC (Lrclib.syncedLyrics lyricsData) in
           ret (Some parsedLyrics))
          (fun error => ret None)
  end.

(** The quotient [duration / lines.length] and each product
    [index * timePerLine] are Numbers, rounded to binary64 as JavaScript
    rounds them; the duration, the number of lines and the index are
    integers that a Number holds exactly (below 2^53 in magnitude). *)
Definition convertPlainToTimed (plainLyrics : jsstring) (duration : Z)
    : list LyricLine :=
  let lines :=
    filter (fun line => 0 <? Z.of_nat (length line))
           (map JS.trim (JS.split 10 plainLyrics)) in
  match lines with
  | [] => []
  | _ :: _ =>
      let timePerLine :=
        JS.div (inject_Z duration) (inject_Z (Z.of_nat (length lines))) in
      imap (fun index lyric =>
              {| time := JS.Math_round (JS.mul (inject_Z (Z.of_nat index)) timePerLine);
                 lyric := lyric |})
           lines
  end.

(** [searchLyrics] asks LRCLIB twice; both requests get the answer the
    environment holds. *)
Definition searchLyrics (trackName artistName : jsstring) (duration : Z)
    : M t (option (list LyricLine)) :=
  parsed <- fetchAndParseLyrics trackName artistName duration ;;
  match parsed with
  | Some parsed => ret (Some parsed)
  | None =>
      tryCatch
        (lyricsData <- fetchLyrics trackName artistName duration ;;
         match lyricsData with
         | Some lyricsData =>
             if JS.truthy (Lrclib.plainLyrics lyricsData)
                && negb (Lrclib.instrumental lyricsData)
             then ret (Some (convertPlainToTimed
                               (default [] (Lrclib.plainLyrics lyricsData))
                               duration))
             else ret None
         | None => ret None
         end)
        (fun error => ret None)
  end.

End LyricsService.

(** * spotifyService.js

    [getCurrentlyPlaying] resolves to [null] when nothing is playing, to a
    track object otherwise, or throws. In the polling cycle the call is seen
    from the orchestrator: its outcome is an answer of the environment, and
    the token that the call may refresh or forget is state of the Spotify
    service ([SpotifyService] below), not of the record
    [SpotifyDiscordBot.t]. What is proved of a cycle is proved of the
    members of that record: the two other services, the cache, the gate, the
    current track and its lyrics. *)

Definition getCurrentlyPlaying {S} : M S (option Track.t) :=
  fun env s => (spotifyCurrentlyPlaying env, s).

(** The token handling and the request of [SpotifyService], with the
    environment it talks to: the clock, the answer of the token endpoint and
    the answer of the player endpoint. *)
Module SpotifyService.

Record tokenData := { access_token : jsstring; expires_in : Z }.

(** [response.data.item] for a music track. *)
Record item := {
  item_id : jsstring;
  item_name : jsstring;
  artist_names : list jsstring;
  duration_ms : Z
}.

Record playerData := {
  playing_item : option item;
  progress_ms : Z;
  is_playing : bool
}.

Record env := {
  clock : Z;
  tokenPost : Reply tokenData;
  playerGet : Reply (option playerData)
}.

Inductive request :=
  | TokenRequest
  | PlayerRequest (bearer : option jsstring).

(** [requests] is the log of the requests issued so far, oldest first. *)
Record t := {
  accessToken : option jsstring;
  tokenExpiry : option Z;
  requests : list request
}.

Definition new : t := {| accessToken := None; tokenExpiry := None; requests := [] |}.

Definition log (r : request) (s : t) : t :=
  {| accessToken := accessToken s; tokenExpiry := tokenExpiry s;
     requests := requests s ++ [r] |}.

Definition refreshAccessToken (e : env) (s : t) : Result jsstring * t :=
  let s1 := log TokenRequest s in
  match tokenPost e with
  | Resolved data =>
      (Return (access_token data),
       {| accessToken := Some (access_token data);
          tokenExpiry := Some (clock e + (expires_in data - 300) * 1000);
          requests := requests s1 |})
  | Rejected _ => (Throw (Error "Failed to refresh Spotify access token"), s1)
  end.

(** [Date.now() >= this.tokenExpiry] compares with 0 while [tokenExpiry] is
    [null]. *)
Definition ensureValidToken (e : env) (s : t) : Result unit * t :=
  if negb (JS.truthy (accessToken s)) || (clock e >=? default 0 (tokenExpiry s))
  then
    match refreshAccessToken e s with
    | (Return _, s') => (Return tt, s')
    | (Throw err, s') => (Throw err, s')
    end
  else (Return tt, s).

(** [array.join(', ')]. *)
Fixpoint joinNames (names : list jsstring) : jsstring :=
  match names with
  | [] => []
  | [n] => n
  | n :: rest => n ++ str ", " ++ joinNames rest
  end.

Definition getCurrentlyPlaying (e : env) (s : t) : Result (option Track.t) * t :=
  match ensureValidToken e s with
  | (Throw err, s1) => (Throw err, s1)
  | (Return _, s1) =>
      let s2 := log (PlayerRequest (accessToken s1)) s1 in
      match playerGet e with
      | Resolved None => (Return None, s2)
      | Resolved (Some data) =>
          match playing_item data with
          | None => (Return None, s2)
          | Some track =>
              let artists := joinNames (artist_names track) in
              (Return (Some {| Track.id := item_id track;
                               Track.name := item_name track;
                               Track.artists := artists;
                               Track.duration := duration_ms track;
                               Track.progress := progress_ms data;
                               Track.isPlaying := is_playing data |}), s2)
          end
      | Rejected (HttpStatus 429) =>
          (Throw (Error "Spotify API rate limited - backing off"), s2)
      | Rejected (HttpStatus 401) =>
          (Throw (Error "Spotify token invalid - will refresh on next attempt"),
           {| accessToken := None; tokenExpiry := None; requests := requests s2 |})
      | Rejected err => (Throw (AxiosFailure err), s2)
      end
  end.

Definition isCurrentlyPlaying (e : env) (s : t) : Result bool * t :=
  match getCurrentlyPlaying e s with
  | (Return (Some track), s') => (Return (Track.isPlaying track), s')
  | (Return None, s') => (Return false, s')
  | (Throw err, s') => (Throw err, s')
  end.

End SpotifyService.

(** * logger.js *)

Module Logger.

Definition ERROR : Z := 0.
Definition WARN : Z := 1.
Definition INFO : Z := 2.
Definition DEBUG : Z := 3.

(** [toUpperCase] on the code units below 256; [223] becomes two units,
    [181] and [255] leave the Latin-1 range; code units above are left as
    they are. *)
Definition upperUnit (c : Z) : jsstring :=
  if ((97 <=? c) && (c <=? 122))
     || ((224 <=? c) && (c <=? 254) && negb (c =? 247))
  then [c - 32]
  else if c =? 223 then [83; 83]
  else if c =? 181 then [924]
  else if c =? 255 then [376]
  else [c].

Definition toUpperCase (s : jsstring) : jsstring := flat_map upperUnit s.

(** [LOG_LEVELS[key]]: [None] is [undefined]. The names inherited by the
    object all contain a lower-case ASCII letter, which an upper-cased key
    never does. *)
Definition LOG_LEVELS (key : jsstring) : option Z :=
  if bool_decide (key = str "ERROR") then Some ERROR
  else if bool_decide (key = str "WARN") then Some WARN
  else if bool_decide (key = str "INFO") then Some INFO
  else if bool_decide (key = str "DEBUG") then Some DEBUG
  else None.

Inductive stream := ConsoleError | ConsoleWarn | ConsoleLog.

(** [console] is what was printed so far, oldest first: the stream, and of
    the text built by [formatMessage] the level tag and the message (the
    time stamp and the data are left out). *)
Record t := { level : Z; console : list (stream * jsstring * jsstring) }.

(** [this.level = LOG_LEVELS[level.toUpperCase()] || LOG_LEVELS.INFO]:
    [undefined] and [0] are falsy. *)
Definition new (level : jsstring) : t :=
  {| level :=
       match LOG_LEVELS (toUpperCase level) with
       | Some n => if n =? 0 then INFO else n
       | None => INFO
       end;
     console := [] |}.

Definition print (out : stream) (tag message : jsstring) (l : t) : t :=
  {| level := level l; console := console l ++ [(out, tag, message)] |}.

Definition error (message : jsstring) (l : t) : t :=
  if level l >=? ERROR then print ConsoleError (str "ERROR") message l else l.

Definition warn (message : jsstring) (l : t) : t :=
  if level l >=? WARN then print ConsoleWarn (str "WARN") message l else l.

Definition info (message : jsstring) (l : t) : t :=
  if level l >=? INFO then print ConsoleLog (str "INFO") message l else l.

Definition debug (message : jsstring) (l : t) : t :=
  if level l >=? DEBUG then print ConsoleLog (str "DEBUG") message l else l.

End Logger.

(** * index.js: the orchestrator *)

Module SpotifyDiscordBot.

(** The members that the polling cycle reads and writes. The [spotify]
    member is not among them: the Spotify service keeps its token in
    [SpotifyService.t], and the cycle sees the outcome of its call only. *)
Record t := {
  lyrics : LyricsService.t;
  discord : DiscordService.t;
  lyricsCache : LyricsCache.t;
  rateLimiter : RateLimiter.t;
  diffChecker : DiffChecker.t;
  currentTrackId : option jsstring;
  currentLyrics : option (list LyricLine)
}.

(** The state built by the constructor. *)
Definition new (config : Config) : t := {|
  lyrics := LyricsService.new;
  discord := DiscordService.new;
  lyricsCache := LyricsCache.new LyricsCache.default_ttl;
  rateLimiter := RateLimiter.new (RATE_LIMIT_THRESHOLD config);
  diffChecker := DiffChecker.new;
  currentTrackId := None;
  currentLyrics := None
|}.

Definition setLyrics (v : LyricsService.t) (b : t) : t :=
  {| lyrics := v; discord := discord b; lyricsCache := lyricsCache b;
     rateLimiter := rateLimiter b; diffChecker := diffChecker b;
     currentTrackId := currentTrackId b; currentLyrics := currentLyrics b |}.
Definition setDiscord (v : DiscordService.t) (b : t) : t :=
  {| lyrics := lyrics b; discord := v; lyricsCache := lyricsCache b;
     rateLimiter := rateLimiter b; diffChecker := diffChecker b;
     currentTrackId := currentTrackId b; currentLyrics := currentLyrics b |}.
Definition setLyricsCache (v : LyricsCache.t) (b : t) : t :=
  {| lyrics := lyrics b; discord := discord b; lyricsCache := v;
     rateLimiter := rateLimiter b; diffChecker := diffChecker b;
     currentTrackId := currentTrackId b; currentLyrics := currentLyrics b |}.
Definition setRateLimiter (v : RateLimiter.t) (b : t) : t :=
  {| lyrics := lyrics b; discord := discord b; lyricsCache := lyricsCache b;
     rateLimiter := v; diffChecker := diffChecker b;
     currentTrackId := currentTrackId b; currentLyrics := currentLyrics b |}.
Definition setDiffChecker (v : DiffChecker.t) (b : t) : t :=
  {| lyrics := lyrics b; discord := discord b; lyricsCache := lyricsCache b;
     rateLimiter := rateLimiter b; diffChecker := v;
     currentTrackId := currentTrackId b; currentLyrics := currentLyrics b |}.
Definition setCurrentTrackId (v : option jsstring) (b : t) : t :=
  {| lyrics := lyrics b; discord := discord b; lyricsCache := lyricsCache b;
     rateLimiter := rateLimiter b; diffChecker := diffChecker b;
     currentTrackId := v; currentLyrics := currentLyrics b |}.
Definition setCurrentLyrics (v : option (list LyricLine)) (b : t) : t :=
  {| lyrics := lyrics b; discord := discord b; lyricsCache := lyricsCache b;
     rateLimiter := rateLimiter b; diffChecker := diffChecker b;
     currentTrackId := currentTrackId b; currentLyrics := v |}.

(** [this.lyrics.m(..)], [this.discord.m(..)] and so on. *)
Definition this_lyrics {A} : M LyricsService.t A -> M t A := zoom lyrics setLyrics.
Definition this_discord {A} : M DiscordService.t A -> M t A := zoom discord setDiscord.
Definition this_lyricsCache {A} : M LyricsCache.t A -> M t A :=
  zoom lyricsCache setLyricsCache.
Definition this_rateLimiter {A} : M RateLimiter.t A -> M t A :=
  zoom rateLimiter setRateLimiter.
Definition this_diffChecker {A} : M DiffChecker.t A -> M t A :=
  zoom diffChecker setDiffChecker.

(** The two status markers: U+266A and U+1F3B5 (a surrogate pair), each
    followed by a space. *)
Definition note : jsstring := [9834; 32].
Definition notes : jsstring := [55356; 57269; 32].

(** The cache lookup at the head of [fetchAndCacheLyrics]: [Some] lyrics
    on a hit, [None] when the cache is disabled or misses. *)
Definition cacheLookup (track : Track.t) : M t (option (list LyricLine)) :=
  config <- readConfig ;;
  if CACHE_ENABLED config
  then this_lyricsCache (LyricsCache.get (Track.name track) (Track.artists track))
  else ret None.

Definition fetchAndCacheLyrics (track : Track.t) : M t unit :=
  tryCatch
    (cached <- cacheLookup track ;;
     match cached with
     | Some cached => modify (setCurrentLyrics (Some cached))
     | None =>
         fetched <- this_lyrics (LyricsService.fetchAndParseLyrics
                                   (Track.name track) (Track.artists track)
                                   (Track.duration track)) ;;
         match fetched with
         | Some fetched =>
             modify (setCurrentLyrics (Some fetched)) ;;;
             config <- readConfig ;;
             if CACHE_ENABLED config
             then this_lyricsCache (LyricsCache.set (Track.name track)
                                      (Track.artists track) fetched)
             else ret tt
         | None => modify (setCurrentLyrics None)
         end
     end)
    (fun error => modify (setCurrentLyrics None)).

Definition getCurrentLyric (progressMs : Z) : M t (option jsstring) :=
  lyrics <- gets currentLyrics ;;
  match lyrics with
  | None | Some [] => ret None
  | Some _ => ret (getLyricAtProgress lyrics progressMs)
  end.

(** [poll], the branch taken when Spotify reports no playback. *)
Definition onNoPlayback : M t unit :=
  current <- gets currentTrackId ;;
  match current with
  | Some _ =>
      this_discord DiscordService.clearStatus ;;;
      modify (setCurrentTrackId None) ;;;
      modify (setCurrentLyrics None) ;;;
      this_diffChecker DiffChecker.reset
  | None => ret tt
  end.

(** [poll], the block guarded by [track.id !== this.currentTrackId]. *)
Definition onTrackChange (track : Track.t) : M t unit :=
  modify (setCurrentTrackId (Some (Track.id track))) ;;;
  modify (setCurrentLyrics None) ;;;
  this_diffChecker DiffChecker.reset ;;;
  fetchAndCacheLyrics track.

(** [poll], the status text prepared for a playing track. *)
Definition prepareStatusText (track : Track.t) : M t jsstring :=
  config <- readConfig ;;
  let progressWithOffset := Track.progress track + SYNC_OFFSET config in
  currentLyric <- getCurrentLyric progressWithOffset ;;
  lyrics <- gets currentLyrics ;;
  if JS.truthy currentLyric
  then ret (truncateLyric (default [] currentLyric) note)
  else
    match lyrics with
    | Some (_ :: _) => ret (notes ++ Track.name track)
    | _ => ret (notes ++ str "Listening to " ++ Track.name track)
    end.

(** [poll], from the diff check to the status update. *)
Definition gate (statusText : jsstring) : M t unit :=
  changed <- this_diffChecker (DiffChecker.hasChanged statusText) ;;
  if negb changed then ret tt
  else
    allowed <- this_rateLimiter RateLimiter.canUpdate ;;
    if negb allowed then ret tt
    else this_discord (DiscordService.setLyricStatus statusText).

Definition poll : M t unit :=
  tryCatch
    (isReady <- this_discord DiscordService.isReady ;;
     if negb isReady then ret tt
     else
       track <- getCurrentlyPlaying ;;
       match track with
       | None => onNoPlayback
       | Some track =>
           current <- gets currentTrackId ;;
           (if bool_decide (Some (Track.id track) ≠ current)
            then onTrackChange track
            else ret tt) ;;;
           if negb (Track.isPlaying track) then ret tt
           else
             statusText <- prepareStatusText track ;;
             gate statusText
       end)
    (fun error => ret tt).

End SpotifyDiscordBot.

(** * Vocabulary of the properties *)

(** ** Lyric timeline *)

(** The offsets never go down along the document. *)
Fixpoint nonDecreasing (lyrics : list LyricLine) : bool :=
  match lyrics with
  | a :: (b :: _) as rest => (time a <=? time b) && nonDecreasing rest
  | _ => true
  end.

(** [l] is the last line of [lyrics], in document order, that starts at
    or before [progressMs]. *)
Definition isLastLineAt (lyrics : list LyricLine) (progressMs : Z)
    (l : LyricLine) : Prop :=
  ∃ i : nat,
    lyrics !! i = Some l ∧ time l <= progressMs ∧
    ∀ (j : nat) (l' : LyricLine),
      (i < j)%nat → lyrics !! j = Some l' → progressMs < time l'.

(** The lookup contract at one timeline and one progress value: the text
    of the last line at or before the progress, and nothing when no line
    qualifies. *)
Definition LineAt_contract (lyrics : list LyricLine) (progressMs : Z) : Prop :=
  (∀ l, isLastLineAt lyrics progressMs l →
        getLyricAtProgress (Some lyrics) progressMs = Some (lyric l))
  ∧ ((∀ l, l ∈ lyrics → progressMs < time l) →
     getLyricAtProgress (Some lyrics) progressMs = None).

(** The timeline of the lookup example: cues at 0, 5500 and 10250 ms. *)
Definition abc_timeline : list LyricLine :=
  [ {| time := 0; lyric := str "a" |};
    {| time := 5500; lyric := str "b" |};
    {| time := 10250; lyric := str "c" |} ].

(** A timeline as [parseLRC] leaves it when the document is out of order. *)
Definition unordered_timeline : list LyricLine :=
  parseLRC (Some (str "[00:10.00]x" ++ [10] ++ str "[00:05.00]y")).

(** ** Truncation *)

(** The truncation contract at one lyric and one marker: the output never
    exceeds 128 units and, when marker and lyric together exceed 128 units,
    it is exactly 128 units long, made of the marker, a head of the lyric
    and the three dots. *)
Definition truncation_contract (lyric prefix : jsstring) : Prop :=
  let out := truncateLyric lyric prefix in
  (length out ≤ 128)%nat
  ∧ ((128 < length prefix + length lyric)%nat →
     length out = 128%nat
     ∧ ∃ head tail, lyric = head ++ tail ∧ out = prefix ++ head ++ str "...").

(** ** Cache keys *)




(** ** Cache reads *)

(** [Get] reports the entry of a title and performer absent. *)
Definition reportsAbsent (env : Env) (c : LyricsCache.t)
    (trackName artistName : jsstring) : Prop :=
  fst (LyricsCache.get trackName artistName env c) = Return None.

(** The entry stored under the key of a title and performer, if any. *)
Definition entryOf (c : LyricsCache.t) (trackName artistName : jsstring)
    : option LyricsCache.entry :=
  LyricsCache.cache c !! LyricsCache.generateKey trackName artistName.

(** The number of entries, as [size()] reports it. *)
Definition cacheSize (env : Env) (c : LyricsCache.t) : nat :=
  match fst (LyricsCache.size env c) with
  | Return n => n
  | Throw _ => 0%nat
  end.

(** The configuration [index.js] falls back to when the environment
    variables are not set. *)
Definition default_config : Config :=
  {| CACHE_ENABLED := true; RATE_LIMIT_THRESHOLD := 1000; SYNC_OFFSET := 0 |}.

(** An environment whose clock reads [t]: Discord accepts every request,
    Spotify and LRCLIB do not answer. *)
Definition at_time (t : Z) : Env := {|
  CONFIG := default_config;
  now := t;
  spotifyCurrentlyPlaying := Throw (AxiosFailure NetworkFailure);
  lrclibGet := Rejected NetworkFailure;
  discordPatch := Resolved tt
|}.

(** ** Status sink *)

(** A call on the status sink. *)
Inductive SinkCall :=
  | SetText (text : jsstring)
  | Clear.

Definition sinkCall (c : SinkCall) : M DiscordService.t unit :=
  match c with
  | SetText text => DiscordService.setLyricStatus text
  | Clear => DiscordService.clearStatus
  end.

(** An environment in which Discord answers [reply]. *)
Definition discord_answers (reply : Reply unit) : Env := {|
  CONFIG := default_config;
  now := 0;
  spotifyCurrentlyPlaying := Throw (AxiosFailure NetworkFailure);
  lrclibGet := Rejected NetworkFailure;
  discordPatch := reply
|}.

(** A sequence of sink calls, each with the answer Discord would give to
    its request. *)
Fixpoint runSink (calls : list (SinkCall * Reply unit)) (d : DiscordService.t)
    : DiscordService.t :=
  match calls with
  | [] => d
  | (c, reply) :: rest => runSink rest (snd (sinkCall c (discord_answers reply) d))
  end.

(** The text of the last status that went through, starting from [acc]:
    a successful clear leaves none. *)
Fixpoint lastSent (calls : list (SinkCall * Reply unit)) (acc : option jsstring)
    : option jsstring :=
  match calls with
  | [] => acc
  | (SetText text, Resolved _) :: rest => lastSent rest (Some (firstn 128 text))
  | (Clear, Resolved _) :: rest => lastSent rest None
  | (_, Rejected _) :: rest => lastSent rest acc
  end.

(** Every status text on the wire is at most 128 units long. *)
Definition within128 (p : DiscordPatch) : Prop :=
  match p with
  | PatchStatus text => (length text ≤ 128)%nat
  | PatchClear => True
  end.

(** ** Update gate *)

(** The gate fed with candidate A at [t0], A at [t0 + 100], B at
    [t0 + 200] and B at [t0 + 1000], from the state the constructor builds
    with a threshold of 1000 ms: the states after each candidate. *)
Definition gateAfter (t0 : Z) (A B : jsstring) (n : nat) : SpotifyDiscordBot.t :=
  let feed text t b := snd (SpotifyDiscordBot.gate text (at_time t) b) in
  let b0 := SpotifyDiscordBot.new default_config in
  let b1 := feed A t0 b0 in
  let b2 := feed A (t0 + 100) b1 in
  let b3 := feed B (t0 + 200) b2 in
  let b4 := feed B (t0 + 1000) b3 in
  nth n [b0; b1; b2; b3] b4.

(** What [hasChanged] and [canUpdate] would answer in a state. *)
Definition diffAnswer (text : jsstring) (b : SpotifyDiscordBot.t) : Result bool :=
  fst (DiffChecker.hasChanged text (at_time 0) (SpotifyDiscordBot.diffChecker b)).

Definition intervalAnswer (t : Z) (b : SpotifyDiscordBot.t) : Result bool :=
  fst (RateLimiter.canUpdate (at_time t) (SpotifyDiscordBot.rateLimiter b)).

(** The status requests a state has on its log. *)
Definition sentBy (b : SpotifyDiscordBot.t) : list DiscordPatch :=
  DiscordService.patches (SpotifyDiscordBot.discord b).

(** The four-candidate scenario: A goes out at [t0]; the second A is
    stopped by the diff check; the first B passes the diff check, which keeps
    it, and is stopped by the interval check; the second B is stopped by the
    diff check although the interval check would let it through; one request
    in all. *)
Definition gate_scenario (t0 : Z) (A B : jsstring) : Prop :=
  let b := gateAfter t0 A B in
  sentBy (b 1%nat) = [PatchStatus (firstn 128 A)]
  ∧ (diffAnswer A (b 1%nat) = Return false ∧ b 2%nat = b 1%nat)
  ∧ (diffAnswer B (b 2%nat) = Return true
     ∧ DiffChecker.lastLyric (SpotifyDiscordBot.diffChecker (b 3%nat)) = Some B
     ∧ intervalAnswer (t0 + 200) (b 2%nat) = Return false
     ∧ sentBy (b 3%nat) = sentBy (b 2%nat))
  ∧ (diffAnswer B (b 3%nat) = Return false
     ∧ intervalAnswer (t0 + 1000) (b 3%nat) = Return true
     ∧ b 4%nat = b 3%nat)
  ∧ sentBy (b 4%nat) = [PatchStatus (firstn 128 A)].

(** ** Polling cycle *)

(** The parts of the orchestrator that [fetchAndCacheLyrics] leaves alone. *)
Definition sameGateAndSink (b b' : SpotifyDiscordBot.t) : Prop :=
  SpotifyDiscordBot.rateLimiter b' = SpotifyDiscordBot.rateLimiter b
  ∧ SpotifyDiscordBot.diffChecker b' = SpotifyDiscordBot.diffChecker b
  ∧ SpotifyDiscordBot.discord b' = SpotifyDiscordBot.discord b
  ∧ SpotifyDiscordBot.currentTrackId b' = SpotifyDiscordBot.currentTrackId b.


(** A method relates every state to the state it leaves by [R]. *)
Definition preserves {S A} (R : S → S → Prop) (m : M S A) : Prop :=
  ∀ env s, R s (snd (m env s)).

(** A method returns normally from every state. *)
Definition neverThrows {S A} (m : M S A) : Prop :=
  ∀ env s, ∃ a, fst (m env s) = Return a.

(** A method cannot tell two environments apart. *)
Definition agree {S A} (env1 env2 : Env) (m : M S A) : Prop :=
  ∀ s, m env1 s = m env2 s.

(** [env] with LRCLIB answering [reply]. *)
Definition with_lrclib (reply : Reply (option Lrclib.data)) (env : Env) : Env := {|
  CONFIG := CONFIG env;
  now := now env;
  spotifyCurrentlyPlaying := spotifyCurrentlyPlaying env;
  lrclibGet := reply;
  discordPatch := discordPatch env
|}.

(** The environment of one cycle at clock [t]: Spotify reports [playing],
    LRCLIB answers [reply], Discord accepts every request. *)
Definition cycle (t : Z) (playing : option Track.t)
    (reply : Reply (option Lrclib.data)) : Env := {|
  CONFIG := default_config;
  now := t;
  spotifyCurrentlyPlaying := Return playing;
  lrclibGet := reply;
  discordPatch := Resolved tt
|}.

Definition track_X : Track.t := {|
  Track.id := str "X"; Track.name := str "Song X"; Track.artists := str "Artist";
  Track.duration := 4000; Track.progress := 0; Track.isPlaying := true
|}.

Definition track_Y : Track.t := {|
  Track.id := str "Y"; Track.name := str "Song Y"; Track.artists := str "Artist";
  Track.duration := 4000; Track.progress := 0; Track.isPlaying := true
|}.

(** Track X, paused. *)
Definition track_X_paused : Track.t := {|
  Track.id := str "X"; Track.name := str "Song X"; Track.artists := str "Artist";
  Track.duration := 4000; Track.progress := 2000; Track.isPlaying := false
|}.


(** The orchestrator after one cycle at clock 5000 on track X, for which
    LRCLIB has nothing: the listening status of X went out at 5000. *)
Definition after_X : SpotifyDiscordBot.t :=
  snd (SpotifyDiscordBot.poll (cycle 5000 (Some track_X) (Rejected (HttpStatus 404)))
         (SpotifyDiscordBot.new default_config)).

(** ** Resolution of lyrics *)

(** LRCLIB reports the track as instrumental. *)
Definition instrumental_reply : Reply (option Lrclib.data) :=
  Resolved (Some {| Lrclib.instrumental := true;
                    Lrclib.syncedLyrics := None;
                    Lrclib.plainLyrics := None |}).

(** LRCLIB does not know the track. *)
Definition not_found_reply : Reply (option Lrclib.data) := Rejected (HttpStatus 404).

(** LRCLIB has plain lyrics only. *)
Definition plain_reply (plainLyrics : jsstring) : Reply (option Lrclib.data) :=
  Resolved (Some {| Lrclib.instrumental := false;
                    Lrclib.syncedLyrics := None;
                    Lrclib.plainLyrics := Some plainLyrics |}).

(** What the resolution called by the orchestrator returns for a track
    under an answer of LRCLIB. *)
Definition resolved (track : Track.t) (reply : Reply (option Lrclib.data))
    : Result (option (list LyricLine)) :=
  fst (LyricsService.fetchAndParseLyrics (Track.name track) (Track.artists track)
         (Track.duration track) (cycle 0 (Some track) reply) LyricsService.new).

(** The resolution tells an instrumental track from a track that was
    not found, and so does the state the cycle ends in. *)
Definition instrumental_distinguished (t : Z) (track : Track.t)
    (b : SpotifyDiscordBot.t) : Prop :=
  resolved track instrumental_reply ≠ resolved track not_found_reply
  ∧ SpotifyDiscordBot.poll (cycle t (Some track) instrumental_reply) b
    ≠ SpotifyDiscordBot.poll (cycle t (Some track) not_found_reply) b.

(** Four plain lines, as LRCLIB returns them without timestamps. *)
Definition four_lines : jsstring :=
  str "l1" ++ [10] ++ str "l2" ++ [10] ++ str "l3" ++ [10] ++ str "l4".

(** ** LRC documents *)

(** The tag of minute digits [m1 m2], second digits [s1 s2] and
    centisecond digits [c1 c2], bracketed, with its colon and dot. *)
Definition tag (m1 m2 s1 s2 c1 c2 : Z) : jsstring :=
  [91; m1; m2; 58; s1; s2; 46; c1; c2; 93].

Definition allDigits (ds : list Z) : bool := forallb JS.isDigit ds.

(** The number written by two digit units. *)
Definition twoDigits (d1 d2 : Z) : Z := 10 * (d1 - 48) + (d2 - 48).

Definition offsetMs (m1 m2 s1 s2 c1 c2 : Z) : Z :=
  twoDigits m1 m2 * 60000 + twoDigits s1 s2 * 1000 + twoDigits c1 c2 * 10.

(** [s] begins with a tag. *)
Definition startsWithTag (s : jsstring) : Prop :=
  ∃ m1 m2 s1 s2 c1 c2 rest,
    allDigits [m1; m2; s1; s2; c1; c2] = true
    ∧ s = tag m1 m2 s1 s2 c1 c2 ++ rest.

(** No tag begins anywhere in [line]. *)
Definition tagFree (line : jsstring) : Prop :=
  ∀ before after, line = before ++ after → ¬ startsWithTag after.

(** No tag begins inside [before] when [after] follows it. *)
Definition noTagBefore (before after : jsstring) : Prop :=
  ∀ p r, before = p ++ r → r ≠ [] → ¬ startsWithTag (r ++ after).

Definition noLineTerminator (s : jsstring) : bool :=
  forallb (fun c => negb (JS.isLineTerminator c)) s.

(** [s] is empty or begins with a line terminator. *)
Definition endsLine (s : jsstring) : bool :=
  match s with
  | [] => true
  | c :: _ => JS.isLineTerminator c
  end.

Definition allWhiteSpace (s : jsstring) : bool := forallb JS.isWhiteSpace s.

(** What a line adds to the timeline when its first tag has offset
    [offset] and is followed by [text]: one entry with the trimmed text, or
    nothing when the trimmed text is empty. *)
Definition entryFor (offset : Z) (text : jsstring) : list LyricLine :=
  match JS.trim text with
  | [] => []
  | trimmed => [{| time := offset; lyric := trimmed |}]
  end.

(** The contract of one tagged line: the entry carries the whole text that
    trails the first tag, trimmed. *)
Definition tagged_line_contract (before : jsstring) (m1 m2 s1 s2 c1 c2 : Z)
    (trailing : jsstring) : Prop :=
  ∀ lyrics,
    parseLine lyrics (before ++ tag m1 m2 s1 s2 c1 c2 ++ trailing)
    = lyrics ++ entryFor (offsetMs m1 m2 s1 s2 c1 c2) trailing.

(** Lines put back together with newlines between them. *)
Fixpoint joinLines (lines : list jsstring) : jsstring :=
  match lines with
  | [] => []
  | [l] => l
  | l :: rest => l ++ 10 :: joinLines rest
  end.

(** ** Further vocabulary *)

(** A string as [trim] leaves it. *)
Definition trimmed (s : jsstring) : Prop := JS.trim s = s.

(** What every entry of a parsed timeline satisfies. *)
Definition wellFormedEntry (l : LyricLine) : Prop :=
  lyric l ≠ [] ∧ trimmed (lyric l) ∧ noLineTerminator (lyric l) = true
  ∧ 0 <= time l <= 6039990 ∧ (time l) mod 10 = 0.

(** [rest] is empty or begins with a line that starts after [progressMs]. *)
Definition startsLate (progressMs : Z) (rest : list LyricLine) : Prop :=
  match rest with
  | [] => True
  | l :: _ => progressMs < time l
  end.

(** [canUpdate] called at each clock reading of [times] in turn: the
    readings at which it answered true, and the limiter after the last
    call. *)
Fixpoint grants (times : list Z) (rl : RateLimiter.t) : list Z * RateLimiter.t :=
  match times with
  | [] => ([], rl)
  | t :: rest =>
      match RateLimiter.canUpdate (at_time t) rl with
      | (Return true, rl') => let (gs, rl'') := grants rest rl' in (t :: gs, rl'')
      | (_, rl') => grants rest rl'
      end
  end.

(** Each reading of [gs] is at least [threshold] after the one before it,
    the first after [previous]. *)
Fixpoint spaced (threshold previous : Z) (gs : list Z) : Prop :=
  match gs with
  | [] => True
  | g :: rest => g - previous >= threshold ∧ spaced threshold g rest
  end.

(** The parts of the orchestrator that the gate leaves alone. *)
Definition sameLyricsSide (b b' : SpotifyDiscordBot.t) : Prop :=
  SpotifyDiscordBot.lyrics b' = SpotifyDiscordBot.lyrics b
  ∧ SpotifyDiscordBot.lyricsCache b' = SpotifyDiscordBot.lyricsCache b
  ∧ SpotifyDiscordBot.currentLyrics b' = SpotifyDiscordBot.currentLyrics b
  ∧ SpotifyDiscordBot.currentTrackId b' = SpotifyDiscordBot.currentTrackId b.

(** What one cycle may put on the wire to Discord and do to the rate
    limiter: nothing; or one clear request; or one status request of at most
    128 units, and then only when the interval had passed, the stamp
    becoming the clock reading. The stamp otherwise stays or becomes the
    clock reading when the interval had passed. *)
Definition cycleEffect (env : Env) (b b' : SpotifyDiscordBot.t) : Prop :=
  let rl := SpotifyDiscordBot.rateLimiter b in
  let rl' := SpotifyDiscordBot.rateLimiter b' in
  RateLimiter.threshold rl' = RateLimiter.threshold rl
  ∧ (RateLimiter.lastUpdate rl' = RateLimiter.lastUpdate rl
     ∨ (RateLimiter.lastUpdate rl' = now env
        ∧ now env - RateLimiter.lastUpdate rl >= RateLimiter.threshold rl))
  ∧ (sentBy b' = sentBy b
     ∨ (sentBy b' = sentBy b ++ [PatchClear] ∧ rl' = rl)
     ∨ ∃ text, sentBy b' = sentBy b ++ [PatchStatus text]
               ∧ (length text ≤ 128)%nat
               ∧ RateLimiter.lastUpdate rl' = now env
               ∧ now env - RateLimiter.lastUpdate rl >= RateLimiter.threshold rl).

(** A run of polling cycles, one environment per cycle. *)
Fixpoint pollRun (envs : list Env) (b : SpotifyDiscordBot.t) : SpotifyDiscordBot.t :=
  match envs with
  | [] => b
  | env :: rest => pollRun rest (snd (SpotifyDiscordBot.poll env b))
  end.

(** The cycle run in [env] from [b] put a status request on the wire. *)
Definition sentStatus (env : Env) (b : SpotifyDiscordBot.t) : bool :=
  match skipn (length (sentBy b)) (sentBy (snd (SpotifyDiscordBot.poll env b))) with
  | [PatchStatus _] => true
  | _ => false
  end.

(** The clock readings of the cycles of a run that put a status request
    on the wire. *)
Fixpoint statusTimes (envs : list Env) (b : SpotifyDiscordBot.t) : list Z :=
  match envs with
  | [] => []
  | env :: rest =>
      let times := statusTimes rest (snd (SpotifyDiscordBot.poll env b)) in
      if sentStatus env b then now env :: times else times
  end.

(** The cache holds no entry for the track that a read at the clock of
    [env] would return: none at all, or an expired one. *)
Definition noFreshEntry (env : Env) (c : LyricsCache.t) (track : Track.t) : Prop :=
  match entryOf c (Track.name track) (Track.artists track) with
  | None => True
  | Some e => now env - LyricsCache.timestamp e > LyricsCache.ttl c
  end.

(** LRCLIB answers with synced lyrics [synced] for a track that is not
    instrumental. *)
Definition synced_reply (synced : jsstring) (plain : option jsstring)
    : Reply (option Lrclib.data) :=
  Resolved (Some {| Lrclib.instrumental := false;
                    Lrclib.syncedLyrics := Some synced;
                    Lrclib.plainLyrics := plain |}).

(** The request [fetchLyrics] sends for a track. *)
Definition queryFor (track : Track.t) : Lrclib.query :=
  {| Lrclib.track_name := Track.name track;
     Lrclib.artist_name := JS.trim (hd [] (JS.split 44 (Track.artists track)));
     Lrclib.duration_ms := Track.duration track |}.

(** The LRCLIB requests a state has on its log. *)
Definition askedBy (b : SpotifyDiscordBot.t) : list Lrclib.query :=
  LyricsService.requests (SpotifyDiscordBot.lyrics b).

(** The settings no cycle changes: the readiness of the sink, the time
    to live of the cache. *)
Definition sameSettings (b b' : SpotifyDiscordBot.t) : Prop :=
  DiscordService.ready (SpotifyDiscordBot.discord b')
  = DiscordService.ready (SpotifyDiscordBot.discord b)
  ∧ LyricsCache.ttl (SpotifyDiscordBot.lyricsCache b')
    = LyricsCache.ttl (SpotifyDiscordBot.lyricsCache b).



(** The offset that the even split of [duration] over [n] lines gives
    the line at [index]. *)
Definition offset (duration : Z) (n index : nat) : Z :=
  JS.Math_round
    (JS.mul (inject_Z (Z.of_nat index))
       (JS.div (inject_Z duration) (inject_Z (Z.of_nat n)))).

(** Plain lyrics of twenty-two lines. *)
Definition twenty_two_lines : jsstring := joinLines (repeat (str "la") 22).

(** No comma among the code units. *)
Definition commaFree (s : jsstring) : bool :=
  forallb (fun c => negb (c =? 44)) s.

(** The token of the service is missing, empty or past its expiry at the
    clock of [e]. *)
Definition refreshDue (e : SpotifyService.env) (s : SpotifyService.t) : bool :=
  negb (JS.truthy (SpotifyService.accessToken s))
  || (SpotifyService.clock e >=? default 0 (SpotifyService.tokenExpiry s)).

(** A sequence of [getCurrentlyPlaying] calls, one environment per call. *)
Fixpoint calls (es : list SpotifyService.env) (s : SpotifyService.t)
    : SpotifyService.t :=
  match es with
  | [] => s
  | e :: rest => calls rest (snd (SpotifyService.getCurrentlyPlaying e s))
  end.

(** A track by two artists, playing. *)
Definition duet_item : SpotifyService.item :=
  {| SpotifyService.item_id := str "id1";
     SpotifyService.item_name := str "Song";
     SpotifyService.artist_names := [str "First Artist"; str "Second, Artist"];
     SpotifyService.duration_ms := 200000 |}.

Definition spotify_at (clock : Z) (token : Reply SpotifyService.tokenData)
    (player : Reply (option SpotifyService.playerData)) : SpotifyService.env :=
  {| SpotifyService.clock := clock;
     SpotifyService.tokenPost := token;
     SpotifyService.playerGet := player |}.

Definition duet_playing : Reply (option SpotifyService.playerData) :=
  Resolved (Some {| SpotifyService.playing_item := Some duet_item;
                    SpotifyService.progress_ms := 1000;
                    SpotifyService.is_playing := true |}).

Definition hour_token : Reply SpotifyService.tokenData :=
  Resolved {| SpotifyService.access_token := str "tok";
              SpotifyService.expires_in := 3600 |}.

(** * Proofs *)

(** ** Lyric timeline lookup *)

Lemma nonDecreasing_tail a rest :
  nonDecreasing (a :: rest) = true → nonDecreasing rest = true.
Proof.
  destruct rest as [|b rest]; [reflexivity|].
  cbn [nonDecreasing]. intros H. apply andb_true_iff in H. tauto.
Qed.

Lemma nonDecreasing_head rest :
  ∀ a, nonDecreasing (a :: rest) = true → ∀ l, l ∈ rest → time a <= time l.
Proof.
  induction rest as [|b rest IH]; intros a Hs l Hl.
  - inversion Hl.
  - cbn [nonDecreasing] in Hs. apply andb_true_iff in Hs as [Hab Hrest].
    apply Z.leb_le in Hab.
    apply elem_of_cons in Hl as [->|Hl]; [exact Hab|].
    specialize (IH b Hrest l Hl). lia.
Qed.

(** The loop leaves its accumulator alone when every line starts late. *)
Lemma lyricScan_all_late lyrics p acc :
  (∀ l, l ∈ lyrics → p < time l) → lyricScan lyrics p acc = acc.
Proof.
  destruct lyrics as [|l0 rest]; [reflexivity|].
  intros H. cbn [lyricScan].
  assert (p < time l0) by (apply H; left).
  destruct (Z.leb_spec (time l0) p); [lia|reflexivity].
Qed.

Lemma lyricScan_last lyrics :
  nonDecreasing lyrics = true →
  ∀ p acc l, isLastLineAt lyrics p l → lyricScan lyrics p acc = Some (lyric l).
Proof.
  induction lyrics as [|l0 rest IH]; intros Hs p acc l (i & Hi & Hle & Hafter).
  - rewrite lookup_nil in Hi. discriminate.
  - assert (Hl0 : time l0 <= p).
    { destruct i as [|i]; cbn in Hi.
      - congruence.
      - pose proof (nonDecreasing_head rest l0 Hs l) as Hh.
        assert (l ∈ rest) by (eapply list_elem_of_lookup_2; eauto).
        specialize (Hh ltac:(assumption)). lia. }
    cbn [lyricScan]. destruct (Z.leb_spec (time l0) p) as [_|?]; [|lia].
    destruct i as [|i]; cbn in Hi.
    + injection Hi as ->. apply lyricScan_all_late.
      intros l' Hl'. apply list_elem_of_lookup_1 in Hl' as [j Hj].
      apply (Hafter (S j) l'); [lia|exact Hj].
    + apply IH; [eapply nonDecreasing_tail; eauto|].
      exists i. split; [exact Hi|]. split; [exact Hle|].
      intros j l' Hij Hj. apply (Hafter (S j) l'); [lia|exact Hj].
Qed.

(** C3: on every timeline whose offsets never decrease in document order,
    and for every progress value, [getLyricAtProgress] returns the text of
    the last line whose offset is at most the progress (so the later of two
    lines at one offset), and null when no line qualifies; it returns null
    on a null or empty timeline; on the timeline (0,a) (5500,b) (10250,c) it
    returns null below 0, a on [0,5500), b on [5500,10250) and c from 10250
    on; of two lines at 1000 ms it returns the second at 1000 ms. *)
Theorem getLyricAtProgress_nonDecreasing :
  (∀ lyrics progressMs,
     nonDecreasing lyrics = true → LineAt_contract lyrics progressMs)
  ∧ (∀ progressMs,
       getLyricAtProgress None progressMs = None
       ∧ getLyricAtProgress (Some []) progressMs = None)
  ∧ (∀ t,
       (t < 0 → getLyricAtProgress (Some abc_timeline) t = None)
       ∧ (0 <= t < 5500 → getLyricAtProgress (Some abc_timeline) t = Some (str "a"))
       ∧ (5500 <= t < 10250 → getLyricAtProgress (Some abc_timeline) t = Some (str "b"))
       ∧ (10250 <= t → getLyricAtProgress (Some abc_timeline) t = Some (str "c")))
  ∧ getLyricAtProgress
      (Some [ {| time := 1000; lyric := str "first" |};
              {| time := 1000; lyric := str "second" |} ]) 1000
    = Some (str "second").
Proof.
  split; [|split; [|split; [|reflexivity]]].
  - intros lyrics p Hs. split.
    + intros l Hl. destruct lyrics as [|l0 rest].
      * destruct Hl as (i & Hi & _). rewrite lookup_nil in Hi. discriminate.
      * cbn [getLyricAtProgress]. now apply lyricScan_last.
    + intros Hlate. destruct lyrics as [|l0 rest]; [reflexivity|].
      cbn [getLyricAtProgress]. now apply lyricScan_all_late.
  - intros p. split; reflexivity.
  - intros t. unfold abc_timeline, getLyricAtProgress, lyricScan. cbn [time lyric].
    repeat split; intros H;
      repeat match goal with
             | |- context [?a <=? ?b] => destruct (Z.leb_spec a b); try lia
             end; reflexivity.
Qed.

Lemma getLyricAtProgress_nonDecreasing_witness :
  nonDecreasing abc_timeline = true
  ∧ getLyricAtProgress (Some abc_timeline) 6000 = Some (str "b")
  ∧ getLyricAtProgress (Some abc_timeline) (-1) = None.
Proof.
  destruct getLyricAtProgress_nonDecreasing as (Hgen & _ & Hex & _).
  split; [reflexivity|]. split.
  - apply (proj1 (Hgen abc_timeline 6000 eq_refl) {| time := 5500; lyric := str "b" |}).
    exists 1%nat. split; [reflexivity|]. split; [cbn; lia|].
    intros j l' Hj Hl'. destruct j as [|[|[|j]]]; try lia; cbn in Hl'.
    + injection Hl' as <-. cbn. lia.
    + discriminate.
  - apply (proj1 (Hex (-1))). lia.
Defined.

(** C3, as stated for every timeline, fails on a timeline that is out of
    order: the last line at or before 7000 ms is y (at 5000 ms), but the
    loop stops at the first line (10000 ms) and returns null. *)
Lemma getLyricAtProgress_unordered_counterexample :
  unordered_timeline =
    [ {| time := 10000; lyric := str "x" |}; {| time := 5000; lyric := str "y" |} ]
  ∧ getLyricAtProgress (Some unordered_timeline) 7000 = None
  ∧ ¬ LineAt_contract unordered_timeline 7000.
Proof.
  split; [reflexivity|]. split; [reflexivity|].
  intros [Hlast _].
  specialize (Hlast {| time := 5000; lyric := str "y" |}).
  assert (H : getLyricAtProgress (Some unordered_timeline) 7000 = Some (str "y")).
  { apply Hlast. exists 1%nat. split; [reflexivity|]. split; [cbn; lia|].
    intros j l' Hj Hl'. destruct j as [|[|j]]; try lia.
    vm_compute in Hl'. discriminate. }
  vm_compute in H. discriminate.
Qed.

(** ** Truncation *)

Lemma substring_from_0 (s : jsstring) (n : Z) :
  0 <= n → JS.substring s 0 n = firstn (Z.to_nat n) s.
Proof.
  intros Hn. unfold JS.substring, JS.clamp.
  replace (Z.max 0 (Z.min 0 (Z.of_nat (length s)))) with 0 by lia.
  destruct (Z.le_gt_cases n (Z.of_nat (length s))) as [Hin|Hout].
  - replace (Z.max 0 (Z.min n (Z.of_nat (length s)))) with n by lia.
    replace (Z.min 0 n) with 0 by lia. replace (Z.max 0 n) with n by lia.
    change (Z.to_nat 0) with 0%nat. cbn [skipn]. now rewrite Z.sub_0_r.
  - replace (Z.max 0 (Z.min n (Z.of_nat (length s)))) with (Z.of_nat (length s)) by lia.
    replace (Z.min 0 (Z.of_nat (length s))) with 0 by lia.
    replace (Z.max 0 (Z.of_nat (length s))) with (Z.of_nat (length s)) by lia.
    change (Z.to_nat 0) with 0%nat. rewrite skipn_O.
    rewrite !firstn_all2; [reflexivity|lia|lia].
Qed.

Lemma truncateLyric_long (lyric prefix : jsstring) :
  (length prefix ≤ 125)%nat → (128 < length prefix + length lyric)%nat →
  truncateLyric lyric prefix
  = prefix ++ firstn (125 - length prefix) lyric ++ str "...".
Proof.
  intros Hp Hlong. unfold truncateLyric.
  destruct (Z.gtb_spec (Z.of_nat (length lyric)) (128 - Z.of_nat (length prefix)));
    [|lia].
  rewrite substring_from_0 by lia.
  do 3 f_equal. lia.
Qed.

Lemma truncateLyric_short (lyric prefix : jsstring) :
  (length prefix + length lyric ≤ 128)%nat →
  truncateLyric lyric prefix = prefix ++ lyric.
Proof.
  intros Hshort. unfold truncateLyric.
  destruct (Z.gtb_spec (Z.of_nat (length lyric)) (128 - Z.of_nat (length prefix)));
    [lia|reflexivity].
Qed.

(** C8: for every lyric and every marker of at most 125 units,
    [truncateLyric] never returns more than 128 units; when marker and
    lyric together exceed 128 units the result is exactly 128 units long:
    the marker, the first [125 - marker length] units of the lyric and
    three dots in place of the rest; otherwise it is the marker followed by
    the whole lyric. A 140-unit lyric with the 2-unit note marker gives 128
    units ending in the dots. *)
Theorem truncateLyric_within_128 :
  (∀ lyric prefix : jsstring,
     (length prefix ≤ 125)%nat →
     truncation_contract lyric prefix
     ∧ ((128 < length prefix + length lyric)%nat →
        truncateLyric lyric prefix
        = prefix ++ firstn (125 - length prefix) lyric ++ str "...")
     ∧ ((length prefix + length lyric ≤ 128)%nat →
        truncateLyric lyric prefix = prefix ++ lyric))
  ∧ (∀ lyric : jsstring,
       length lyric = 140%nat →
       length (truncateLyric lyric SpotifyDiscordBot.note) = 128%nat
       ∧ truncateLyric lyric SpotifyDiscordBot.note
         = SpotifyDiscordBot.note ++ firstn 123 lyric ++ str "...").
Proof.
  split.
  - intros lyric prefix Hp. split; [|split].
    + unfold truncation_contract. cbv zeta.
      destruct (Nat.le_gt_cases (length prefix + length lyric) 128) as [Hs|Hl].
      * rewrite truncateLyric_short by exact Hs.
        rewrite length_app. split; [lia|]. intros; lia.
      * rewrite truncateLyric_long by (exact Hp || exact Hl).
        assert (Hlen : length (prefix ++ firstn (125 - length prefix) lyric ++ str "...")
                       = 128%nat).
        { rewrite !length_app, length_firstn. cbn [str length map]. cbn. lia. }
        split; [lia|]. intros _. split; [exact Hlen|].
        exists (firstn (125 - length prefix) lyric),
               (skipn (125 - length prefix) lyric).
        split; [now rewrite firstn_skipn|reflexivity].
    + now apply truncateLyric_long.
    + now apply truncateLyric_short.
  - intros lyric Hlen.
    assert (H : truncateLyric lyric SpotifyDiscordBot.note
                = SpotifyDiscordBot.note ++ firstn 123 lyric ++ str "...").
    { rewrite truncateLyric_long; cbn [SpotifyDiscordBot.note length]; [reflexivity|lia|lia]. }
    split; [|exact H].
    rewrite H, !length_app, length_firstn, Hlen. reflexivity.
Qed.

Lemma truncateLyric_within_128_witness :
  truncation_contract (repeat 97 140) SpotifyDiscordBot.note
  ∧ length (truncateLyric (repeat 97 140) SpotifyDiscordBot.note) = 128%nat.
Proof.
  split.
  - apply (proj1 truncateLyric_within_128 (repeat 97 140) SpotifyDiscordBot.note).
    cbn. lia.
  - apply (proj2 truncateLyric_within_128 (repeat 97 140)). reflexivity.
Defined.

(** C8, as stated for every marker, fails for a marker longer than 125
    units: with a 126-unit marker the 3-unit lyric [abc] is cut to nothing
    and the result, marker plus three dots, is 129 units long. *)
Lemma truncateLyric_long_marker_counterexample :
  length (truncateLyric (str "abc") (repeat 98 126)) = 129%nat
  ∧ ¬ truncation_contract (str "abc") (repeat 98 126).
Proof.
  split; [reflexivity|].
  intros [Hle _]. vm_compute in Hle. lia.
Qed.

(** ** Cache keys *)








(** ** Cache reads *)

Lemma LyricsCache_get_missing env c trackName artistName :
  entryOf c trackName artistName = None →
  LyricsCache.get trackName artistName env c = (Return None, c).
Proof.
  unfold entryOf, LyricsCache.get, bind, gets, ret. intros ->. reflexivity.
Qed.

Lemma LyricsCache_get_expired env c trackName artistName e :
  entryOf c trackName artistName = Some e →
  now env - LyricsCache.timestamp e > LyricsCache.ttl c →
  LyricsCache.get trackName artistName env c
  = (Return None,
     {| LyricsCache.cache :=
          delete (LyricsCache.generateKey trackName artistName) (LyricsCache.cache c);
        LyricsCache.ttl := LyricsCache.ttl c |}).
Proof.
  unfold entryOf, LyricsCache.get, bind, gets, ret, Date_now, modify.
  intros -> Hexp.
  destruct (Z.gtb_spec (now env - LyricsCache.timestamp e) (LyricsCache.ttl c));
    [reflexivity|lia].
Qed.

Lemma LyricsCache_get_fresh env c trackName artistName e :
  entryOf c trackName artistName = Some e →
  now env - LyricsCache.timestamp e <= LyricsCache.ttl c →
  LyricsCache.get trackName artistName env c
  = (Return (Some (LyricsCache.lyrics e)), c).
Proof.
  unfold entryOf, LyricsCache.get, bind, gets, ret, Date_now, modify.
  intros -> Hfresh.
  destruct (Z.gtb_spec (now env - LyricsCache.timestamp e) (LyricsCache.ttl c));
    [lia|reflexivity].
Qed.

Lemma LyricsCache_set_run env c trackName artistName lyrics :
  LyricsCache.set trackName artistName lyrics env c
  = (Return tt,
     {| LyricsCache.cache :=
          <[LyricsCache.generateKey trackName artistName :=
              {| LyricsCache.lyrics := lyrics; LyricsCache.timestamp := now env |}]>
            (LyricsCache.cache c);
        LyricsCache.ttl := LyricsCache.ttl c |}).
Proof. reflexivity. Qed.

(** C9: [get] reports an entry absent exactly when no entry is stored
    under the key or [now - timestamp > ttl]; the constructor's default
    [ttl] is 600000 ms; a read that finds the entry expired deletes it, so
    the key is gone and [size()] is one less; a read with
    [now - timestamp <= ttl] returns the stored lyrics and leaves the cache
    as it was. For an entry set at 0 under the default [ttl], a read at
    600001 returns null and [size()] drops by one, and a read at any [t]
    up to 600000 returns the lyrics that were set. *)
Theorem LyricsCache_get_ttl :
  (∀ env c trackName artistName,
     reportsAbsent env c trackName artistName
     ↔ (entryOf c trackName artistName = None
        ∨ ∃ e, entryOf c trackName artistName = Some e
               ∧ now env - LyricsCache.timestamp e > LyricsCache.ttl c))
  ∧ LyricsCache.ttl (LyricsCache.new LyricsCache.default_ttl) = 600000
  ∧ (∀ env c trackName artistName e,
       entryOf c trackName artistName = Some e →
       now env - LyricsCache.timestamp e > LyricsCache.ttl c →
       let c' := snd (LyricsCache.get trackName artistName env c) in
       fst (LyricsCache.get trackName artistName env c) = Return None
       ∧ entryOf c' trackName artistName = None
       ∧ S (cacheSize env c') = cacheSize env c)
  ∧ (∀ env c trackName artistName e,
       entryOf c trackName artistName = Some e →
       now env - LyricsCache.timestamp e <= LyricsCache.ttl c →
       LyricsCache.get trackName artistName env c
       = (Return (Some (LyricsCache.lyrics e)), c))
  ∧ (∀ c trackName artistName lyrics,
       LyricsCache.ttl c = 600000 →
       let stored := snd (LyricsCache.set trackName artistName lyrics (at_time 0) c) in
       let late := LyricsCache.get trackName artistName (at_time 600001) stored in
       fst late = Return None
       ∧ S (cacheSize (at_time 600001) (snd late)) = cacheSize (at_time 600001) stored
       ∧ ∀ t, t - 0 <= 600000 →
              LyricsCache.get trackName artistName (at_time t) stored
              = (Return (Some lyrics), stored)).
Proof.
  assert (Hexpired : ∀ env c trackName artistName e,
             entryOf c trackName artistName = Some e →
             now env - LyricsCache.timestamp e > LyricsCache.ttl c →
             let c' := snd (LyricsCache.get trackName artistName env c) in
             fst (LyricsCache.get trackName artistName env c) = Return None
             ∧ entryOf c' trackName artistName = None
             ∧ S (cacheSize env c') = cacheSize env c).
  { intros env c tn an e He Hexp. cbv zeta.
    rewrite (LyricsCache_get_expired env c tn an e He Hexp). cbn [fst snd].
    split; [reflexivity|]. split.
    - unfold entryOf. cbn [LyricsCache.cache]. apply lookup_delete_eq.
    - unfold cacheSize, LyricsCache.size, gets, entryOf in *. cbn [fst LyricsCache.cache].
      rewrite map_size_delete, He.
      assert (size (LyricsCache.cache c) ≠ 0%nat).
      { intros H0. apply map_size_empty_inv in H0. rewrite H0, lookup_empty in He.
        discriminate. }
      cbn. lia. }
  split; [|split; [reflexivity|split; [exact Hexpired|split]]].
  - intros env c tn an. unfold reportsAbsent. split.
    + intros Habs. destruct (entryOf c tn an) as [e|] eqn:He; [right|now left].
      exists e. split; [reflexivity|].
      destruct (Z.le_gt_cases (now env - LyricsCache.timestamp e) (LyricsCache.ttl c))
        as [Hfresh|Hexp]; [|lia].
      rewrite (LyricsCache_get_fresh env c tn an e He Hfresh) in Habs.
      discriminate Habs.
    + intros [Hnone|(e & He & Hexp)].
      * now rewrite LyricsCache_get_missing.
      * now rewrite (LyricsCache_get_expired env c tn an e He Hexp).
  - intros env c tn an e He Hfresh. now apply LyricsCache_get_fresh.
  - intros c tn an lyrics Httl. cbv zeta.
    rewrite LyricsCache_set_run. cbn [snd].
    set (stored := {| LyricsCache.cache := _; LyricsCache.ttl := _ |}).
    assert (He : entryOf stored tn an
                 = Some {| LyricsCache.lyrics := lyrics; LyricsCache.timestamp := 0 |}).
    { unfold entryOf, stored. cbn [LyricsCache.cache]. apply lookup_insert_eq. }
    split; [|split].
    + eapply Hexpired; [exact He|]. cbn. lia.
    + eapply Hexpired; [exact He|]. cbn. lia.
    + intros t Ht.
      rewrite (LyricsCache_get_fresh (at_time t) stored tn an _ He); [reflexivity|].
      cbn. lia.
Qed.

Lemma LyricsCache_get_ttl_witness :
  let stored :=
    snd (LyricsCache.set (str "Hello") (str "Adele") abc_timeline (at_time 0)
           (LyricsCache.new LyricsCache.default_ttl)) in
  fst (LyricsCache.get (str "Hello") (str "Adele") (at_time 600001) stored) = Return None
  ∧ LyricsCache.get (str "hello") (str "ADELE") (at_time 600000) stored
    = (Return (Some abc_timeline), stored).
Proof.
  destruct LyricsCache_get_ttl as (_ & _ & _ & _ & Hex).
  specialize (Hex (LyricsCache.new LyricsCache.default_ttl)
                  (str "Hello") (str "Adele") abc_timeline eq_refl).
  cbv zeta in Hex. destruct Hex as (Hlate & _ & Hfresh).
  split; [exact Hlate|].
  apply (Hfresh 600000). lia.
Defined.

(** ** Status sink *)

Lemma substring_0_128 (s : jsstring) : JS.substring s 0 128 = firstn 128 s.
Proof. now rewrite substring_from_0 by lia. Qed.

Lemma setLyricStatus_same env d lyric :
  DiscordService.lastStatus d = Some (firstn 128 lyric) →
  DiscordService.setLyricStatus lyric env d = (Return tt, d).
Proof.
  intros Hsame.
  unfold DiscordService.setLyricStatus, tryCatch, bind, gets, ret.
  rewrite substring_0_128, Hsame.
  now rewrite bool_decide_eq_true_2.
Qed.

Lemma setLyricStatus_new env d lyric :
  DiscordService.lastStatus d ≠ Some (firstn 128 lyric) →
  DiscordService.setLyricStatus lyric env d
  = match discordPatch env with
    | Resolved _ =>
        (Return tt,
         {| DiscordService.lastStatus := Some (firstn 128 lyric);
            DiscordService.ready := DiscordService.ready d;
            DiscordService.patches :=
              DiscordService.patches d ++ [PatchStatus (firstn 128 lyric)] |})
    | Rejected e =>
        (Throw (AxiosFailure e),
         {| DiscordService.lastStatus := DiscordService.lastStatus d;
            DiscordService.ready := DiscordService.ready d;
            DiscordService.patches :=
              DiscordService.patches d ++ [PatchStatus (firstn 128 lyric)] |})
    end.
Proof.
  intros Hnew.
  unfold DiscordService.setLyricStatus, tryCatch, bind, gets, ret, throw, modify,
    DiscordService.axios_patch, DiscordService.setLastStatus.
  rewrite substring_0_128.
  rewrite bool_decide_eq_false_2 by (intros E; apply Hnew; now rewrite <- E).
  destruct (discordPatch env); reflexivity.
Qed.

Lemma clearStatus_run env d :
  DiscordService.clearStatus env d
  = (Return tt,
     {| DiscordService.lastStatus :=
          match discordPatch env with
          | Resolved _ => None
          | Rejected _ => DiscordService.lastStatus d
          end;
        DiscordService.ready := DiscordService.ready d;
        DiscordService.patches := DiscordService.patches d ++ [PatchClear] |}).
Proof.
  unfold DiscordService.clearStatus, tryCatch, bind, ret, modify,
    DiscordService.axios_patch, DiscordService.setLastStatus.
  destruct (discordPatch env); reflexivity.
Qed.

Lemma runSink_invariant calls :
  ∀ d, Forall within128 (DiscordService.patches d) →
       DiscordService.lastStatus (runSink calls d)
       = lastSent calls (DiscordService.lastStatus d)
       ∧ Forall within128 (DiscordService.patches (runSink calls d)).
Proof.
  induction calls as [|[c reply] rest IH]; intros d Hd; [now split|].
  cbn [runSink].
  assert (Hlen : ∀ text : jsstring, within128 (PatchStatus (firstn 128 text))).
  { intros text. cbn. rewrite length_firstn. lia. }
  destruct c as [text|]; cbn [sinkCall].
  - destruct (decide (DiscordService.lastStatus d = Some (firstn 128 text))) as [Hs|Hn].
    + rewrite setLyricStatus_same by exact Hs. cbn [snd].
      destruct (IH d Hd) as [IH1 IH2]. split; [|exact IH2].
      rewrite IH1, Hs. destruct reply; reflexivity.
    + rewrite setLyricStatus_new by exact Hn. cbn [discord_answers discordPatch].
      destruct reply as [[]|e]; cbn [snd].
      * match goal with |- context [runSink rest ?d'] => destruct (IH d') as [IH1 IH2] end.
        { cbn. apply Forall_app. split; [exact Hd|]. constructor; [apply Hlen|constructor]. }
        split; [|exact IH2]. rewrite IH1. reflexivity.
      * match goal with |- context [runSink rest ?d'] => destruct (IH d') as [IH1 IH2] end.
        { cbn. apply Forall_app. split; [exact Hd|]. constructor; [apply Hlen|constructor]. }
        split; [|exact IH2]. rewrite IH1. reflexivity.
  - rewrite clearStatus_run. cbn [snd discord_answers discordPatch].
    match goal with |- context [runSink rest ?d'] => destruct (IH d') as [IH1 IH2] end.
    { cbn. apply Forall_app. split; [exact Hd|]. constructor; [exact I|constructor]. }
    split; [|exact IH2]. rewrite IH1. cbn [DiscordService.lastStatus lastSent].
    destruct reply as [[]|e]; reflexivity.
Qed.

(** C10: for every input string [setLyricStatus] works on the first 128
    units of it. When that text equals [lastStatus] it returns without any
    request and leaves the service as it was. Otherwise it issues exactly
    one request, carrying that text; [lastStatus] becomes the text when the
    request succeeds, and stays as it was, with the error thrown on, when
    it fails. Over any sequence of calls from a new service, every text on
    the wire has at most 128 units and [lastStatus] is the text of the last
    status that went through (none after a successful clear). *)
Theorem setLyricStatus_truncates_and_diffs :
  (∀ env d lyric,
     let text := firstn 128 lyric in
     let r := DiscordService.setLyricStatus lyric env d in
     (length text ≤ 128)%nat
     ∧ (DiscordService.lastStatus d = Some text → r = (Return tt, d))
     ∧ (DiscordService.lastStatus d ≠ Some text →
        DiscordService.patches (snd r) = DiscordService.patches d ++ [PatchStatus text]
        ∧ match discordPatch env with
          | Resolved _ =>
              fst r = Return tt ∧ DiscordService.lastStatus (snd r) = Some text
          | Rejected e =>
              fst r = Throw (AxiosFailure e)
              ∧ DiscordService.lastStatus (snd r) = DiscordService.lastStatus d
          end))
  ∧ (∀ calls,
       DiscordService.lastStatus (runSink calls DiscordService.new)
       = lastSent calls None
       ∧ Forall within128 (DiscordService.patches (runSink calls DiscordService.new))).
Proof.
  split.
  - intros env d lyric. cbv zeta. split; [rewrite length_firstn; lia|]. split.
    + apply setLyricStatus_same.
    + intros Hnew. rewrite setLyricStatus_new by exact Hnew.
      destruct (discordPatch env); cbn; auto.
  - intros calls. apply (runSink_invariant calls DiscordService.new). constructor.
Qed.

Lemma setLyricStatus_truncates_and_diffs_witness :
  let sent := runSink [(SetText (repeat 97 200), Resolved tt)] DiscordService.new in
  DiscordService.patches sent = [PatchStatus (repeat 97 128)]
  ∧ DiscordService.setLyricStatus (repeat 97 300) (discord_answers (Resolved tt)) sent
    = (Return tt, sent)
  ∧ DiscordService.patches
      (snd (DiscordService.setLyricStatus (str "b") (discord_answers (Rejected (HttpStatus 401)))
              sent))
    = [PatchStatus (repeat 97 128); PatchStatus (str "b")].
Proof.
  cbv zeta. split; [reflexivity|].
  set (sent := runSink [(SetText (repeat 97 200), Resolved tt)] DiscordService.new).
  destruct setLyricStatus_truncates_and_diffs as [Hcall _].
  destruct (Hcall (discord_answers (Resolved tt)) sent (repeat 97 300))
    as (_ & Hsame & _).
  destruct (Hcall (discord_answers (Rejected (HttpStatus 401))) sent (str "b"))
    as (_ & _ & Hnew).
  split.
  - apply Hsame. reflexivity.
  - refine (proj1 (Hnew _)). vm_compute. discriminate.
Defined.

(** ** Update gate *)

Lemma hasChanged_run env (dc : DiffChecker.t) (text : jsstring) :
  DiffChecker.hasChanged text env dc
  = if bool_decide (Some text ≠ DiffChecker.lastLyric dc)
    then (Return true, {| DiffChecker.lastLyric := Some text |})
    else (Return false, dc).
Proof.
  unfold DiffChecker.hasChanged, bind, gets, modify, ret.
  destruct (bool_decide (Some text ≠ DiffChecker.lastLyric dc)); reflexivity.
Qed.

Lemma canUpdate_run env (rl : RateLimiter.t) :
  RateLimiter.canUpdate env rl
  = if now env - RateLimiter.lastUpdate rl >=? RateLimiter.threshold rl
    then (Return true,
          {| RateLimiter.threshold := RateLimiter.threshold rl;
             RateLimiter.lastUpdate := now env |})
    else (Return false, rl).
Proof.
  unfold RateLimiter.canUpdate, bind, gets, modify, ret, Date_now.
  destruct (now env - RateLimiter.lastUpdate rl >=? RateLimiter.threshold rl);
    reflexivity.
Qed.

Lemma setDiffChecker_same (b : SpotifyDiscordBot.t) :
  SpotifyDiscordBot.setDiffChecker (SpotifyDiscordBot.diffChecker b) b = b.
Proof. now destruct b. Qed.

Lemma setRateLimiter_same (b : SpotifyDiscordBot.t) :
  SpotifyDiscordBot.setRateLimiter (SpotifyDiscordBot.rateLimiter b) b = b.
Proof. now destruct b. Qed.

(** A candidate equal to the diff cursor changes nothing. *)
Lemma gate_same_text env b text :
  DiffChecker.lastLyric (SpotifyDiscordBot.diffChecker b) = Some text →
  SpotifyDiscordBot.gate text env b = (Return tt, b).
Proof.
  intros Hsame.
  unfold SpotifyDiscordBot.gate, bind, SpotifyDiscordBot.this_diffChecker, zoom.
  rewrite hasChanged_run, Hsame, bool_decide_eq_false_2 by (intros H; now apply H).
  cbn [negb]. unfold ret. now rewrite setDiffChecker_same.
Qed.

(** A new candidate moves the diff cursor; inside the interval nothing
    else happens. *)
Lemma gate_too_soon env b text :
  DiffChecker.lastLyric (SpotifyDiscordBot.diffChecker b) ≠ Some text →
  now env - RateLimiter.lastUpdate (SpotifyDiscordBot.rateLimiter b)
    < RateLimiter.threshold (SpotifyDiscordBot.rateLimiter b) →
  SpotifyDiscordBot.gate text env b
  = (Return tt,
     SpotifyDiscordBot.setDiffChecker {| DiffChecker.lastLyric := Some text |} b).
Proof.
  intros Hnew Hsoon.
  unfold SpotifyDiscordBot.gate, bind, SpotifyDiscordBot.this_diffChecker,
    SpotifyDiscordBot.this_rateLimiter, zoom.
  rewrite hasChanged_run, bool_decide_eq_true_2 by congruence.
  cbn [negb]. rewrite canUpdate_run. cbn [SpotifyDiscordBot.rateLimiter
    SpotifyDiscordBot.setDiffChecker].
  destruct (Z.geb_spec (now env - RateLimiter.lastUpdate (SpotifyDiscordBot.rateLimiter b))
              (RateLimiter.threshold (SpotifyDiscordBot.rateLimiter b))); [lia|].
  cbn [negb]. unfold ret. now destruct b.
Qed.

(** A new candidate outside the interval moves both cursors and reaches
    the status sink. *)
Lemma gate_passes env b text :
  DiffChecker.lastLyric (SpotifyDiscordBot.diffChecker b) ≠ Some text →
  now env - RateLimiter.lastUpdate (SpotifyDiscordBot.rateLimiter b)
    >= RateLimiter.threshold (SpotifyDiscordBot.rateLimiter b) →
  SpotifyDiscordBot.gate text env b
  = SpotifyDiscordBot.this_discord (DiscordService.setLyricStatus text) env
      (SpotifyDiscordBot.setRateLimiter
         {| RateLimiter.threshold := RateLimiter.threshold (SpotifyDiscordBot.rateLimiter b);
            RateLimiter.lastUpdate := now env |}
         (SpotifyDiscordBot.setDiffChecker {| DiffChecker.lastLyric := Some text |} b)).
Proof.
  intros Hnew Hlate.
  unfold SpotifyDiscordBot.gate, bind, SpotifyDiscordBot.this_diffChecker,
    SpotifyDiscordBot.this_rateLimiter, zoom.
  rewrite hasChanged_run, bool_decide_eq_true_2 by congruence.
  cbn [negb]. rewrite canUpdate_run. cbn [SpotifyDiscordBot.rateLimiter
    SpotifyDiscordBot.setDiffChecker].
  destruct (Z.geb_spec (now env - RateLimiter.lastUpdate (SpotifyDiscordBot.rateLimiter b))
              (RateLimiter.threshold (SpotifyDiscordBot.rateLimiter b))); [|lia].
  reflexivity.
Qed.

(** The state of the scenario once A went out at [t0]. *)
Lemma gate_first_emission t0 (A : jsstring) :
  1000 <= t0 →
  snd (SpotifyDiscordBot.gate A (at_time t0) (SpotifyDiscordBot.new default_config))
  = SpotifyDiscordBot.setDiscord
      {| DiscordService.lastStatus := Some (firstn 128 A);
         DiscordService.ready := true;
         DiscordService.patches := [PatchStatus (firstn 128 A)] |}
      (SpotifyDiscordBot.setRateLimiter
         {| RateLimiter.threshold := 1000; RateLimiter.lastUpdate := t0 |}
         (SpotifyDiscordBot.setDiffChecker {| DiffChecker.lastLyric := Some A |}
            (SpotifyDiscordBot.new default_config))).
Proof.
  intros Ht0.
  rewrite gate_passes by (cbn; (discriminate || lia)).
  unfold SpotifyDiscordBot.this_discord, zoom.
  rewrite setLyricStatus_new by (cbn; discriminate).
  reflexivity.
Qed.

(** C4: for candidates A, A, B, B (A and B distinct) offered at [t0],
    [t0 + 100], [t0 + 200] and [t0 + 1000], with a threshold of 1000 ms, a
    new gate and a clock that reads at least 1000 at [t0]: exactly one
    status goes out, A at [t0]; the second A is stopped by the diff check;
    the first B passes the diff check, which stores it, and is stopped by
    the interval check; the second B is stopped by the diff check although
    the interval check would answer true. *)
Theorem gate_diff_then_rate :
  ∀ (t0 : Z) (A B : jsstring), 1000 <= t0 → A ≠ B → gate_scenario t0 A B.
Proof.
  intros t0 A B Ht0 HAB. unfold gate_scenario, gateAfter. cbv zeta. cbn [nth].
  rewrite (gate_first_emission t0 A Ht0).
  set (b1 := SpotifyDiscordBot.setDiscord _ _).
  assert (H2 : snd (SpotifyDiscordBot.gate A (at_time (t0 + 100)) b1) = b1).
  { now rewrite gate_same_text. }
  rewrite H2.
  assert (H3 : snd (SpotifyDiscordBot.gate B (at_time (t0 + 200)) b1)
               = SpotifyDiscordBot.setDiffChecker {| DiffChecker.lastLyric := Some B |} b1).
  { rewrite gate_too_soon; [reflexivity| |cbn; lia]. cbn. congruence. }
  rewrite H3.
  set (b3 := SpotifyDiscordBot.setDiffChecker _ b1).
  assert (H4 : snd (SpotifyDiscordBot.gate B (at_time (t0 + 1000)) b3) = b3).
  { now rewrite gate_same_text. }
  rewrite H4.
  unfold diffAnswer, intervalAnswer, sentBy.
  rewrite !hasChanged_run, !canUpdate_run.
  cbn [b1 b3 SpotifyDiscordBot.diffChecker SpotifyDiscordBot.rateLimiter
       SpotifyDiscordBot.discord SpotifyDiscordBot.setDiscord
       SpotifyDiscordBot.setRateLimiter SpotifyDiscordBot.setDiffChecker
       DiffChecker.lastLyric RateLimiter.lastUpdate RateLimiter.threshold
       DiscordService.patches at_time now].
  rewrite (bool_decide_eq_false_2 (Some A ≠ Some A)) by (intros H; now apply H).
  rewrite (bool_decide_eq_false_2 (Some B ≠ Some B)) by (intros H; now apply H).
  rewrite (bool_decide_eq_true_2 (Some B ≠ Some A)) by congruence.
  destruct (Z.geb_spec (t0 + 200 - t0) 1000); [lia|].
  destruct (Z.geb_spec (t0 + 1000 - t0) 1000); [|lia].
  repeat split.
Qed.

Lemma gate_diff_then_rate_witness :
  gate_scenario 1700000000000 (str "A") (str "B").
Proof.
  apply gate_diff_then_rate; [lia|discriminate].
Defined.

(** C4, read with the clock at 0 for the first candidate, fails: a new
    gate has its interval cursor at 0, so at clock 0 the interval check
    answers false (0 - 0 < 1000) and A does not go out; no status goes out
    in the whole sequence. *)
Lemma gate_clock_zero_counterexample :
  intervalAnswer 0 (SpotifyDiscordBot.new default_config) = Return false
  ∧ sentBy (gateAfter 0 (str "A") (str "B") 1) = []
  ∧ sentBy (gateAfter 0 (str "A") (str "B") 4) = []
  ∧ ¬ gate_scenario 0 (str "A") (str "B").
Proof.
  split; [reflexivity|]. split; [reflexivity|]. split; [reflexivity|].
  intros [Hsent _]. vm_compute in Hsent. discriminate.
Qed.

(** ** Polling cycle *)

(** ** Polling cycle: what a method leaves alone *)

Lemma preserves_ret {S A} (R : S → S → Prop) `{!Reflexive R} (a : A) :
  preserves R (ret a).
Proof. intros env s. cbn. reflexivity. Qed.

Lemma preserves_throw {S A} (R : S → S → Prop) `{!Reflexive R} (e : JsError) :
  preserves R (throw (A := A) e).
Proof. intros env s. cbn. reflexivity. Qed.

Lemma preserves_gets {S A} (R : S → S → Prop) `{!Reflexive R} (f : S → A) :
  preserves R (gets f).
Proof. intros env s. cbn. reflexivity. Qed.

Lemma preserves_readConfig {S} (R : S → S → Prop) `{!Reflexive R} :
  preserves R (readConfig (S := S)).
Proof. intros env s. cbn. reflexivity. Qed.

Lemma preserves_modify {S} (R : S → S → Prop) (f : S → S) :
  (∀ s, R s (f s)) → preserves R (modify f).
Proof. intros Hf env s. apply Hf. Qed.

Lemma preserves_bind {S A B} (R : S → S → Prop) `{!Transitive R}
    (m : M S A) (k : A → M S B) :
  preserves R m → (∀ a, preserves R (k a)) → preserves R (bind m k).
Proof.
  intros Hm Hk env s. unfold bind. specialize (Hm env s).
  destruct (m env s) as [[a|e] s']; cbn in *; [|exact Hm].
  transitivity s'; [exact Hm|apply Hk].
Qed.

Lemma preserves_tryCatch {S A} (R : S → S → Prop) `{!Transitive R}
    (body : M S A) (handler : JsError → M S A) :
  preserves R body → (∀ e, preserves R (handler e)) →
  preserves R (tryCatch body handler).
Proof.
  intros Hb Hh env s. unfold tryCatch. specialize (Hb env s).
  destruct (body env s) as [[a|e] s']; cbn in *; [exact Hb|].
  transitivity s'; [exact Hb|apply Hh].
Qed.

Lemma preserves_zoom {S T A} (R : S → S → Prop) (proj : S → T) (upd : T → S → S)
    (m : M T A) :
  (∀ t s, R s (upd t s)) → preserves R (zoom proj upd m).
Proof.
  intros Hupd env s. unfold zoom. destruct (m env (proj s)) as [r t']. apply Hupd.
Qed.

Lemma neverThrows_tryCatch {S A} (body : M S A) (handler : JsError → M S A) :
  (∀ e, neverThrows (handler e)) → neverThrows (tryCatch body handler).
Proof.
  intros Hh env s. unfold tryCatch.
  destruct (body env s) as [[a|e] s']; [now exists a|apply Hh].
Qed.

Lemma neverThrows_modify {S} (f : S → S) : neverThrows (modify f).
Proof. intros env s. now exists tt. Qed.

Lemma neverThrows_ret {S A} (a : A) : neverThrows (ret (S := S) a).
Proof. intros env s. now exists a. Qed.

#[local] Instance sameGateAndSink_refl : Reflexive sameGateAndSink.
Proof. intros b. now repeat split. Qed.

#[local] Instance sameGateAndSink_trans : Transitive sameGateAndSink.
Proof.
  intros b1 b2 b3 (H1 & H2 & H3 & H4) (K1 & K2 & K3 & K4).
  repeat split; congruence.
Qed.

Ltac preserves_step :=
  first
    [ apply preserves_ret; typeclasses eauto
    | apply preserves_readConfig; typeclasses eauto
    | apply preserves_gets; typeclasses eauto
    | apply preserves_modify; intros ?; now repeat split
    | apply preserves_zoom; intros ? ?; now repeat split
    | apply preserves_bind; [typeclasses eauto| |intros ?]
    | apply preserves_tryCatch; [typeclasses eauto| |intros ?]
    | match goal with
      | |- preserves _ (match ?x with _ => _ end) => destruct x
      end ].

Lemma fetchAndCacheLyrics_frame env b track :
  ∃ b', SpotifyDiscordBot.fetchAndCacheLyrics track env b = (Return tt, b')
        ∧ sameGateAndSink b b'.
Proof.
  assert (Hp : preserves sameGateAndSink (SpotifyDiscordBot.fetchAndCacheLyrics track)).
  { unfold SpotifyDiscordBot.fetchAndCacheLyrics, SpotifyDiscordBot.cacheLookup,
      SpotifyDiscordBot.this_lyricsCache, SpotifyDiscordBot.this_lyrics.
    repeat preserves_step. }
  assert (Hn : neverThrows (SpotifyDiscordBot.fetchAndCacheLyrics track)).
  { apply neverThrows_tryCatch. intros e. apply neverThrows_modify. }
  specialize (Hp env b). destruct (Hn env b) as [[] Hr].
  destruct (SpotifyDiscordBot.fetchAndCacheLyrics track env b) as [r b'].
  cbn in *. subst r. now exists b'.
Qed.

(** ** Polling cycle: track change and end of playback *)

Lemma setDiscord_same (b : SpotifyDiscordBot.t) :
  SpotifyDiscordBot.setDiscord (SpotifyDiscordBot.discord b) b = b.
Proof. now destruct b. Qed.

Lemma onTrackChange_run env b track :
  ∃ b', SpotifyDiscordBot.onTrackChange track env b = (Return tt, b')
        ∧ SpotifyDiscordBot.diffChecker b' = DiffChecker.new
        ∧ SpotifyDiscordBot.rateLimiter b' = SpotifyDiscordBot.rateLimiter b
        ∧ SpotifyDiscordBot.discord b' = SpotifyDiscordBot.discord b
        ∧ SpotifyDiscordBot.currentTrackId b' = Some (Track.id track).
Proof.
  unfold SpotifyDiscordBot.onTrackChange, SpotifyDiscordBot.this_diffChecker,
    DiffChecker.reset, bind, modify, zoom. cbn beta iota.
  match goal with
  | |- context [SpotifyDiscordBot.fetchAndCacheLyrics track env ?b0] =>
      destruct (fetchAndCacheLyrics_frame env b0 track) as (b' & Hrun & H1 & H2 & H3 & H4)
  end.
  exists b'. split; [exact Hrun|]. cbn in H1, H2, H3, H4. auto.
Qed.

Lemma onNoPlayback_run env b id :
  SpotifyDiscordBot.currentTrackId b = Some id →
  ∃ b', SpotifyDiscordBot.onNoPlayback env b = (Return tt, b')
        ∧ SpotifyDiscordBot.currentTrackId b' = None
        ∧ SpotifyDiscordBot.currentLyrics b' = None
        ∧ SpotifyDiscordBot.diffChecker b' = DiffChecker.new
        ∧ SpotifyDiscordBot.rateLimiter b' = SpotifyDiscordBot.rateLimiter b
        ∧ sentBy b' = sentBy b ++ [PatchClear].
Proof.
  intros Hid.
  unfold SpotifyDiscordBot.onNoPlayback, SpotifyDiscordBot.this_diffChecker,
    SpotifyDiscordBot.this_discord, DiffChecker.reset, bind, gets, modify, zoom.
  rewrite Hid, clearStatus_run. cbn beta iota.
  eexists. split; [reflexivity|]. now repeat split.
Qed.

Lemma getCurrentLyric_run env b progressMs :
  SpotifyDiscordBot.getCurrentLyric progressMs env b
  = (Return (getLyricAtProgress (SpotifyDiscordBot.currentLyrics b) progressMs), b).
Proof.
  unfold SpotifyDiscordBot.getCurrentLyric, bind, gets, ret.
  now destruct (SpotifyDiscordBot.currentLyrics b) as [[|l ls]|].
Qed.

(** Preparing the status text reads the state and leaves it as it is. *)
Lemma prepareStatusText_run env b track :
  ∃ text, SpotifyDiscordBot.prepareStatusText track env b = (Return text, b).
Proof.
  unfold SpotifyDiscordBot.prepareStatusText, bind, readConfig, gets.
  rewrite getCurrentLyric_run.
  destruct (JS.truthy _); [eexists; reflexivity|].
  destruct (SpotifyDiscordBot.currentLyrics b) as [[|l ls]|]; eexists; reflexivity.
Qed.

(** Without lyrics the status is the listening fallback. *)
Lemma prepareStatusText_no_lyrics env b track :
  SpotifyDiscordBot.currentLyrics b = None →
  SpotifyDiscordBot.prepareStatusText track env b
  = (Return (SpotifyDiscordBot.notes ++ str "Listening to " ++ Track.name track), b).
Proof.
  intros Hnone.
  unfold SpotifyDiscordBot.prepareStatusText, bind, readConfig, gets.
  rewrite getCurrentLyric_run, Hnone. reflexivity.
Qed.

(** One cycle on a new track, step by step. *)
Lemma poll_track_change env b track :
  DiscordService.ready (SpotifyDiscordBot.discord b) = true →
  spotifyCurrentlyPlaying env = Return (Some track) →
  SpotifyDiscordBot.currentTrackId b ≠ Some (Track.id track) →
  SpotifyDiscordBot.poll env b
  = let b1 := snd (SpotifyDiscordBot.onTrackChange track env b) in
    if Track.isPlaying track
    then
      match SpotifyDiscordBot.prepareStatusText track env b1 with
      | (Return text, _) => (Return tt, snd (SpotifyDiscordBot.gate text env b1))
      | (Throw _, b2) => (Return tt, b2)
      end
    else (Return tt, b1).
Proof.
  intros Hready Hplaying Hnew.
  unfold SpotifyDiscordBot.poll, tryCatch, bind at 1.
  unfold SpotifyDiscordBot.this_discord, DiscordService.isReady, zoom, gets at 1.
  rewrite Hready, setDiscord_same. cbn [negb].
  unfold bind at 1, getCurrentlyPlaying. rewrite Hplaying.
  unfold bind at 1, gets at 1.
  rewrite bool_decide_eq_true_2 by congruence.
  unfold bind at 1.
  destruct (onTrackChange_run env b track) as (b1 & Hrun & _). rewrite Hrun.
  cbn [snd]. destruct (Track.isPlaying track); cbn [negb]; [|reflexivity].
  unfold bind at 1.
  destruct (prepareStatusText_run env b1 track) as (text & Htext). rewrite Htext.
  destruct (SpotifyDiscordBot.gate text env b1) as [[[]|e] b2]; reflexivity.
Qed.

Lemma poll_no_playback env b id :
  DiscordService.ready (SpotifyDiscordBot.discord b) = true →
  spotifyCurrentlyPlaying env = Return None →
  SpotifyDiscordBot.currentTrackId b = Some id →
  SpotifyDiscordBot.poll env b
  = (Return tt, snd (SpotifyDiscordBot.onNoPlayback env b)).
Proof.
  intros Hready Hnone Hid.
  unfold SpotifyDiscordBot.poll, tryCatch, bind at 1.
  unfold SpotifyDiscordBot.this_discord at 1, DiscordService.isReady, zoom at 1, gets at 1.
  rewrite Hready, setDiscord_same. cbn [negb].
  unfold bind at 1, getCurrentlyPlaying. rewrite Hnone.
  destruct (onNoPlayback_run env b id Hid) as (b' & Hrun & _). now rewrite Hrun.
Qed.




(** ** Polling cycle: what depends on the answer of LRCLIB *)

Lemma agree_bind {S A B} env1 env2 (m : M S A) (k : A → M S B) :
  agree env1 env2 m → (∀ a, agree env1 env2 (k a)) → agree env1 env2 (bind m k).
Proof.
  intros Hm Hk s. unfold bind. rewrite (Hm s).
  destruct (m env2 s) as [[a|e] s']; [apply Hk|reflexivity].
Qed.

Lemma agree_tryCatch {S A} env1 env2 (body : M S A) (handler : JsError → M S A) :
  agree env1 env2 body → (∀ e, agree env1 env2 (handler e)) →
  agree env1 env2 (tryCatch body handler).
Proof.
  intros Hb Hh s. unfold tryCatch. rewrite (Hb s).
  destruct (body env2 s) as [[a|e] s']; [reflexivity|apply Hh].
Qed.

Lemma agree_zoom {S T A} env1 env2 (proj : S → T) (upd : T → S → S) (m : M T A) :
  agree env1 env2 m → agree env1 env2 (zoom proj upd m).
Proof. intros Hm s. unfold zoom. now rewrite (Hm (proj s)). Qed.

(** LRCLIB reporting an instrumental track and LRCLIB not finding the
    track end the same way: the request is logged and null comes back. *)
Lemma fetchAndParseLyrics_instrumental env data trackName artistName duration :
  lrclibGet env = Resolved (Some data) → Lrclib.instrumental data = true →
  ∀ l, LyricsService.fetchAndParseLyrics trackName artistName duration env l
       = (Return None,
          {| LyricsService.requests :=
               LyricsService.requests l
               ++ [{| Lrclib.track_name := trackName;
                      Lrclib.artist_name := JS.trim (hd [] (JS.split 44 artistName));
                      Lrclib.duration_ms := duration |}] |}).
Proof.
  intros Hreply Hinstr l.
  unfold LyricsService.fetchAndParseLyrics, LyricsService.fetchLyrics, tryCatch, bind,
    LyricsService.client_get, ret.
  rewrite Hreply, Hinstr. reflexivity.
Qed.

Lemma fetchAndParseLyrics_not_found env trackName artistName duration :
  lrclibGet env = Rejected (HttpStatus 404) ∨ lrclibGet env = Resolved None →
  ∀ l, LyricsService.fetchAndParseLyrics trackName artistName duration env l
       = (Return None,
          {| LyricsService.requests :=
               LyricsService.requests l
               ++ [{| Lrclib.track_name := trackName;
                      Lrclib.artist_name := JS.trim (hd [] (JS.split 44 artistName));
                      Lrclib.duration_ms := duration |}] |}).
Proof.
  intros [Hreply|Hreply] l;
    unfold LyricsService.fetchAndParseLyrics, LyricsService.fetchLyrics, tryCatch, bind,
      LyricsService.client_get, ret;
    rewrite Hreply; reflexivity.
Qed.

Ltac agree_step :=
  first
    [ match goal with
      | H : ∀ n a d, agree _ _ (LyricsService.fetchAndParseLyrics n a d)
        |- agree _ _ (LyricsService.fetchAndParseLyrics _ _ _) => apply H
      end
    | apply agree_bind; [|intros ?]
    | apply agree_tryCatch; [|intros ?]
    | apply agree_zoom
    | match goal with
      | |- agree _ _ (match ?x with _ => _ end) => destruct x
      end
    | assumption
    | intros ?; reflexivity ].

(** The whole cycle sees of LRCLIB only what [fetchAndParseLyrics] returns. *)
Lemma poll_agree env reply :
  (∀ trackName artistName duration,
     agree env (with_lrclib reply env)
       (LyricsService.fetchAndParseLyrics trackName artistName duration)) →
  agree env (with_lrclib reply env) SpotifyDiscordBot.poll.
Proof.
  intros Hfetch.
  unfold SpotifyDiscordBot.poll, SpotifyDiscordBot.onNoPlayback,
    SpotifyDiscordBot.onTrackChange, SpotifyDiscordBot.fetchAndCacheLyrics,
    SpotifyDiscordBot.cacheLookup, SpotifyDiscordBot.prepareStatusText,
    SpotifyDiscordBot.getCurrentLyric, SpotifyDiscordBot.gate,
    SpotifyDiscordBot.this_discord, SpotifyDiscordBot.this_lyrics,
    SpotifyDiscordBot.this_lyricsCache, SpotifyDiscordBot.this_rateLimiter,
    SpotifyDiscordBot.this_diffChecker,
    LyricsCache.get, LyricsCache.set, DiffChecker.hasChanged, DiffChecker.reset,
    RateLimiter.canUpdate, DiscordService.setLyricStatus, DiscordService.clearStatus,
    DiscordService.isReady.
  cbv zeta.
  repeat agree_step.
Qed.

(** ** Resolution of lyrics *)

Lemma setLyricsCache_same (b : SpotifyDiscordBot.t) :
  SpotifyDiscordBot.setLyricsCache (SpotifyDiscordBot.lyricsCache b) b = b.
Proof. now destruct b. Qed.

(** When the cache has no entry for the track and the resolution returns
    null, the orchestrator is left without lyrics and the cache as it was. *)
Lemma fetchAndCacheLyrics_unresolved env b track :
  entryOf (SpotifyDiscordBot.lyricsCache b) (Track.name track) (Track.artists track)
  = None →
  (∀ l, fst (LyricsService.fetchAndParseLyrics (Track.name track) (Track.artists track)
               (Track.duration track) env l) = Return None) →
  ∃ b', SpotifyDiscordBot.fetchAndCacheLyrics track env b = (Return tt, b')
        ∧ SpotifyDiscordBot.currentLyrics b' = None
        ∧ SpotifyDiscordBot.lyricsCache b' = SpotifyDiscordBot.lyricsCache b.
Proof.
  intros Hmiss Hnull.
  assert (Hlookup : SpotifyDiscordBot.cacheLookup track env b = (Return None, b)).
  { unfold SpotifyDiscordBot.cacheLookup, bind, readConfig, ret,
      SpotifyDiscordBot.this_lyricsCache, zoom.
    destruct (CACHE_ENABLED (CONFIG env)); [|reflexivity].
    now rewrite LyricsCache_get_missing, setLyricsCache_same. }
  unfold SpotifyDiscordBot.fetchAndCacheLyrics, tryCatch, bind at 1.
  rewrite Hlookup. unfold bind, SpotifyDiscordBot.this_lyrics, zoom, modify.
  specialize (Hnull (SpotifyDiscordBot.lyrics b)).
  destruct (LyricsService.fetchAndParseLyrics _ _ _ env (SpotifyDiscordBot.lyrics b))
    as [r l']. cbn in Hnull. subst r.
  eexists. split; [reflexivity|]. now split.
Qed.

(** A cycle that finds a new, playing track without a cache entry, and
    whose resolution returns null, offers the listening fallback. *)
Lemma poll_unresolved env b track :
  DiscordService.ready (SpotifyDiscordBot.discord b) = true →
  spotifyCurrentlyPlaying env = Return (Some track) →
  SpotifyDiscordBot.currentTrackId b ≠ Some (Track.id track) →
  Track.isPlaying track = true →
  entryOf (SpotifyDiscordBot.lyricsCache b) (Track.name track) (Track.artists track)
  = None →
  (∀ l, fst (LyricsService.fetchAndParseLyrics (Track.name track) (Track.artists track)
               (Track.duration track) env l) = Return None) →
  let b' := snd (SpotifyDiscordBot.poll env b) in
  SpotifyDiscordBot.currentLyrics b' = None
  ∧ SpotifyDiscordBot.lyricsCache b' = SpotifyDiscordBot.lyricsCache b
  ∧ DiffChecker.lastLyric (SpotifyDiscordBot.diffChecker b')
    = Some (SpotifyDiscordBot.notes ++ str "Listening to " ++ Track.name track).
Proof.
  intros Hready Hplaying Hnew Hplay Hmiss Hnull. cbv zeta.
  rewrite (poll_track_change env b track Hready Hplaying Hnew). cbv zeta.
  rewrite Hplay.
  assert (H1 : ∃ b1, snd (SpotifyDiscordBot.onTrackChange track env b) = b1
                     ∧ SpotifyDiscordBot.currentLyrics b1 = None
                     ∧ SpotifyDiscordBot.lyricsCache b1 = SpotifyDiscordBot.lyricsCache b
                     ∧ SpotifyDiscordBot.diffChecker b1 = DiffChecker.new).
  { destruct (onTrackChange_run env b track) as (b1 & Hrun & Hdc & _).
    exists b1. rewrite Hrun. split; [reflexivity|].
    revert Hrun.
    unfold SpotifyDiscordBot.onTrackChange, SpotifyDiscordBot.this_diffChecker,
      DiffChecker.reset, bind, modify, zoom. cbn beta iota.
    match goal with
    | |- context [SpotifyDiscordBot.fetchAndCacheLyrics track env ?b0] =>
        destruct (fetchAndCacheLyrics_unresolved env b0 track Hmiss Hnull)
          as (b1' & Hrun' & Hcl & Hlc)
    end.
    rewrite Hrun'. intros [= <-]. auto. }
  destruct H1 as (b1 & -> & Hcl & Hlc & Hdc).
  rewrite (prepareStatusText_no_lyrics env b1 track Hcl).
  set (text := SpotifyDiscordBot.notes ++ str "Listening to " ++ Track.name track).
  cbn [snd].
  assert (Hcursor : DiffChecker.lastLyric (SpotifyDiscordBot.diffChecker b1) ≠ Some text)
    by (rewrite Hdc; discriminate).
  destruct (Z.lt_ge_cases
              (now env - RateLimiter.lastUpdate (SpotifyDiscordBot.rateLimiter b1))
              (RateLimiter.threshold (SpotifyDiscordBot.rateLimiter b1)))
    as [Hsoon|Hlate].
  - rewrite gate_too_soon by assumption. cbn. auto.
  - rewrite gate_passes by (exact Hcursor || lia).
    unfold SpotifyDiscordBot.this_discord, zoom.
    destruct (DiscordService.setLyricStatus _ _ _). cbn. auto.
Qed.

(** C5: when LRCLIB reports a track as instrumental, [fetchLyrics] returns
    the object with [instrumental: true] and null lyrics, but the
    resolution the orchestrator calls, [fetchAndParseLyrics], returns null,
    as it does when the track is not found (404): the two answers leave the
    lyrics service and the whole cycle in the same state with the same
    outcome. On a new, playing track without a cache entry the cycle ends
    without lyrics, caches nothing and offers the status "Listening to"
    followed by the title, the one shown when no lyrics exist. *)
Theorem instrumental_resolves_as_not_found :
  ∀ env data,
    lrclibGet env = Resolved (Some data) → Lrclib.instrumental data = true →
    (∀ trackName artistName duration l,
       fst (LyricsService.fetchLyrics trackName artistName duration env l)
       = Return (Some {| Lrclib.instrumental := true;
                         Lrclib.syncedLyrics := None;
                         Lrclib.plainLyrics := None |})
       ∧ fst (LyricsService.fetchLyrics trackName artistName duration
                (with_lrclib not_found_reply env) l) = Return None)
    ∧ (∀ trackName artistName duration l,
         fst (LyricsService.fetchAndParseLyrics trackName artistName duration env l)
         = Return None
         ∧ LyricsService.fetchAndParseLyrics trackName artistName duration env l
           = LyricsService.fetchAndParseLyrics trackName artistName duration
               (with_lrclib not_found_reply env) l)
    ∧ (∀ b, SpotifyDiscordBot.poll env b
            = SpotifyDiscordBot.poll (with_lrclib not_found_reply env) b)
    ∧ (∀ b track,
         DiscordService.ready (SpotifyDiscordBot.discord b) = true →
         spotifyCurrentlyPlaying env = Return (Some track) →
         SpotifyDiscordBot.currentTrackId b ≠ Some (Track.id track) →
         Track.isPlaying track = true →
         entryOf (SpotifyDiscordBot.lyricsCache b) (Track.name track)
           (Track.artists track) = None →
         let b' := snd (SpotifyDiscordBot.poll env b) in
         SpotifyDiscordBot.currentLyrics b' = None
         ∧ SpotifyDiscordBot.lyricsCache b' = SpotifyDiscordBot.lyricsCache b
         ∧ DiffChecker.lastLyric (SpotifyDiscordBot.diffChecker b')
           = Some (SpotifyDiscordBot.notes ++ str "Listening to " ++ Track.name track)).
Proof.
  intros env data Hreply Hinstr.
  assert (Hsame : ∀ n a d l,
             LyricsService.fetchAndParseLyrics n a d env l
             = LyricsService.fetchAndParseLyrics n a d (with_lrclib not_found_reply env) l).
  { intros n a d l.
    rewrite (fetchAndParseLyrics_instrumental env data n a d Hreply Hinstr).
    now rewrite fetchAndParseLyrics_not_found by (left; reflexivity). }
  split; [|split; [|split]].
  - intros n a d l. split.
    + unfold LyricsService.fetchLyrics, tryCatch, bind, LyricsService.client_get, ret.
      now rewrite Hreply, Hinstr.
    + reflexivity.
  - intros n a d l. split; [|apply Hsame].
    now rewrite (fetchAndParseLyrics_instrumental env data n a d Hreply Hinstr).
  - intros b. apply poll_agree. intros n a d l. apply Hsame.
  - intros b track Hready Hplaying Hnew Hplay Hmiss.
    apply poll_unresolved; try assumption.
    intros l.
    now rewrite (fetchAndParseLyrics_instrumental env data _ _ _ Hreply Hinstr).
Qed.

Lemma instrumental_resolves_as_not_found_witness :
  SpotifyDiscordBot.poll (cycle 5000 (Some track_X) instrumental_reply)
    (SpotifyDiscordBot.new default_config)
  = SpotifyDiscordBot.poll (cycle 5000 (Some track_X) not_found_reply)
      (SpotifyDiscordBot.new default_config).
Proof.
  destruct (instrumental_resolves_as_not_found
              (cycle 5000 (Some track_X) instrumental_reply)
              {| Lrclib.instrumental := true; Lrclib.syncedLyrics := None;
                 Lrclib.plainLyrics := None |} eq_refl eq_refl)
    as (_ & _ & Hpoll & _).
  apply (Hpoll (SpotifyDiscordBot.new default_config)).
Defined.

(** C5, as stated, fails: for track X the resolution returns null under
    the instrumental answer as under the 404 answer, and the cycle run from
    a new orchestrator ends in the same state under both, with the same
    listening fallback sent. *)
Lemma instrumental_not_distinguished_counterexample :
  resolved track_X instrumental_reply = Return None
  ∧ resolved track_X not_found_reply = Return None
  ∧ sentBy (snd (SpotifyDiscordBot.poll (cycle 5000 (Some track_X) instrumental_reply)
                   (SpotifyDiscordBot.new default_config)))
    = [PatchStatus (SpotifyDiscordBot.notes ++ str "Listening to Song X")]
  ∧ sentBy (snd (SpotifyDiscordBot.poll (cycle 5000 (Some track_X) not_found_reply)
                   (SpotifyDiscordBot.new default_config)))
    = [PatchStatus (SpotifyDiscordBot.notes ++ str "Listening to Song X")]
  ∧ ¬ instrumental_distinguished 5000 track_X (SpotifyDiscordBot.new default_config).
Proof.
  split; [reflexivity|]. split; [reflexivity|].
  split; [reflexivity|]. split; [reflexivity|].
  intros [Hres _]. apply Hres. reflexivity.
Qed.

(** C2 on the code: for a track with plain lyrics only, the resolution
    the orchestrator calls returns null whatever the plain text is. In the
    cycle on track X with four plain lines and a duration of 4000 ms the
    orchestrator ends without lyrics, with an empty cache and the listening
    fallback sent, while [searchLyrics], which no caller invokes, returns
    the even split at 0, 1000, 2000 and 3000 ms for the same answer. *)
Theorem plain_lyrics_not_resolved :
  (∀ env plainLyrics trackName artistName duration l,
     fst (LyricsService.fetchAndParseLyrics trackName artistName duration
            (with_lrclib (plain_reply plainLyrics) env) l) = Return None)
  ∧ (let env := cycle 5000 (Some track_X) (plain_reply four_lines) in
     let b' := snd (SpotifyDiscordBot.poll env (SpotifyDiscordBot.new default_config)) in
     SpotifyDiscordBot.currentLyrics b' = None
     ∧ LyricsCache.cache (SpotifyDiscordBot.lyricsCache b') = ∅
     ∧ sentBy b' = [PatchStatus (SpotifyDiscordBot.notes ++ str "Listening to Song X")]
     ∧ fst (LyricsService.searchLyrics (Track.name track_X) (Track.artists track_X)
              (Track.duration track_X) env LyricsService.new)
       = Return (Some [ {| time := 0; lyric := str "l1" |};
                        {| time := 1000; lyric := str "l2" |};
                        {| time := 2000; lyric := str "l3" |};
                        {| time := 3000; lyric := str "l4" |} ])).
Proof.
  split.
  - intros env plainLyrics n a d l.
    unfold LyricsService.fetchAndParseLyrics, LyricsService.fetchLyrics, tryCatch, bind,
      LyricsService.client_get, ret. reflexivity.
  - cbv zeta. repeat split; reflexivity.
Qed.

(** ** LRC documents *)

Lemma split_join (s : jsstring) :
  joinLines (JS.split 10 s) = s ∧ Forall (fun l => 10 ∉ l) (JS.split 10 s)
  ∧ JS.split 10 s ≠ [].
Proof.
  induction s as [|c s (IHj & IHf & IHn)]; cbn [JS.split].
  - repeat split; [repeat constructor; inversion 1|discriminate].
  - destruct (Z.eqb_spec c 10) as [->|Hc].
    + destruct (JS.split 10 s) as [|w ws] eqn:E; [contradiction|].
      repeat split; [cbn; now rewrite <- IHj| |discriminate].
      constructor; [inversion 1|exact IHf].
    + destruct (JS.split 10 s) as [|w ws] eqn:E; [contradiction|].
      repeat split; [|inversion IHf; subst; constructor; [|assumption]|discriminate].
      * rewrite <- IHj. now destruct ws.
      * intros Hin. apply elem_of_cons in Hin as [Heq|Hin]; [congruence|contradiction].
Qed.

Lemma parseLine_app (lyrics : list LyricLine) (line : jsstring) :
  parseLine lyrics line = lyrics ++ parseLine [] line.
Proof.
  unfold parseLine. destruct (lrcMatch line) as [m|]; [|now rewrite app_nil_r].
  destruct (JS.truthy _); [reflexivity|now rewrite app_nil_r].
Qed.

Lemma fold_parseLine (lines : list jsstring) :
  ∀ lyrics, fold_left parseLine lines lyrics
            = lyrics ++ concat (map (parseLine []) lines).
Proof.
  induction lines as [|line lines IH]; intros lyrics; cbn [fold_left map concat].
  - now rewrite app_nil_r.
  - rewrite IH, (parseLine_app lyrics line). now rewrite <- app_assoc.
Qed.

Lemma parseInt_two (d1 d2 : Z) : JS.parseInt [d1; d2] = twoDigits d1 d2.
Proof. unfold JS.parseInt, twoDigits. cbn [fold_left]. lia. Qed.

Lemma dotStar_line (text tail : jsstring) :
  noLineTerminator text = true → endsLine tail = true →
  dotStar (text ++ tail) = text.
Proof.
  intros Htext Htail. induction text as [|c text IH]; cbn [app].
  - destruct tail as [|c tail]; [reflexivity|]. cbn in *. now rewrite Htail.
  - cbn in Htext. apply andb_true_iff in Htext as [Hc Htext].
    cbn [dotStar]. apply negb_true_iff in Hc. rewrite Hc. now rewrite IH.
Qed.

Lemma matchHere_tag (m1 m2 s1 s2 c1 c2 : Z) (rest : jsstring) :
  allDigits [m1; m2; s1; s2; c1; c2] = true →
  matchHere (tag m1 m2 s1 s2 c1 c2 ++ rest)
  = Some {| g1 := [m1; m2]; g2 := [s1; s2]; g3 := [c1; c2]; g4 := dotStar rest |}.
Proof.
  unfold allDigits. cbn [forallb]. rewrite !andb_true_iff.
  intros (H1 & H2 & H3 & H4 & H5 & H6 & _).
  unfold tag, matchHere. cbn [app].
  now rewrite H1, H2, H3, H4, H5, H6.
Qed.

Lemma matchHere_startsWithTag (s : jsstring) (m : LrcMatch) :
  matchHere s = Some m → startsWithTag s.
Proof.
  unfold matchHere.
  destruct s as [|b0 [|m1 [|m2 [|co [|s1 [|s2 [|dt [|c1 [|c2 [|b1 rest]]]]]]]]]];
    try discriminate.
  destruct (_ && _) eqn:E; [|discriminate]. intros _.
  rewrite !andb_true_iff in E.
  destruct E as (((((((((Hb0 & H1) & H2) & Hco) & H3) & H4) & Hdt) & H5) & H6) & Hb1).
  apply Z.eqb_eq in Hb0, Hco, Hdt, Hb1. subst.
  exists m1, m2, s1, s2, c1, c2, rest. split; [|reflexivity].
  unfold allDigits. cbn [forallb]. now rewrite H1, H2, H3, H4, H5, H6.
Qed.

Lemma lrcMatch_unfold (line : jsstring) :
  lrcMatch line
  = match matchHere line with
    | Some m => Some m
    | None => match line with [] => None | _ :: line' => lrcMatch line' end
    end.
Proof. now destruct line. Qed.

(** The search passes every position where no tag begins. *)
Lemma lrcMatch_skip (before after : jsstring) :
  noTagBefore before after → lrcMatch (before ++ after) = lrcMatch after.
Proof.
  induction before as [|c before IH]; intros Hfree; [reflexivity|].
  cbn [app]. rewrite lrcMatch_unfold.
  destruct (matchHere (c :: before ++ after)) as [m|] eqn:E.
  - exfalso. apply (Hfree [] (c :: before) eq_refl); [discriminate|].
    eapply matchHere_startsWithTag. exact E.
  - apply IH. intros p r Heq Hr. apply (Hfree (c :: p) r); [now rewrite Heq|exact Hr].
Qed.

Lemma lrcMatch_tagFree (line : jsstring) : tagFree line → lrcMatch line = None.
Proof.
  induction line as [|c line IH]; intros Hfree; rewrite lrcMatch_unfold.
  - reflexivity.
  - destruct (matchHere (c :: line)) as [m|] eqn:E.
    + exfalso. apply (Hfree [] (c :: line) eq_refl).
      eapply matchHere_startsWithTag. exact E.
    + apply IH. intros before after Heq. apply (Hfree (c :: before) after).
      now rewrite Heq.
Qed.

(** A line whose first tag is followed by [text] up to the end of the
    line, as the pattern sees it. *)
Lemma parseLine_tagged before m1 m2 s1 s2 c1 c2 text tail :
  allDigits [m1; m2; s1; s2; c1; c2] = true →
  noTagBefore before (tag m1 m2 s1 s2 c1 c2 ++ text ++ tail) →
  noLineTerminator text = true → endsLine tail = true →
  ∀ lyrics,
    parseLine lyrics (before ++ tag m1 m2 s1 s2 c1 c2 ++ text ++ tail)
    = lyrics ++ entryFor (offsetMs m1 m2 s1 s2 c1 c2) text.
Proof.
  intros Hd Hfirst Htext Htail lyrics.
  unfold parseLine. rewrite (lrcMatch_skip _ _ Hfirst), lrcMatch_unfold.
  rewrite (matchHere_tag _ _ _ _ _ _ _ Hd), (dotStar_line _ _ Htext Htail).
  cbn [g1 g2 g3 g4]. rewrite !parseInt_two.
  unfold entryFor, offsetMs.
  destruct (JS.trim text); [now rewrite app_nil_r|reflexivity].
Qed.

Lemma trimStart_whitespace (w y : jsstring) :
  allWhiteSpace w = true → JS.trimStart (w ++ y) = JS.trimStart y.
Proof.
  induction w as [|c w IH]; intros Hw; [reflexivity|].
  cbn in Hw. apply andb_true_iff in Hw as [Hc Hw].
  cbn [app JS.trimStart]. rewrite Hc. now apply IH.
Qed.

Lemma trimStart_empty (s : jsstring) :
  JS.trimStart s = [] → allWhiteSpace s = true.
Proof.
  induction s as [|c s IH]; [reflexivity|]. cbn [JS.trimStart allWhiteSpace forallb].
  destruct (JS.isWhiteSpace c); [exact IH|discriminate].
Qed.

Lemma trimStart_app (s x : jsstring) :
  JS.trimStart s ≠ [] → JS.trimStart (s ++ x) = JS.trimStart s ++ x.
Proof.
  induction s as [|c s IH]; intros Hs; [contradiction|].
  cbn [app JS.trimStart] in *.
  destruct (JS.isWhiteSpace c); [now apply IH|reflexivity].
Qed.

Lemma allWhiteSpace_rev (s : jsstring) :
  allWhiteSpace s = true → allWhiteSpace (rev s) = true.
Proof.
  unfold allWhiteSpace. rewrite !forallb_forall. intros H c Hc.
  apply H. now apply in_rev.
Qed.

(** White space after the text does not reach the trimmed text. *)
Lemma trim_trailing_whitespace (text ws : jsstring) :
  allWhiteSpace ws = true → JS.trim (text ++ ws) = JS.trim text.
Proof.
  intros Hws. unfold JS.trim, JS.trimEnd.
  destruct (JS.trimStart text) as [|c u] eqn:E.
  - rewrite trimStart_whitespace by now apply trimStart_empty.
    rewrite <- (app_nil_r ws), trimStart_whitespace by exact Hws. reflexivity.
  - rewrite trimStart_app by (rewrite E; discriminate). rewrite E.
    rewrite rev_app_distr, trimStart_whitespace by now apply allWhiteSpace_rev.
    reflexivity.
Qed.

(** C7: [parseLRC] returns the empty timeline for null and for the empty
    string. Otherwise it cuts the document at the newlines and appends, in
    document order and without sorting, what each line gives. A line gives
    at most one entry, for its first tag: the offset is
    [MM * 60000 + SS * 1000 + CC * 10] and the text is what follows the tag
    up to the end of the line or the first line terminator (a carriage
    return, say), trimmed; the line gives nothing when that text is empty
    after trimming. When the only line terminators after the tag sit in a
    run of white space that ends the line, the text is the whole trailing
    text, trimmed. A line in which no tag begins gives nothing. The
    document of the example gives the one entry (2000, hello). *)
Theorem parseLRC_lines :
  (parseLRC None = [] ∧ parseLRC (Some []) = [])
  ∧ (∀ doc,
       parseLRC (Some doc) = concat (map (parseLine []) (JS.split 10 doc))
       ∧ joinLines (JS.split 10 doc) = doc
       ∧ Forall (fun line => 10 ∉ line) (JS.split 10 doc))
  ∧ (∀ before m1 m2 s1 s2 c1 c2 text tail,
       allDigits [m1; m2; s1; s2; c1; c2] = true →
       noTagBefore before (tag m1 m2 s1 s2 c1 c2 ++ text ++ tail) →
       noLineTerminator text = true → endsLine tail = true →
       ∀ lyrics,
         parseLine lyrics (before ++ tag m1 m2 s1 s2 c1 c2 ++ text ++ tail)
         = lyrics ++ entryFor (offsetMs m1 m2 s1 s2 c1 c2) text)
  ∧ (∀ before m1 m2 s1 s2 c1 c2 text ws,
       allDigits [m1; m2; s1; s2; c1; c2] = true →
       noTagBefore before (tag m1 m2 s1 s2 c1 c2 ++ text ++ ws) →
       noLineTerminator text = true →
       allWhiteSpace ws = true → endsLine ws = true →
       tagged_line_contract before m1 m2 s1 s2 c1 c2 (text ++ ws))
  ∧ (∀ line lyrics, tagFree line → parseLine lyrics line = lyrics)
  ∧ parseLRC (Some (str "[00:01.00]   " ++ [10] ++ str "[00:02.00]hello"))
    = [{| time := 2000; lyric := str "hello" |}].
Proof.
  split; [split; reflexivity|]. split; [|split; [|split; [|split]]].
  - intros doc. destruct (split_join doc) as (Hj & Hf & _).
    split; [|split; assumption].
    destruct doc as [|c doc]; [reflexivity|].
    unfold parseLRC. cbn [JS.truthy negb default].
    now rewrite fold_parseLine.
  - intros. now apply parseLine_tagged.
  - intros before m1 m2 s1 s2 c1 c2 text ws Hd Hfirst Htext Hws Hend lyrics.
    rewrite (parseLine_tagged _ _ _ _ _ _ _ _ _ Hd Hfirst Htext Hend).
    unfold entryFor. now rewrite trim_trailing_whitespace.
  - intros line lyrics Hfree. unfold parseLine. now rewrite lrcMatch_tagFree.
  - reflexivity.
Qed.

Lemma parseLRC_lines_witness :
  parseLine [] (str "x " ++ str "[01:02.50] hello " ++ [13])
  = [{| time := 62500; lyric := str "hello" |}]
  ∧ parseLine abc_timeline (str "no tag here") = abc_timeline.
Proof.
  destruct parseLRC_lines as (_ & _ & _ & Hline & Hfree & _). split.
  - apply (Hline (str "x ") 48 49 48 50 53 48 (str " hello ") [13]); try reflexivity.
    intros p r Heq Hr (m1 & m2 & s1 & s2 & c1 & c2 & rest & _ & Htag).
    destruct p as [|x [|y [|z p]]]; cbn in Heq; destruct r as [|c r]; try discriminate;
      try contradiction; injection Heq as ? ?; subst; discriminate Htag.
  - apply Hfree. intros before after Heq (m1 & m2 & s1 & s2 & c1 & c2 & rest & _ & Htag).
    subst after.
    assert (Hin : 91 ∈ str "no tag here").
    { rewrite Heq. apply elem_of_app. right. left. }
    vm_compute in Hin. repeat (apply elem_of_cons in Hin as [Hin|Hin]; [discriminate|]).
    inversion Hin.
Defined.

(** C7, as stated for the whole trailing text, fails when a carriage
    return stands inside it: the dot of the pattern stops there, so the
    line [00:01.00]a, carriage return, b gives the entry (1000, a) and not
    the trimmed trailing text. *)
Lemma parseLRC_carriage_return_counterexample :
  parseLRC (Some (str "[00:01.00]a" ++ [13] ++ str "b"))
  = [{| time := 1000; lyric := str "a" |}]
  ∧ JS.trim (str "a" ++ [13] ++ str "b") = str "a" ++ [13] ++ str "b"
  ∧ ¬ tagged_line_contract [] 48 48 48 49 48 48 (str "a" ++ [13] ++ str "b").
Proof.
  split; [reflexivity|]. split; [reflexivity|].
  intros H. specialize (H []). vm_compute in H. discriminate.
Qed.

(** * Further properties *)

(** ** utils.js: parsing *)

Lemma split_app (a b : jsstring) :
  JS.split 10 (a ++ 10 :: b) = JS.split 10 a ++ JS.split 10 b.
Proof.
  induction a as [|c a IH]; [reflexivity|].
  cbn [app JS.split]. rewrite IH.
  destruct (split_join a) as (_ & _ & Hne).
  destruct (c =? 10); [reflexivity|].
  destruct (JS.split 10 a) as [|w ws]; [contradiction|reflexivity].
Qed.

Lemma parseLRC_concat (doc : jsstring) :
  parseLRC (Some doc) = concat (map (parseLine []) (JS.split 10 doc)).
Proof.
  destruct doc as [|c doc]; [reflexivity|].
  unfold parseLRC. cbn [JS.truthy negb default]. now rewrite fold_parseLine.
Qed.

Lemma lrcMatch_Some (line : jsstring) (m : LrcMatch) :
  lrcMatch line = Some m →
  ∃ before m1 m2 s1 s2 c1 c2 rest,
    line = before ++ tag m1 m2 s1 s2 c1 c2 ++ rest
    ∧ allDigits [m1; m2; s1; s2; c1; c2] = true
    ∧ m = {| g1 := [m1; m2]; g2 := [s1; s2]; g3 := [c1; c2]; g4 := dotStar rest |}.
Proof.
  induction line as [|c line IH]; rewrite lrcMatch_unfold.
  - cbn. discriminate.
  - destruct (matchHere (c :: line)) as [m'|] eqn:E.
    + intros [= <-].
      destruct (matchHere_startsWithTag _ _ E)
        as (m1 & m2 & s1 & s2 & c1 & c2 & rest & Hd & Heq).
      exists [], m1, m2, s1, s2, c1, c2, rest. split; [exact Heq|]. split; [exact Hd|].
      rewrite Heq, (matchHere_tag _ _ _ _ _ _ _ Hd) in E. now injection E.
    + intros H. destruct (IH H) as (before & m1 & m2 & s1 & s2 & c1 & c2 & rest & Heq & Hd & Hm).
      exists (c :: before), m1, m2, s1, s2, c1, c2, rest.
      split; [now rewrite Heq|]. now split.
Qed.

Lemma trimStart_idempotent (s : jsstring) :
  JS.trimStart (JS.trimStart s) = JS.trimStart s.
Proof.
  induction s as [|c s IH]; [reflexivity|]. cbn [JS.trimStart].
  destruct (JS.isWhiteSpace c) eqn:E; [exact IH|]. cbn [JS.trimStart]. now rewrite E.
Qed.

Lemma trimStart_head (s r : jsstring) (c : Z) :
  JS.trimStart s = c :: r → JS.isWhiteSpace c = false.
Proof.
  induction s as [|d s IH]; [discriminate|]. cbn [JS.trimStart].
  destruct (JS.isWhiteSpace d) eqn:E; [exact IH|]. now intros [= <- _].
Qed.

Lemma trimStart_snoc (x : jsstring) (c : Z) :
  JS.isWhiteSpace c = false → JS.trimStart (x ++ [c]) = JS.trimStart x ++ [c].
Proof.
  intros Hc. induction x as [|d x IH]; cbn [app JS.trimStart].
  - now rewrite Hc.
  - destruct (JS.isWhiteSpace d); [exact IH|reflexivity].
Qed.

Lemma trimEnd_head (s : jsstring) (c : Z) :
  JS.isWhiteSpace c = false → JS.trimEnd (c :: s) = c :: JS.trimEnd s.
Proof.
  intros Hc. unfold JS.trimEnd. cbn [rev].
  now rewrite (trimStart_snoc _ _ Hc), rev_app_distr.
Qed.

Lemma trim_idempotent (s : jsstring) : trimmed (JS.trim s).
Proof.
  unfold trimmed, JS.trim.
  destruct (JS.trimStart s) as [|c u] eqn:E; [reflexivity|].
  pose proof (trimStart_head _ _ _ E) as Hc.
  rewrite (trimEnd_head _ _ Hc). cbn [JS.trimStart]. rewrite Hc.
  rewrite <- (trimEnd_head _ _ Hc). unfold JS.trimEnd.
  now rewrite rev_involutive, trimStart_idempotent.
Qed.

Lemma noLineTerminator_trimStart (s : jsstring) :
  noLineTerminator s = true → noLineTerminator (JS.trimStart s) = true.
Proof.
  induction s as [|c s IH]; [reflexivity|]. intros H. cbn [JS.trimStart].
  destruct (JS.isWhiteSpace c); [|exact H].
  cbn in H. apply andb_true_iff in H as [_ H]. now apply IH.
Qed.

Lemma noLineTerminator_rev (s : jsstring) :
  noLineTerminator s = true → noLineTerminator (rev s) = true.
Proof.
  unfold noLineTerminator. rewrite !forallb_forall. intros H c Hc.
  apply H. now apply in_rev.
Qed.

Lemma noLineTerminator_trim (s : jsstring) :
  noLineTerminator s = true → noLineTerminator (JS.trim s) = true.
Proof.
  intros H. unfold JS.trim, JS.trimEnd.
  apply noLineTerminator_rev, noLineTerminator_trimStart, noLineTerminator_rev.
  now apply noLineTerminator_trimStart.
Qed.

Lemma noLineTerminator_dotStar (s : jsstring) : noLineTerminator (dotStar s) = true.
Proof.
  induction s as [|c s IH]; [reflexivity|]. cbn [dotStar].
  destruct (JS.isLineTerminator c) eqn:E; [reflexivity|].
  unfold noLineTerminator in *. cbn [forallb]. now rewrite E, IH.
Qed.

Lemma twoDigits_range (d1 d2 : Z) :
  JS.isDigit d1 = true → JS.isDigit d2 = true → 0 <= twoDigits d1 d2 <= 99.
Proof. unfold JS.isDigit, twoDigits. lia. Qed.

Lemma parseLine_wellFormed (line : jsstring) (l : LyricLine) :
  l ∈ parseLine [] line → wellFormedEntry l.
Proof.
  unfold parseLine. destruct (lrcMatch line) as [m|] eqn:E; [|inversion 1].
  destruct (lrcMatch_Some _ _ E)
    as (before & m1 & m2 & s1 & s2 & c1 & c2 & rest & _ & Hd & ->).
  cbn [g1 g2 g3 g4]. rewrite !parseInt_two.
  destruct (JS.trim (dotStar rest)) as [|c text] eqn:Et; cbn [JS.truthy]; [inversion 1|].
  cbn [app]. intros Hin. apply list_elem_of_singleton in Hin. subst l.
  unfold allDigits in Hd. cbn [forallb] in Hd. rewrite !andb_true_iff in Hd.
  destruct Hd as (H1 & H2 & H3 & H4 & H5 & H6 & _).
  pose proof (twoDigits_range _ _ H1 H2). pose proof (twoDigits_range _ _ H3 H4).
  pose proof (twoDigits_range _ _ H5 H6).
  unfold wellFormedEntry. cbn [time lyric]. rewrite <- Et.
  split; [rewrite Et; discriminate|]. split; [apply trim_idempotent|].
  split; [apply noLineTerminator_trim, noLineTerminator_dotStar|].
  split; [lia|].
  replace (twoDigits m1 m2 * 60000 + twoDigits s1 s2 * 1000 + twoDigits c1 c2 * 10)
    with ((twoDigits m1 m2 * 6000 + twoDigits s1 s2 * 100 + twoDigits c1 c2) * 10) by lia.
  apply Z.mod_mul. lia.
Qed.

Lemma parsed_entry_wellFormed (lrcString : option jsstring) (l : LyricLine) :
  l ∈ parseLRC lrcString → wellFormedEntry l.
Proof.
  destruct lrcString as [doc|]; [|inversion 1].
  rewrite parseLRC_concat. intros Hin.
  apply list_elem_of_In, in_concat in Hin as (entries & Hentries & Hin).
  apply in_map_iff in Hentries as (line & <- & _).
  apply (parseLine_wellFormed line). now apply list_elem_of_In.
Qed.

(** X1: every line of a timeline built by [parseLRC], whatever the
    document, has a text that is not empty, is trimmed and holds no line
    terminator, and an offset between 0 and 6039990 ms (99 minutes, 99
    seconds, 99 centiseconds: the fields are not range-checked) that is a
    multiple of 10. *)
Theorem parseLRC_entries_wellFormed :
  ∀ (lrcString : option jsstring) (l : LyricLine),
    l ∈ parseLRC lrcString → wellFormedEntry l.
Proof. exact parsed_entry_wellFormed. Qed.

Lemma parseLRC_entries_wellFormed_witness :
  wellFormedEntry {| time := 5999990; lyric := str "la  la" |}.
Proof.
  apply (parseLRC_entries_wellFormed (Some (str "  [99:59.99] la  la  "))).
  vm_compute. left.
Defined.

Lemma parseLine_length (line : jsstring) : (length (parseLine [] line) ≤ 1)%nat.
Proof.
  unfold parseLine. destruct (lrcMatch line); [|cbn; lia].
  destruct (JS.truthy _); cbn; lia.
Qed.

(** X2: parsing is line by line: the timeline of two documents joined by
    a newline is the timeline of the first followed by the timeline of the
    second, and a document never gives more entries than it has lines. *)
Theorem parseLRC_newline_app :
  ∀ doc1 doc2 : jsstring,
    parseLRC (Some (doc1 ++ 10 :: doc2))
    = parseLRC (Some doc1) ++ parseLRC (Some doc2)
    ∧ (length (parseLRC (Some doc1)) ≤ length (JS.split 10 doc1))%nat.
Proof.
  intros doc1 doc2. split.
  - now rewrite !parseLRC_concat, split_app, map_app, concat_app.
  - rewrite parseLRC_concat.
    induction (JS.split 10 doc1) as [|line lines IH]; [reflexivity|].
    cbn [map concat length]. rewrite length_app.
    pose proof (parseLine_length line). lia.
Qed.

(** ** utils.js: lookup *)

Lemma lyricScan_run (run rest : list LyricLine) (p : Z) :
  Forall (fun l => time l <= p) run → startsLate p rest →
  ∀ acc, lyricScan (run ++ rest) p acc
         = match last run with
           | Some l => Some (lyric l)
           | None => acc
           end.
Proof.
  intros Hrun Hrest. induction Hrun as [|l run Hl Hrun IH]; intros acc; cbn [app].
  - destruct rest as [|l rest]; [reflexivity|]. cbn in Hrest. cbn [lyricScan].
    destruct (Z.leb_spec (time l) p); [lia|reflexivity].
  - cbn [lyricScan]. destruct (Z.leb_spec (time l) p); [|lia].
    rewrite IH. destruct run as [|l' run']; [reflexivity|].
    rewrite last_cons_cons.
    destruct (last (l' :: run')) eqn:E; [reflexivity|].
    apply last_None in E. discriminate.
Qed.

Lemma lookup_leading_run (run rest : list LyricLine) (p : Z) :
  Forall (fun l => time l <= p) run → startsLate p rest →
  getLyricAtProgress (Some (run ++ rest)) p = lyric <$> last run.
Proof.
  intros Hrun Hrest.
  unfold getLyricAtProgress.
  destruct (run ++ rest) as [|l0 ls] eqn:E.
  - apply app_eq_nil in E as [-> _]. reflexivity.
  - rewrite <- E, (lyricScan_run run rest p Hrun Hrest).
    now destruct (last run).
Qed.

(** X3: on any timeline, sorted or not, the lookup goes through the
    leading run of lines that start at or before the progress and returns
    the text of the last line of that run; it returns null when the run is
    empty, that is when the timeline is empty or its first line starts
    later. *)
Theorem getLyricAtProgress_leading_run :
  ∀ (run rest : list LyricLine) (progressMs : Z),
    Forall (fun l => time l <= progressMs) run → startsLate progressMs rest →
    getLyricAtProgress (Some (run ++ rest)) progressMs = lyric <$> last run.
Proof. exact lookup_leading_run. Qed.

Lemma getLyricAtProgress_leading_run_witness :
  getLyricAtProgress (Some unordered_timeline) 12000 = Some (str "y")
  ∧ getLyricAtProgress (Some unordered_timeline) 7000 = None.
Proof.
  assert (E : unordered_timeline
              = [ {| time := 10000; lyric := str "x" |};
                  {| time := 5000; lyric := str "y" |} ]) by reflexivity.
  split.
  - apply (getLyricAtProgress_leading_run unordered_timeline [] 12000); [|exact I].
    rewrite E. repeat constructor; cbn; lia.
  - apply (getLyricAtProgress_leading_run [] unordered_timeline 7000); [constructor|].
    rewrite E. cbn. lia.
Defined.

(** X4: a timeline built by [parseLRC] has no line before 0, so for a
    negative progress (a negative sync offset early in the track) the lookup
    returns null, whatever the document. *)
Theorem getLyricAtProgress_negative_progress :
  ∀ (lrcString : option jsstring) (progressMs : Z),
    progressMs < 0 →
    getLyricAtProgress (Some (parseLRC lrcString)) progressMs = None.
Proof.
  intros doc p Hp.
  assert (Hlate : startsLate p (parseLRC doc)).
  { destruct (parseLRC doc) as [|l ls] eqn:E; [exact I|]. cbn.
    assert (Hl : l ∈ parseLRC doc) by (rewrite E; left).
    destruct (parsed_entry_wellFormed doc l Hl) as (_ & _ & _ & Ht & _). lia. }
  apply (lookup_leading_run [] (parseLRC doc) p); [constructor|exact Hlate].
Qed.

Lemma getLyricAtProgress_negative_progress_witness :
  getLyricAtProgress (Some (parseLRC (Some (str "[00:00.00]intro")))) (-250) = None.
Proof. apply getLyricAtProgress_negative_progress. lia. Defined.

(** ** utils.js: the cache *)

Lemma entryOf_set env c n a lyrics :
  entryOf (snd (LyricsCache.set n a lyrics env c)) n a
  = Some {| LyricsCache.lyrics := lyrics; LyricsCache.timestamp := now env |}.
Proof.
  rewrite LyricsCache_set_run. unfold entryOf. cbn [snd LyricsCache.cache].
  apply lookup_insert_eq.
Qed.

(** X5: what [set] stores under a title and performer, [get] returns
    under every title and performer that have the same key, for as long as
    [now - timestamp <= ttl] (the bound included), leaving the cache as it
    is; one millisecond later the same read returns null and removes the
    entry. *)
Theorem LyricsCache_set_get :
  ∀ env1 env2 c trackName artistName trackName' artistName' lyrics,
    LyricsCache.generateKey trackName' artistName'
    = LyricsCache.generateKey trackName artistName →
    let stored := snd (LyricsCache.set trackName artistName lyrics env1 c) in
    (now env2 - now env1 <= LyricsCache.ttl c →
     LyricsCache.get trackName' artistName' env2 stored = (Return (Some lyrics), stored))
    ∧ (now env2 - now env1 > LyricsCache.ttl c →
       fst (LyricsCache.get trackName' artistName' env2 stored) = Return None
       ∧ entryOf (snd (LyricsCache.get trackName' artistName' env2 stored))
           trackName artistName = None).
Proof.
  intros env1 env2 c n a n' a' lyrics Hkey. cbv zeta.
  pose proof (entryOf_set env1 c n a lyrics) as He.
  assert (He' : entryOf (snd (LyricsCache.set n a lyrics env1 c)) n' a'
                = Some {| LyricsCache.lyrics := lyrics;
                          LyricsCache.timestamp := now env1 |}).
  { unfold entryOf in *. now rewrite Hkey. }
  split.
  - intros Hfresh. now rewrite (LyricsCache_get_fresh _ _ _ _ _ He').
  - intros Hold. rewrite (LyricsCache_get_expired _ _ _ _ _ He'); [|exact Hold].
    split; [reflexivity|]. unfold entryOf. cbn [snd LyricsCache.cache].
    rewrite Hkey. apply lookup_delete_eq.
Qed.

Lemma LyricsCache_set_get_witness :
  let stored :=
    snd (LyricsCache.set (str "Hello") (str "Adele") abc_timeline (at_time 1000)
           (LyricsCache.new 500)) in
  LyricsCache.get (str "HELLO") (str "adele") (at_time 1500) stored
  = (Return (Some abc_timeline), stored)
  ∧ fst (LyricsCache.get (str "HELLO") (str "adele") (at_time 1501) stored) = Return None.
Proof.
  cbv zeta.
  destruct (LyricsCache_set_get (at_time 1000) (at_time 1500) (LyricsCache.new 500)
              (str "Hello") (str "Adele") (str "HELLO") (str "adele") abc_timeline
              eq_refl) as [Hfresh _].
  destruct (LyricsCache_set_get (at_time 1000) (at_time 1501) (LyricsCache.new 500)
              (str "Hello") (str "Adele") (str "HELLO") (str "adele") abc_timeline
              eq_refl) as [_ Hold].
  split.
  - apply Hfresh. cbn. lia.
  - apply Hold. cbn. lia.
Defined.

(** X6: [set] overwrites: storing twice under one key leaves exactly what
    the second call alone would leave, lyrics and time stamp, so the time to
    live starts again; the number of entries grows by one when the key was
    not stored, expired or not, and stays the same otherwise. *)
Theorem LyricsCache_set_overwrites :
  ∀ env1 env2 c trackName artistName lyrics1 lyrics2,
    snd (LyricsCache.set trackName artistName lyrics2 env2
           (snd (LyricsCache.set trackName artistName lyrics1 env1 c)))
    = snd (LyricsCache.set trackName artistName lyrics2 env2 c)
    ∧ cacheSize env1 (snd (LyricsCache.set trackName artistName lyrics1 env1 c))
      = match entryOf c trackName artistName with
        | None => S (cacheSize env1 c)
        | Some _ => cacheSize env1 c
        end.
Proof.
  intros env1 env2 c n a l1 l2. rewrite !LyricsCache_set_run. cbn [snd].
  split.
  - cbn [snd LyricsCache.cache LyricsCache.ttl]. now rewrite insert_insert_eq.
  - unfold cacheSize, LyricsCache.size, gets, entryOf. cbn [fst LyricsCache.cache].
    destruct (LyricsCache.cache c !! LyricsCache.generateKey n a) as [e|] eqn:E.
    + apply map_size_insert_Some. now rewrite E.
    + now apply map_size_insert_None.
Qed.

(** X7: entries under different keys do not disturb each other: neither
    a [set] nor a [get] (which may delete its own expired entry) under one
    key changes what is stored under another key. *)
Theorem LyricsCache_keys_independent :
  ∀ env c trackName artistName trackName' artistName' lyrics,
    LyricsCache.generateKey trackName artistName
    ≠ LyricsCache.generateKey trackName' artistName' →
    entryOf (snd (LyricsCache.set trackName artistName lyrics env c))
      trackName' artistName'
    = entryOf c trackName' artistName'
    ∧ entryOf (snd (LyricsCache.get trackName artistName env c)) trackName' artistName'
      = entryOf c trackName' artistName'.
Proof.
  intros env c n a n' a' lyrics Hne. split.
  - rewrite LyricsCache_set_run. unfold entryOf. cbn [snd LyricsCache.cache].
    now apply lookup_insert_ne.
  - destruct (entryOf c n a) as [e|] eqn:E.
    + destruct (Z.le_gt_cases (now env - LyricsCache.timestamp e) (LyricsCache.ttl c)).
      * now rewrite (LyricsCache_get_fresh _ _ _ _ _ E).
      * rewrite (LyricsCache_get_expired _ _ _ _ _ E) by lia.
        unfold entryOf. cbn [snd LyricsCache.cache]. now apply lookup_delete_ne.
    + now rewrite LyricsCache_get_missing.
Qed.

Lemma LyricsCache_keys_independent_witness :
  entryOf (snd (LyricsCache.set (str "Hello") (str "Adele") abc_timeline (at_time 0)
                  (LyricsCache.new 500)))
    (str "Hello") (str "Lionel Richie") = None.
Proof.
  destruct (LyricsCache_keys_independent (at_time 0) (LyricsCache.new 500)
              (str "Hello") (str "Adele") (str "Hello") (str "Lionel Richie")
              abc_timeline) as [Hset _].
  - vm_compute. discriminate.
  - rewrite Hset. reflexivity.
Defined.

(** X8: [clear] removes every entry and keeps the time to live: after it
    [size()] is 0 and [get] returns null for every title and performer,
    without changing the cache. *)
Theorem LyricsCache_clear_empties :
  ∀ env env' c trackName artistName,
    let cleared := snd (LyricsCache.clear env c) in
    fst (LyricsCache.clear env c) = Return tt
    ∧ cacheSize env' cleared = 0%nat
    ∧ LyricsCache.ttl cleared = LyricsCache.ttl c
    ∧ LyricsCache.get trackName artistName env' cleared = (Return None, cleared).
Proof.
  intros env env' c n a. cbv zeta. unfold LyricsCache.clear, modify. cbn [fst snd].
  split; [reflexivity|]. split; [reflexivity|]. split; [reflexivity|].
  apply LyricsCache_get_missing. unfold entryOf. cbn [LyricsCache.cache].
  apply lookup_empty.
Qed.

(** ** utils.js: the rate limiter *)

(** X9: over any sequence of [canUpdate] calls, at any clock readings,
    two successive grants are at least [threshold] apart (the first at least
    [threshold] after the stamp the limiter started with); the limiter ends
    with the stamp of the last grant, or its own when nothing was granted,
    and with the same threshold. *)
Theorem RateLimiter_grants_spaced :
  ∀ (times : list Z) (rl : RateLimiter.t),
    let (gs, rl') := grants times rl in
    spaced (RateLimiter.threshold rl) (RateLimiter.lastUpdate rl) gs
    ∧ RateLimiter.lastUpdate rl' = default (RateLimiter.lastUpdate rl) (last gs)
    ∧ RateLimiter.threshold rl' = RateLimiter.threshold rl.
Proof.
  induction times as [|t rest IH]; intros rl; cbn [grants]; [now repeat split|].
  rewrite canUpdate_run. cbn [at_time now].
  destruct (Z.geb_spec (t - RateLimiter.lastUpdate rl) (RateLimiter.threshold rl))
    as [Hlate|Hsoon].
  - match goal with |- context [grants rest ?r] => specialize (IH r) end.
    destruct (grants rest _) as [gs rl'']. cbn in IH. destruct IH as (Hs & Hl & Ht).
    split; [split; [lia|exact Hs]|]. split; [|exact Ht].
    rewrite Hl. destruct gs as [|g gs]; [reflexivity|].
    rewrite last_cons_cons.
    destruct (last (g :: gs)) eqn:E; [reflexivity|].
    apply last_None in E. discriminate.
  - specialize (IH rl). destruct (grants rest rl) as [gs rl'']. exact IH.
Qed.

(** ** index.js: the gate *)

(** X10: whatever the gate does with a candidate (send it, hold it back
    inside the interval, or fail in the status sink), the diff cursor holds
    that candidate afterwards, so offering the same text again, at any later
    time, changes nothing and sends nothing: a status held back by the rate
    limiter is not retried until the text changes. *)
Theorem gate_never_retries :
  ∀ env env' b text,
    let b' := snd (SpotifyDiscordBot.gate text env b) in
    DiffChecker.lastLyric (SpotifyDiscordBot.diffChecker b') = Some text
    ∧ SpotifyDiscordBot.gate text env' b' = (Return tt, b').
Proof.
  intros env env' b text. cbv zeta.
  assert (Hcursor : DiffChecker.lastLyric
                      (SpotifyDiscordBot.diffChecker
                         (snd (SpotifyDiscordBot.gate text env b))) = Some text).
  { destruct (decide (DiffChecker.lastLyric (SpotifyDiscordBot.diffChecker b) = Some text))
      as [Hsame|Hnew].
    - now rewrite gate_same_text.
    - destruct (Z.lt_ge_cases
                  (now env - RateLimiter.lastUpdate (SpotifyDiscordBot.rateLimiter b))
                  (RateLimiter.threshold (SpotifyDiscordBot.rateLimiter b))).
      + now rewrite gate_too_soon.
      + rewrite gate_passes by (exact Hnew || lia).
        unfold SpotifyDiscordBot.this_discord, zoom.
        now destruct (DiscordService.setLyricStatus _ _ _). }
  split; [exact Hcursor|]. now apply gate_same_text.
Qed.

(** ** index.js: one polling cycle *)

#[local] Instance sameLyricsSide_refl : Reflexive sameLyricsSide.
Proof. intros b. now repeat split. Qed.

#[local] Instance sameLyricsSide_trans : Transitive sameLyricsSide.
Proof.
  intros b1 b2 b3 (H1 & H2 & H3 & H4) (K1 & K2 & K3 & K4).
  repeat split; congruence.
Qed.

Lemma gate_frame env b text :
  sameLyricsSide b (snd (SpotifyDiscordBot.gate text env b)).
Proof.
  assert (Hp : preserves sameLyricsSide (SpotifyDiscordBot.gate text)).
  { unfold SpotifyDiscordBot.gate, SpotifyDiscordBot.this_diffChecker,
      SpotifyDiscordBot.this_rateLimiter, SpotifyDiscordBot.this_discord.
    repeat first
      [ apply preserves_ret; typeclasses eauto
      | apply preserves_zoom; intros ? ?; now repeat split
      | apply preserves_bind; [typeclasses eauto| |intros ?]
      | match goal with
        | |- preserves _ (if ?c then _ else _) => destruct c
        end ]. }
  apply Hp.
Qed.

(** What the gate may do to the sink and the limiter. *)
Lemma gate_effect env b text :
  cycleEffect env b (snd (SpotifyDiscordBot.gate text env b)).
Proof.
  unfold cycleEffect. cbv zeta.
  destruct (decide (DiffChecker.lastLyric (SpotifyDiscordBot.diffChecker b) = Some text))
    as [Hsame|Hnew].
  { rewrite gate_same_text by exact Hsame. cbn [snd]. auto. }
  destruct (Z.lt_ge_cases
              (now env - RateLimiter.lastUpdate (SpotifyDiscordBot.rateLimiter b))
              (RateLimiter.threshold (SpotifyDiscordBot.rateLimiter b)))
    as [Hsoon|Hlate].
  { rewrite gate_too_soon by assumption. cbn [snd]. unfold sentBy. cbn. auto. }
  rewrite gate_passes by (exact Hnew || lia).
  unfold SpotifyDiscordBot.this_discord, zoom.
  match goal with |- context [DiscordService.setLyricStatus text env ?d] =>
    set (d0 := d);
    destruct (decide (DiscordService.lastStatus d0 = Some (firstn 128 text))) as [Hs|Hn]
  end.
  - rewrite setLyricStatus_same by exact Hs. unfold sentBy. cbn.
    split; [reflexivity|]. split; [right; split; [reflexivity|lia]|]. now left.
  - rewrite setLyricStatus_new by exact Hn. unfold sentBy.
    assert (Hwire : ∀ s r, DiscordService.patches
                             (SpotifyDiscordBot.discord
                                (SpotifyDiscordBot.setDiscord
                                   {| DiscordService.lastStatus := s;
                                      DiscordService.ready := r;
                                      DiscordService.patches :=
                                        DiscordService.patches d0
                                        ++ [PatchStatus (firstn 128 text)] |}
                                   (SpotifyDiscordBot.setRateLimiter
                                      {| RateLimiter.threshold :=
                                           RateLimiter.threshold
                                             (SpotifyDiscordBot.rateLimiter b);
                                         RateLimiter.lastUpdate := now env |}
                                      (SpotifyDiscordBot.setDiffChecker
                                         {| DiffChecker.lastLyric := Some text |} b))))
                           = DiscordService.patches (SpotifyDiscordBot.discord b)
                             ++ [PatchStatus (firstn 128 text)]) by reflexivity.
    destruct (discordPatch env); cbn [snd];
      (split; [reflexivity|]; split; [right; split; [reflexivity|lia]|];
       right; right; exists (firstn 128 text);
       split; [apply Hwire|]; split; [rewrite length_firstn; lia|];
       split; [reflexivity|lia]).
Qed.

(** One cycle on a track that is reported by Spotify, new or not. *)
Lemma poll_track env b track :
  DiscordService.ready (SpotifyDiscordBot.discord b) = true →
  spotifyCurrentlyPlaying env = Return (Some track) →
  ∃ b1,
    (if bool_decide (Some (Track.id track) ≠ SpotifyDiscordBot.currentTrackId b)
     then b1 = snd (SpotifyDiscordBot.onTrackChange track env b)
     else b1 = b)
    ∧ SpotifyDiscordBot.rateLimiter b1 = SpotifyDiscordBot.rateLimiter b
    ∧ SpotifyDiscordBot.discord b1 = SpotifyDiscordBot.discord b
    ∧ SpotifyDiscordBot.poll env b
      = if Track.isPlaying track
        then
          match SpotifyDiscordBot.prepareStatusText track env b1 with
          | (Return text, _) => (Return tt, snd (SpotifyDiscordBot.gate text env b1))
          | (Throw _, b2) => (Return tt, b2)
          end
        else (Return tt, b1).
Proof.
  intros Hready Hplaying.
  destruct (decide (Some (Track.id track) = SpotifyDiscordBot.currentTrackId b))
    as [Hsame|Hnew].
  - exists b. rewrite bool_decide_eq_false_2 by (intros H; now apply H).
    split; [reflexivity|]. split; [reflexivity|]. split; [reflexivity|].
    unfold SpotifyDiscordBot.poll, tryCatch, bind at 1.
    unfold SpotifyDiscordBot.this_discord, DiscordService.isReady, zoom, gets at 1.
    rewrite Hready, setDiscord_same. cbn [negb].
    unfold bind at 1, getCurrentlyPlaying. rewrite Hplaying.
    unfold bind at 1, gets at 1.
    rewrite bool_decide_eq_false_2 by (intros H; now apply H).
    unfold bind at 1, ret at 1.
    destruct (Track.isPlaying track); cbn [negb]; [|reflexivity].
    unfold bind at 1.
    destruct (prepareStatusText_run env b track) as (text & Htext). rewrite Htext.
    destruct (SpotifyDiscordBot.gate text env b) as [[[]|e] b2]; reflexivity.
  - exists (snd (SpotifyDiscordBot.onTrackChange track env b)).
    rewrite bool_decide_eq_true_2 by exact Hnew.
    destruct (onTrackChange_run env b track) as (b1 & Hrun & _ & Hrl & Hd & _).
    rewrite Hrun. cbn [snd]. split; [reflexivity|]. split; [exact Hrl|].
    split; [exact Hd|].
    rewrite (poll_track_change env b track Hready Hplaying) by congruence.
    cbv zeta. now rewrite Hrun.
Qed.

Lemma cycleEffect_same env b b' :
  SpotifyDiscordBot.rateLimiter b' = SpotifyDiscordBot.rateLimiter b →
  SpotifyDiscordBot.discord b' = SpotifyDiscordBot.discord b →
  cycleEffect env b b'.
Proof.
  intros Hrl Hd. unfold cycleEffect, sentBy. cbv zeta. rewrite Hrl, Hd. auto.
Qed.

Lemma poll_effect env b : cycleEffect env b (snd (SpotifyDiscordBot.poll env b)).
Proof.
  destruct (DiscordService.ready (SpotifyDiscordBot.discord b)) eqn:Hready.
  2: { unfold SpotifyDiscordBot.poll, tryCatch, bind at 1.
       unfold SpotifyDiscordBot.this_discord, DiscordService.isReady, zoom, gets at 1.
       rewrite Hready, setDiscord_same. cbn. now apply cycleEffect_same. }
  destruct (spotifyCurrentlyPlaying env) as [[track|]|e] eqn:Hplaying.
  - destruct (poll_track env b track Hready Hplaying) as (b1 & _ & Hrl & Hd & ->).
    destruct (Track.isPlaying track); [|now apply cycleEffect_same].
    destruct (prepareStatusText_run env b1 track) as (text & ->). cbn [snd].
    pose proof (gate_effect env b1 text) as H.
    unfold cycleEffect, sentBy in *. cbv zeta in *. now rewrite Hrl, Hd in H.
  - destruct (SpotifyDiscordBot.currentTrackId b) as [id|] eqn:Hid.
    + rewrite (poll_no_playback env b id Hready Hplaying Hid). cbn [snd].
      destruct (onNoPlayback_run env b id Hid) as (b' & -> & _ & _ & _ & Hrl & Hs).
      cbn [snd]. unfold cycleEffect. cbv zeta. rewrite Hrl.
      split; [reflexivity|]. split; [now left|]. right. left. now split.
    + unfold SpotifyDiscordBot.poll, tryCatch, bind at 1.
      unfold SpotifyDiscordBot.this_discord, DiscordService.isReady, zoom, gets at 1.
      rewrite Hready, setDiscord_same. cbn [negb].
      unfold bind at 1, getCurrentlyPlaying. rewrite Hplaying.
      unfold SpotifyDiscordBot.onNoPlayback, bind, gets. rewrite Hid. cbn.
      now apply cycleEffect_same.
  - unfold SpotifyDiscordBot.poll, tryCatch, bind at 1.
    unfold SpotifyDiscordBot.this_discord, DiscordService.isReady, zoom, gets at 1.
    rewrite Hready, setDiscord_same. cbn [negb].
    unfold bind at 1, getCurrentlyPlaying. rewrite Hplaying. cbn.
    now apply cycleEffect_same.
Qed.

Lemma poll_returns env b : fst (SpotifyDiscordBot.poll env b) = Return tt.
Proof.
  unfold SpotifyDiscordBot.poll, tryCatch.
  match goal with |- context [match ?m env b with _ => _ end] => destruct (m env b) as [[[]|e] b'] end;
    reflexivity.
Qed.

Lemma poll_not_ready env b :
  DiscordService.ready (SpotifyDiscordBot.discord b) = false →
  SpotifyDiscordBot.poll env b = (Return tt, b).
Proof.
  intros Hready. unfold SpotifyDiscordBot.poll, tryCatch, bind at 1.
  unfold SpotifyDiscordBot.this_discord, DiscordService.isReady, zoom, gets at 1.
  now rewrite Hready, setDiscord_same.
Qed.

Lemma poll_spotify_throws env b e :
  spotifyCurrentlyPlaying env = Throw e →
  SpotifyDiscordBot.poll env b = (Return tt, b).
Proof.
  intros Hthrow.
  destruct (DiscordService.ready (SpotifyDiscordBot.discord b)) eqn:Hready;
    [|now apply poll_not_ready].
  unfold SpotifyDiscordBot.poll, tryCatch, bind at 1.
  unfold SpotifyDiscordBot.this_discord, DiscordService.isReady, zoom, gets at 1.
  rewrite Hready, setDiscord_same. cbn [negb].
  unfold bind at 1, getCurrentlyPlaying. now rewrite Hthrow.
Qed.

(** X11: a polling cycle never throws, whatever Spotify, LRCLIB and
    Discord answer. It puts at most one request on the wire to Discord: a
    clear, which leaves the rate limiter alone, or a status of at most 128
    units, and that only when [now - lastUpdate >= threshold], the stamp
    becoming [now]. When the call to Spotify throws, or the status sink is
    not ready, the cycle sends nothing to LRCLIB or Discord and leaves the
    current track, its lyrics, the cache, the diff cursor, the rate limiter
    and the status sink as they were. (What a failed call does to the token
    of the Spotify service is X22.) *)
Theorem poll_fail_soft :
  ∀ env b,
    let b' := snd (SpotifyDiscordBot.poll env b) in
    fst (SpotifyDiscordBot.poll env b) = Return tt
    ∧ cycleEffect env b b'
    ∧ (∀ e, spotifyCurrentlyPlaying env = Throw e →
            askedBy b' = askedBy b ∧ sentBy b' = sentBy b
            ∧ sameLyricsSide b b' ∧ sameGateAndSink b b')
    ∧ (DiscordService.ready (SpotifyDiscordBot.discord b) = false →
       askedBy b' = askedBy b ∧ sentBy b' = sentBy b
       ∧ sameLyricsSide b b' ∧ sameGateAndSink b b').
Proof.
  intros env b. cbv zeta.
  split; [apply poll_returns|]. split; [apply poll_effect|]. split.
  - intros e He. rewrite (poll_spotify_throws env b e He). cbn [snd].
    now repeat split.
  - intros Hready. rewrite (poll_not_ready env b Hready). cbn [snd].
    now repeat split.
Qed.

Lemma poll_fail_soft_witness :
  sentBy (snd (SpotifyDiscordBot.poll (at_time 9000) after_X)) = sentBy after_X
  ∧ sameGateAndSink after_X (snd (SpotifyDiscordBot.poll (at_time 9000) after_X)).
Proof.
  destruct (poll_fail_soft (at_time 9000) after_X) as (_ & _ & Hthrow & _).
  destruct (Hthrow (AxiosFailure NetworkFailure) eq_refl) as (_ & Hsent & _ & Hgate).
  split; [exact Hsent|exact Hgate].
Defined.

Lemma sentStatus_true env b :
  sentStatus env b = true →
  RateLimiter.lastUpdate
    (SpotifyDiscordBot.rateLimiter (snd (SpotifyDiscordBot.poll env b))) = now env
  ∧ now env - RateLimiter.lastUpdate (SpotifyDiscordBot.rateLimiter b)
    >= RateLimiter.threshold (SpotifyDiscordBot.rateLimiter b).
Proof.
  unfold sentStatus. destruct (poll_effect env b) as (_ & _ & [Hs|[[Hs _]|Hs]]).
  - rewrite Hs, skipn_all. discriminate.
  - rewrite Hs, drop_app_length. discriminate.
  - destruct Hs as (text & Hs & _ & Hl & Hge). auto.
Qed.

Lemma statusTimes_spaced envs :
  ∀ b prev,
    0 <= RateLimiter.threshold (SpotifyDiscordBot.rateLimiter b) →
    prev <= RateLimiter.lastUpdate (SpotifyDiscordBot.rateLimiter b) →
    spaced (RateLimiter.threshold (SpotifyDiscordBot.rateLimiter b)) prev
      (statusTimes envs b).
Proof.
  induction envs as [|env rest IH]; intros b prev Hth Hprev; [exact I|].
  cbn [statusTimes].
  destruct (poll_effect env b) as (Hthr & Hstamp & _).
  cbv zeta in Hthr, Hstamp.
  destruct (sentStatus env b) eqn:Hsent.
  - destruct (sentStatus_true env b Hsent) as [Hnow Hge].
    cbn [spaced]. split; [lia|].
    rewrite <- Hthr. apply IH; [now rewrite Hthr|lia].
  - rewrite <- Hthr. apply IH; [now rewrite Hthr|].
    destruct Hstamp as [->|[-> Hge]]; lia.
Qed.

Lemma pollRun_within128 envs :
  ∀ b, Forall within128 (sentBy b) → Forall within128 (sentBy (pollRun envs b)).
Proof.
  induction envs as [|env rest IH]; intros b Hb; [exact Hb|].
  cbn [pollRun]. apply IH.
  destruct (poll_effect env b) as (_ & _ & [->|[[-> _]|(text & -> & Hlen & _)]]).
  - exact Hb.
  - apply Forall_app. split; [exact Hb|]. constructor; [exact I|constructor].
  - apply Forall_app. split; [exact Hb|]. constructor; [exact Hlen|constructor].
Qed.

(** X12: over any run of polling cycles, whatever the three services
    answer and whatever the clock reads, two status requests are never put
    on the wire less than [threshold] apart, provided the threshold is not
    negative; and every status request of the run carries at most 128
    units. *)
Theorem pollRun_rate_limited :
  ∀ envs b,
    0 <= RateLimiter.threshold (SpotifyDiscordBot.rateLimiter b) →
    spaced (RateLimiter.threshold (SpotifyDiscordBot.rateLimiter b))
      (RateLimiter.lastUpdate (SpotifyDiscordBot.rateLimiter b))
      (statusTimes envs b)
    ∧ (Forall within128 (sentBy b) → Forall within128 (sentBy (pollRun envs b))).
Proof.
  intros envs b Hth. split.
  - now apply statusTimes_spaced.
  - apply pollRun_within128.
Qed.

Lemma pollRun_rate_limited_witness :
  statusTimes [ cycle 5000 (Some track_X) not_found_reply;
                cycle 5400 (Some track_X) not_found_reply;
                cycle 6000 (Some track_Y) not_found_reply ]
    (SpotifyDiscordBot.new default_config)
  = [5000; 6000]
  ∧ spaced 1000 0 [5000; 6000].
Proof.
  split; [reflexivity|].
  apply (proj1 (pollRun_rate_limited
                  [ cycle 5000 (Some track_X) not_found_reply;
                    cycle 5400 (Some track_X) not_found_reply;
                    cycle 6000 (Some track_Y) not_found_reply ]
                  (SpotifyDiscordBot.new default_config) ltac:(cbn; lia))).
Defined.

Lemma cycle_same_track :
  ∀ env b track,
    DiscordService.ready (SpotifyDiscordBot.discord b) = true →
    spotifyCurrentlyPlaying env = Return (Some track) →
    SpotifyDiscordBot.currentTrackId b = Some (Track.id track) →
    sameLyricsSide b (snd (SpotifyDiscordBot.poll env b))
    ∧ (Track.isPlaying track = false → snd (SpotifyDiscordBot.poll env b) = b).
Proof.
  intros env b track Hready Hplaying Hid.
  destruct (poll_track env b track Hready Hplaying) as (b1 & Hb1 & _ & _ & ->).
  rewrite bool_decide_eq_false_2 in Hb1 by (intros H; apply H; now rewrite Hid).
  subst b1. destruct (Track.isPlaying track).
  - split; [|discriminate].
    destruct (prepareStatusText_run env b track) as (text & ->). cbn [snd].
    apply gate_frame.
  - split; [reflexivity|reflexivity].
Qed.

(** X13: a cycle that finds the track it already follows asks LRCLIB
    nothing and leaves the cache, the current lyrics and the identity alone;
    when that track is paused the cycle also sends nothing to Discord and
    leaves the diff cursor, the rate limiter and the status sink as they
    were. *)
Theorem poll_same_track :
  ∀ env b track,
    DiscordService.ready (SpotifyDiscordBot.discord b) = true →
    spotifyCurrentlyPlaying env = Return (Some track) →
    SpotifyDiscordBot.currentTrackId b = Some (Track.id track) →
    let b' := snd (SpotifyDiscordBot.poll env b) in
    askedBy b' = askedBy b
    ∧ sameLyricsSide b b'
    ∧ (Track.isPlaying track = false →
       sentBy b' = sentBy b ∧ sameGateAndSink b b').
Proof.
  intros env b track Hready Hplaying Hid. cbv zeta.
  destruct (cycle_same_track env b track Hready Hplaying Hid) as [Hside Hpaused].
  split; [|split].
  - unfold askedBy. destruct Hside as (Hl & _). now rewrite Hl.
  - exact Hside.
  - intros Hp. rewrite (Hpaused Hp). now repeat split.
Qed.

Lemma poll_same_track_witness :
  askedBy (snd (SpotifyDiscordBot.poll (cycle 9000 (Some track_X) not_found_reply)
                  after_X))
  = askedBy after_X
  ∧ sentBy (snd (SpotifyDiscordBot.poll
                   (cycle 9000 (Some track_X_paused) not_found_reply) after_X))
    = sentBy after_X.
Proof.
  split.
  - destruct (poll_same_track (cycle 9000 (Some track_X) not_found_reply) after_X
                track_X eq_refl eq_refl eq_refl) as (Hl & _).
    exact Hl.
  - destruct (poll_same_track (cycle 9000 (Some track_X_paused) not_found_reply)
                after_X track_X_paused eq_refl eq_refl eq_refl) as (_ & _ & Hp).
    exact (proj1 (Hp eq_refl)).
Defined.

(** ** index.js: lyrics through the cache *)

Lemma cacheLookup_run env b track :
  SpotifyDiscordBot.cacheLookup track env b
  = if CACHE_ENABLED (CONFIG env)
    then
      match entryOf (SpotifyDiscordBot.lyricsCache b) (Track.name track)
              (Track.artists track) with
      | None => (Return None, b)
      | Some e =>
          if now env - LyricsCache.timestamp e >? LyricsCache.ttl
                                                    (SpotifyDiscordBot.lyricsCache b)
          then (Return None,
                SpotifyDiscordBot.setLyricsCache
                  {| LyricsCache.cache :=
                       delete (LyricsCache.generateKey (Track.name track)
                                 (Track.artists track))
                         (LyricsCache.cache (SpotifyDiscordBot.lyricsCache b));
                     LyricsCache.ttl :=
                       LyricsCache.ttl (SpotifyDiscordBot.lyricsCache b) |} b)
          else (Return (Some (LyricsCache.lyrics e)), b)
      end
    else (Return None, b).
Proof.
  unfold SpotifyDiscordBot.cacheLookup, bind, readConfig, ret,
    SpotifyDiscordBot.this_lyricsCache, zoom.
  destruct (CACHE_ENABLED (CONFIG env)); [|reflexivity].
  destruct (entryOf _ _ _) as [e|] eqn:E.
  - destruct (Z.gtb_spec (now env - LyricsCache.timestamp e)
                (LyricsCache.ttl (SpotifyDiscordBot.lyricsCache b))).
    + now rewrite (LyricsCache_get_expired _ _ _ _ _ E) by lia.
    + now rewrite (LyricsCache_get_fresh _ _ _ _ _ E), setLyricsCache_same by lia.
  - now rewrite (LyricsCache_get_missing _ _ _ _ E), setLyricsCache_same.
Qed.

Lemma fetchAndParseLyrics_synced env trackName artistName duration synced plain :
  lrclibGet env = synced_reply synced plain → synced ≠ [] →
  ∀ l, LyricsService.fetchAndParseLyrics trackName artistName duration env l
       = (Return (Some (parseLRC (Some synced))),
          {| LyricsService.requests :=
               LyricsService.requests l
               ++ [{| Lrclib.track_name := trackName;
                      Lrclib.artist_name := JS.trim (hd [] (JS.split 44 artistName));
                      Lrclib.duration_ms := duration |}] |}).
Proof.
  intros Hreply Hne l.
  unfold LyricsService.fetchAndParseLyrics, LyricsService.fetchLyrics, tryCatch, bind,
    LyricsService.client_get, ret.
  rewrite Hreply. unfold synced_reply. cbn.
  destruct synced as [|c synced]; [contradiction|]. reflexivity.
Qed.

(** A fresh entry of the cache becomes the current lyrics; nothing else
    changes. *)
Lemma fetchAndCacheLyrics_hit env b track e :
  CACHE_ENABLED (CONFIG env) = true →
  entryOf (SpotifyDiscordBot.lyricsCache b) (Track.name track) (Track.artists track)
  = Some e →
  now env - LyricsCache.timestamp e <= LyricsCache.ttl (SpotifyDiscordBot.lyricsCache b) →
  SpotifyDiscordBot.fetchAndCacheLyrics track env b
  = (Return tt, SpotifyDiscordBot.setCurrentLyrics (Some (LyricsCache.lyrics e)) b).
Proof.
  intros Hon He Hfresh.
  unfold SpotifyDiscordBot.fetchAndCacheLyrics, tryCatch, bind at 1.
  rewrite cacheLookup_run, Hon, He.
  destruct (Z.gtb_spec (now env - LyricsCache.timestamp e)
              (LyricsCache.ttl (SpotifyDiscordBot.lyricsCache b))); [lia|].
  reflexivity.
Qed.

(** Without a fresh entry the synced lyrics LRCLIB returns are parsed,
    become the current lyrics and, when the cache is enabled, are stored
    with the clock reading. *)
Lemma fetchAndCacheLyrics_fetched env b track synced plain :
  noFreshEntry env (SpotifyDiscordBot.lyricsCache b) track →
  lrclibGet env = synced_reply synced plain → synced ≠ [] →
  ∃ b', SpotifyDiscordBot.fetchAndCacheLyrics track env b = (Return tt, b')
        ∧ SpotifyDiscordBot.currentLyrics b' = Some (parseLRC (Some synced))
        ∧ askedBy b' = askedBy b ++ [queryFor track]
        ∧ LyricsCache.ttl (SpotifyDiscordBot.lyricsCache b')
          = LyricsCache.ttl (SpotifyDiscordBot.lyricsCache b)
        ∧ (if CACHE_ENABLED (CONFIG env)
           then entryOf (SpotifyDiscordBot.lyricsCache b') (Track.name track)
                  (Track.artists track)
                = Some {| LyricsCache.lyrics := parseLRC (Some synced);
                          LyricsCache.timestamp := now env |}
           else SpotifyDiscordBot.lyricsCache b' = SpotifyDiscordBot.lyricsCache b).
Proof.
  intros Hstale Hreply Hne. unfold noFreshEntry in Hstale.
  unfold SpotifyDiscordBot.fetchAndCacheLyrics, tryCatch, bind at 1.
  rewrite cacheLookup_run.
  destruct (CACHE_ENABLED (CONFIG env)) eqn:Hon.
  - destruct (entryOf _ _ _) as [e|] eqn:He.
    + destruct (Z.gtb_spec (now env - LyricsCache.timestamp e)
                  (LyricsCache.ttl (SpotifyDiscordBot.lyricsCache b))); [|lia].
      unfold bind at 1, SpotifyDiscordBot.this_lyrics, zoom.
      rewrite (fetchAndParseLyrics_synced env _ _ _ synced plain Hreply Hne).
      unfold bind, modify, readConfig, SpotifyDiscordBot.this_lyricsCache, zoom.
      rewrite Hon, LyricsCache_set_run.
      eexists. split; [reflexivity|]. cbn. repeat split.
      unfold entryOf. cbn. apply lookup_insert_eq.
    + unfold bind at 1, SpotifyDiscordBot.this_lyrics, zoom.
      rewrite (fetchAndParseLyrics_synced env _ _ _ synced plain Hreply Hne).
      unfold bind, modify, readConfig, SpotifyDiscordBot.this_lyricsCache, zoom.
      rewrite Hon, LyricsCache_set_run.
      eexists. split; [reflexivity|]. cbn. repeat split.
      unfold entryOf. cbn. apply lookup_insert_eq.
  - unfold bind at 1, SpotifyDiscordBot.this_lyrics, zoom.
    rewrite (fetchAndParseLyrics_synced env _ _ _ synced plain Hreply Hne).
    unfold bind, modify, readConfig, SpotifyDiscordBot.this_lyricsCache, zoom.
    rewrite Hon. eexists. split; [reflexivity|]. cbn. now repeat split.
Qed.

(** After the block run on a track change, the cycle only goes through
    the gate. *)
Lemma poll_after_change env b track :
  DiscordService.ready (SpotifyDiscordBot.discord b) = true →
  spotifyCurrentlyPlaying env = Return (Some track) →
  SpotifyDiscordBot.currentTrackId b ≠ Some (Track.id track) →
  sameLyricsSide
    (snd (SpotifyDiscordBot.fetchAndCacheLyrics track env
            (SpotifyDiscordBot.setDiffChecker DiffChecker.new
               (SpotifyDiscordBot.setCurrentLyrics None
                  (SpotifyDiscordBot.setCurrentTrackId (Some (Track.id track)) b)))))
    (snd (SpotifyDiscordBot.poll env b)).
Proof.
  intros Hready Hplaying Hnew.
  rewrite (poll_track_change env b track Hready Hplaying Hnew). cbv zeta.
  assert (Hb1 : snd (SpotifyDiscordBot.onTrackChange track env b)
                = snd (SpotifyDiscordBot.fetchAndCacheLyrics track env
                         (SpotifyDiscordBot.setDiffChecker DiffChecker.new
                            (SpotifyDiscordBot.setCurrentLyrics None
                               (SpotifyDiscordBot.setCurrentTrackId
                                  (Some (Track.id track)) b))))).
  { unfold SpotifyDiscordBot.onTrackChange, SpotifyDiscordBot.this_diffChecker,
      DiffChecker.reset, bind, modify, zoom. cbn beta iota. reflexivity. }
  rewrite Hb1.
  destruct (Track.isPlaying track); [|reflexivity].
  match goal with |- context [SpotifyDiscordBot.prepareStatusText track env ?b1] =>
    destruct (prepareStatusText_run env b1 track) as (text & ->)
  end.
  cbn [snd]. apply gate_frame.
Qed.

Lemma cycle_cache_hit :
  ∀ env b track e,
    DiscordService.ready (SpotifyDiscordBot.discord b) = true →
    spotifyCurrentlyPlaying env = Return (Some track) →
    SpotifyDiscordBot.currentTrackId b ≠ Some (Track.id track) →
    CACHE_ENABLED (CONFIG env) = true →
    entryOf (SpotifyDiscordBot.lyricsCache b) (Track.name track) (Track.artists track)
    = Some e →
    now env - LyricsCache.timestamp e
      <= LyricsCache.ttl (SpotifyDiscordBot.lyricsCache b) →
    let b' := snd (SpotifyDiscordBot.poll env b) in
    SpotifyDiscordBot.currentLyrics b' = Some (LyricsCache.lyrics e)
    ∧ askedBy b' = askedBy b
    ∧ SpotifyDiscordBot.lyricsCache b' = SpotifyDiscordBot.lyricsCache b
    ∧ SpotifyDiscordBot.currentTrackId b' = Some (Track.id track).
Proof.
  intros env b track e Hready Hplaying Hnew Hon He Hfresh. cbv zeta.
  destruct (poll_after_change env b track Hready Hplaying Hnew) as (Hl & Hc & Hcl & Hid).
  set (b0 := SpotifyDiscordBot.setDiffChecker _ _) in *.
  rewrite (fetchAndCacheLyrics_hit env b0 track e Hon He Hfresh) in Hl, Hc, Hcl, Hid.
  unfold askedBy. rewrite Hl, Hc, Hcl, Hid. now repeat split.
Qed.

Lemma cycle_fetches :
  ∀ env b track synced plain,
    DiscordService.ready (SpotifyDiscordBot.discord b) = true →
    spotifyCurrentlyPlaying env = Return (Some track) →
    SpotifyDiscordBot.currentTrackId b ≠ Some (Track.id track) →
    noFreshEntry env (SpotifyDiscordBot.lyricsCache b) track
    ∨ CACHE_ENABLED (CONFIG env) = false →
    lrclibGet env = synced_reply synced plain → synced ≠ [] →
    let b' := snd (SpotifyDiscordBot.poll env b) in
    SpotifyDiscordBot.currentLyrics b' = Some (parseLRC (Some synced))
    ∧ askedBy b' = askedBy b ++ [queryFor track]
    ∧ (if CACHE_ENABLED (CONFIG env)
       then entryOf (SpotifyDiscordBot.lyricsCache b') (Track.name track)
              (Track.artists track)
            = Some {| LyricsCache.lyrics := parseLRC (Some synced);
                      LyricsCache.timestamp := now env |}
       else SpotifyDiscordBot.lyricsCache b' = SpotifyDiscordBot.lyricsCache b).
Proof.
  intros env b track synced plain Hready Hplaying Hnew Hstale Hreply Hne. cbv zeta.
  destruct (poll_after_change env b track Hready Hplaying Hnew) as (Hl & Hc & Hcl & _).
  set (b0 := SpotifyDiscordBot.setDiffChecker _ _) in *.
  assert (Hrun : ∃ b1, SpotifyDiscordBot.fetchAndCacheLyrics track env b0 = (Return tt, b1)
                 ∧ SpotifyDiscordBot.currentLyrics b1 = Some (parseLRC (Some synced))
                 ∧ askedBy b1 = askedBy b ++ [queryFor track]
                 ∧ (if CACHE_ENABLED (CONFIG env)
                    then entryOf (SpotifyDiscordBot.lyricsCache b1) (Track.name track)
                           (Track.artists track)
                         = Some {| LyricsCache.lyrics := parseLRC (Some synced);
                                   LyricsCache.timestamp := now env |}
                    else SpotifyDiscordBot.lyricsCache b1
                         = SpotifyDiscordBot.lyricsCache b)).
  { destruct Hstale as [Hstale|Hoff].
    - destruct (fetchAndCacheLyrics_fetched env b0 track synced plain Hstale Hreply Hne)
        as (b1 & Hrun & H1 & H2 & _ & H4).
      exists b1. now repeat split.
    - unfold SpotifyDiscordBot.fetchAndCacheLyrics, tryCatch, bind at 1.
      rewrite cacheLookup_run, Hoff.
      unfold bind at 1, SpotifyDiscordBot.this_lyrics, zoom.
      rewrite (fetchAndParseLyrics_synced env _ _ _ synced plain Hreply Hne).
      unfold bind, modify, readConfig. rewrite Hoff.
      eexists. split; [reflexivity|]. cbn. now repeat split. }
  destruct Hrun as (b1 & Hrun & H1 & H2 & H3).
  rewrite Hrun in Hl, Hc, Hcl. cbn [snd] in Hl, Hc, Hcl.
  unfold askedBy in *. rewrite Hl, Hc, Hcl. now repeat split.
Qed.

(** X14: when a cycle finds a new track for which the enabled cache
    holds an entry that has not expired, the cached lyrics become the
    current lyrics, LRCLIB is not asked and the cache is left as it is. *)
Theorem poll_cache_hit :
  ∀ env b track e,
    DiscordService.ready (SpotifyDiscordBot.discord b) = true →
    spotifyCurrentlyPlaying env = Return (Some track) →
    SpotifyDiscordBot.currentTrackId b ≠ Some (Track.id track) →
    CACHE_ENABLED (CONFIG env) = true →
    entryOf (SpotifyDiscordBot.lyricsCache b) (Track.name track) (Track.artists track)
    = Some e →
    now env - LyricsCache.timestamp e
      <= LyricsCache.ttl (SpotifyDiscordBot.lyricsCache b) →
    let b' := snd (SpotifyDiscordBot.poll env b) in
    SpotifyDiscordBot.currentLyrics b' = Some (LyricsCache.lyrics e)
    ∧ askedBy b' = askedBy b
    ∧ SpotifyDiscordBot.lyricsCache b' = SpotifyDiscordBot.lyricsCache b
    ∧ SpotifyDiscordBot.currentTrackId b' = Some (Track.id track).
Proof. exact cycle_cache_hit. Qed.

Lemma poll_cache_hit_witness :
  let b := SpotifyDiscordBot.setLyricsCache
             (snd (LyricsCache.set (str "Song X") (str "Artist") abc_timeline
                     (at_time 1000) (LyricsCache.new LyricsCache.default_ttl)))
             (SpotifyDiscordBot.new default_config) in
  let b' := snd (SpotifyDiscordBot.poll (cycle 601000 (Some track_X) not_found_reply) b) in
  SpotifyDiscordBot.currentLyrics b' = Some abc_timeline ∧ askedBy b' = [].
Proof.
  cbv zeta.
  match goal with |- context [SpotifyDiscordBot.poll ?env ?b] =>
    destruct (poll_cache_hit env b track_X
                {| LyricsCache.lyrics := abc_timeline; LyricsCache.timestamp := 1000 |})
      as (Hcl & Hasked & _)
  end; try reflexivity.
  - discriminate.
  - split; [exact Hcl|exact Hasked].
Defined.

(** X15: when a cycle finds a new track for which the cache holds no
    entry or only an expired one (or the cache is disabled), and LRCLIB
    answers with non-empty synced lyrics for a track that is not
    instrumental, then exactly one request goes to LRCLIB, the parsed
    timeline becomes the current lyrics, even when it has no line, and, when
    the cache is enabled, it is stored under the track with the clock
    reading of the cycle. *)
Theorem poll_fetches_and_caches :
  ∀ env b track synced plain,
    DiscordService.ready (SpotifyDiscordBot.discord b) = true →
    spotifyCurrentlyPlaying env = Return (Some track) →
    SpotifyDiscordBot.currentTrackId b ≠ Some (Track.id track) →
    noFreshEntry env (SpotifyDiscordBot.lyricsCache b) track
    ∨ CACHE_ENABLED (CONFIG env) = false →
    lrclibGet env = synced_reply synced plain → synced ≠ [] →
    let b' := snd (SpotifyDiscordBot.poll env b) in
    SpotifyDiscordBot.currentLyrics b' = Some (parseLRC (Some synced))
    ∧ askedBy b' = askedBy b ++ [queryFor track]
    ∧ (if CACHE_ENABLED (CONFIG env)
       then entryOf (SpotifyDiscordBot.lyricsCache b') (Track.name track)
              (Track.artists track)
            = Some {| LyricsCache.lyrics := parseLRC (Some synced);
                      LyricsCache.timestamp := now env |}
       else SpotifyDiscordBot.lyricsCache b' = SpotifyDiscordBot.lyricsCache b).
Proof. exact cycle_fetches. Qed.

Lemma poll_fetches_and_caches_witness :
  let env := cycle 5000 (Some track_X) (synced_reply (str "no tag in here") None) in
  let b' := snd (SpotifyDiscordBot.poll env (SpotifyDiscordBot.new default_config)) in
  SpotifyDiscordBot.currentLyrics b' = Some []
  ∧ entryOf (SpotifyDiscordBot.lyricsCache b') (str "Song X") (str "Artist")
    = Some {| LyricsCache.lyrics := []; LyricsCache.timestamp := 5000 |}.
Proof.
  cbv zeta.
  match goal with |- context [SpotifyDiscordBot.poll ?env ?b] =>
    destruct (poll_fetches_and_caches env b track_X (str "no tag in here") None)
      as (Hcl & _ & Hentry)
  end; try reflexivity.
  - discriminate.
  - left. exact I.
  - discriminate.
  - split; [exact Hcl|exact Hentry].
Defined.

(** ** index.js: coming back to a track *)


#[local] Instance sameSettings_refl : Reflexive sameSettings.
Proof. intros b. now split. Qed.

#[local] Instance sameSettings_trans : Transitive sameSettings.
Proof. intros b1 b2 b3 [H1 H2] [K1 K2]. split; congruence. Qed.










(** ** lyricsService.js *)

Lemma fetchLyrics_run env l trackName artistName duration :
  LyricsService.fetchLyrics trackName artistName duration env l
  = (Return
       match lrclibGet env with
       | Resolved (Some data) =>
           if Lrclib.instrumental data
           then Some {| Lrclib.instrumental := true; Lrclib.syncedLyrics := None;
                        Lrclib.plainLyrics := None |}
           else Some {| Lrclib.instrumental := false;
                        Lrclib.syncedLyrics :=
                          LyricsService.orNull (Lrclib.syncedLyrics data);
                        Lrclib.plainLyrics :=
                          LyricsService.orNull (Lrclib.plainLyrics data) |}
       | _ => None
       end,
     {| LyricsService.requests :=
          LyricsService.requests l
          ++ [{| Lrclib.track_name := trackName;
                 Lrclib.artist_name := JS.trim (hd [] (JS.split 44 artistName));
                 Lrclib.duration_ms := duration |}] |}).
Proof.
  unfold LyricsService.fetchLyrics, tryCatch, bind, LyricsService.client_get, ret.
  destruct (lrclibGet env) as [[data|]|e]; [destruct (Lrclib.instrumental data)| |];
    try reflexivity.
  destruct e as [|status|]; try reflexivity.
  destruct status as [|p|p]; try reflexivity.
  repeat (destruct p as [p|p|]; try reflexivity).
Qed.

Lemma orNull_truthy (v : option jsstring) :
  JS.truthy (LyricsService.orNull v) = JS.truthy v
  ∧ (JS.truthy v = true → LyricsService.orNull v = v).
Proof.
  unfold LyricsService.orNull. destruct (JS.truthy v) eqn:E.
  - now rewrite E.
  - split; [reflexivity|discriminate].
Qed.

Lemma fetchAndParseLyrics_run env l trackName artistName duration :
  LyricsService.fetchAndParseLyrics trackName artistName duration env l
  = (Return
       match lrclibGet env with
       | Resolved (Some data) =>
           if negb (Lrclib.instrumental data) && JS.truthy (Lrclib.syncedLyrics data)
           then Some (parseLRC (Lrclib.syncedLyrics data))
           else None
       | _ => None
       end,
     {| LyricsService.requests :=
          LyricsService.requests l
          ++ [{| Lrclib.track_name := trackName;
                 Lrclib.artist_name := JS.trim (hd [] (JS.split 44 artistName));
                 Lrclib.duration_ms := duration |}] |}).
Proof.
  unfold LyricsService.fetchAndParseLyrics, bind at 1. rewrite fetchLyrics_run.
  destruct (lrclibGet env) as [[data|]|e]; try reflexivity.
  destruct (Lrclib.instrumental data); [reflexivity|]. cbn [negb andb Lrclib.syncedLyrics].
  destruct (orNull_truthy (Lrclib.syncedLyrics data)) as [Ht Hv]. rewrite Ht.
  destruct (JS.truthy (Lrclib.syncedLyrics data)) eqn:E; [|reflexivity].
  cbn [negb]. unfold tryCatch, ret. now rewrite Hv.
Qed.

(** X17: the resolution the orchestrator calls never throws and sends
    exactly one request to LRCLIB, whatever the answer. It returns a
    timeline exactly when LRCLIB answers with a body that is not marked
    instrumental and carries a non-empty synced text, and then the timeline
    is the parse of that text (possibly without any line); a timeout, a 404,
    any other failure, an empty body, an instrumental track and missing
    synced lyrics all give null. *)
Theorem fetchAndParseLyrics_resolves :
  ∀ env l trackName artistName duration,
    let r := LyricsService.fetchAndParseLyrics trackName artistName duration env l in
    LyricsService.requests (snd r)
    = LyricsService.requests l
      ++ [{| Lrclib.track_name := trackName;
             Lrclib.artist_name := JS.trim (hd [] (JS.split 44 artistName));
             Lrclib.duration_ms := duration |}]
    ∧ (∃ result, fst r = Return result)
    ∧ (∀ timeline,
         fst r = Return (Some timeline)
         ↔ ∃ data synced,
             lrclibGet env = Resolved (Some data)
             ∧ Lrclib.instrumental data = false
             ∧ Lrclib.syncedLyrics data = Some synced ∧ synced ≠ []
             ∧ timeline = parseLRC (Some synced)).
Proof.
  intros env l n a d. cbv zeta. rewrite fetchAndParseLyrics_run. cbn [fst snd].
  split; [reflexivity|]. split; [eexists; reflexivity|].
  intros timeline. split.
  - destruct (lrclibGet env) as [[data|]|e]; try discriminate.
    destruct (Lrclib.instrumental data) eqn:Hi; [discriminate|]. cbn [negb andb].
    destruct (Lrclib.syncedLyrics data) as [[|c synced]|] eqn:Hs; try discriminate.
    cbn [JS.truthy]. intros [= <-].
    exists data, (c :: synced). repeat split; try assumption. discriminate.
  - intros (data & synced & -> & Hi & Hs & Hne & ->). rewrite Hi, Hs.
    destruct synced; [contradiction|reflexivity].
Qed.

Lemma nonDecreasing_lookup (lyrics : list LyricLine) :
  (∀ (i : nat) a b,
     lyrics !! i = Some a → lyrics !! S i = Some b → time a <= time b)
  → nonDecreasing lyrics = true.
Proof.
  induction lyrics as [|a [|b rest] IH]; intros H; try reflexivity.
  cbn [nonDecreasing]. apply andb_true_intro. split.
  - apply Z.leb_le. apply (H 0%nat); reflexivity.
  - apply IH. intros i x y Hx Hy. apply (H (S i)); assumption.
Qed.

(** ** Numbers: powers of two *)

Lemma p2_pos (z : Z) : (0 < 2 ^ z)%Q.
Proof. apply Qpower_0_lt. reflexivity. Qed.

Lemma p2_plus (a b : Z) : (2 ^ (a + b) == 2 ^ a * 2 ^ b)%Q.
Proof. apply Qpower_plus. discriminate. Qed.

Lemma p2_succ (a : Z) : (2 ^ (a + 1) == 2 * 2 ^ a)%Q.
Proof. rewrite p2_plus. change (2 ^ 1)%Q with 2%Q. ring. Qed.

Lemma p2_cancel (q : Z) : (2 ^ (- q) * 2 ^ q == 1)%Q.
Proof. rewrite <- p2_plus. replace (- q + q) with 0 by lia. reflexivity. Qed.

Lemma p2_le (a b : Z) : a <= b → (2 ^ a <= 2 ^ b)%Q.
Proof. intros H. apply Qpower_le_compat_l; [exact H|]. discriminate. Qed.

Lemma p2_lt_inv (a b : Z) : (2 ^ a < 2 ^ b)%Q → a < b.
Proof. intros H. apply (Qpower_lt_compat_l_inv 2); [exact H|reflexivity]. Qed.

Lemma p2_Z (n : Z) : 0 <= n → (2 ^ n == inject_Z (2 ^ n))%Q.
Proof. intros H. symmetry. apply (Zpower_Qpower 2 n H). Qed.

(** ** Rounding to the nearest integer, ties to even *)

Lemma roundTiesToEven_floor (x : Q) :
  Qfloor x <= JS.roundTiesToEven x <= Qfloor x + 1.
Proof.
  unfold JS.roundTiesToEven. cbv zeta.
  destruct (Qcompare _ _); [destruct (Z.even _)| |]; lia.
Qed.

Lemma roundTiesToEven_comp (x y : Q) :
  (x == y)%Q → JS.roundTiesToEven x = JS.roundTiesToEven y.
Proof.
  intros E. unfold JS.roundTiesToEven. cbv zeta.
  rewrite (Qfloor_comp _ _ E).
  assert (Ec : (x - inject_Z (Qfloor y) ?= 1 # 2)%Q = (y - inject_Z (Qfloor y) ?= 1 # 2)%Q).
  { apply Qcompare_comp; [now rewrite E|reflexivity]. }
  now rewrite Ec.
Qed.

Lemma roundTiesToEven_Z (k : Z) : JS.roundTiesToEven (inject_Z k) = k.
Proof.
  unfold JS.roundTiesToEven. cbv zeta. rewrite Qfloor_Z.
  assert (E : (inject_Z k - inject_Z k ?= 1 # 2)%Q = Lt).
  { apply (proj1 (Qlt_alt _ _)). lra. }
  now rewrite E.
Qed.

Lemma roundTiesToEven_le_Z (x : Q) (k : Z) :
  (x <= inject_Z k)%Q → JS.roundTiesToEven x <= k.
Proof.
  intros H. pose proof (Qfloor_resp_le _ _ H) as Hf. rewrite Qfloor_Z in Hf.
  destruct (Z.eq_dec (Qfloor x) k) as [E|N].
  - assert (Ex : (x == inject_Z k)%Q).
    { pose proof (Qfloor_le x) as Hl. rewrite E in Hl. lra. }
    rewrite (roundTiesToEven_comp _ _ Ex). rewrite roundTiesToEven_Z. lia.
  - pose proof (roundTiesToEven_floor x). lia.
Qed.

Lemma roundTiesToEven_ge_Z (x : Q) (k : Z) :
  (inject_Z k <= x)%Q → k <= JS.roundTiesToEven x.
Proof.
  intros H. pose proof (Qfloor_resp_le _ _ H) as Hf. rewrite Qfloor_Z in Hf.
  pose proof (roundTiesToEven_floor x). lia.
Qed.

Lemma roundTiesToEven_mono (x y : Q) :
  (x <= y)%Q → JS.roundTiesToEven x <= JS.roundTiesToEven y.
Proof.
  intros H. pose proof (Qfloor_resp_le _ _ H) as Hf.
  destruct (Z.eq_dec (Qfloor x) (Qfloor y)) as [E|N].
  - unfold JS.roundTiesToEven. cbv zeta. rewrite E.
    destruct (Qcompare_spec (x - inject_Z (Qfloor y)) (1 # 2)) as [Hx|Hx|Hx];
      destruct (Qcompare_spec (y - inject_Z (Qfloor y)) (1 # 2)) as [Hy|Hy|Hy];
      try lia; try (destruct (Z.even (Qfloor y)); lia); exfalso; lra.
  - pose proof (roundTiesToEven_floor x). pose proof (roundTiesToEven_floor y). lia.
Qed.

Lemma roundTiesToEven_upper (x : Q) :
  (inject_Z (JS.roundTiesToEven x) <= x + (1 # 2))%Q.
Proof.
  unfold JS.roundTiesToEven. cbv zeta.
  pose proof (Qfloor_le x) as Hl.
  destruct (Qcompare_spec (x - inject_Z (Qfloor x)) (1 # 2)) as [Hx|Hx|Hx].
  - destruct (Z.even _); [lra|]. rewrite inject_Z_plus. change (inject_Z 1) with 1%Q. lra.
  - lra.
  - rewrite inject_Z_plus. change (inject_Z 1) with 1%Q. lra.
Qed.

(** ** The binade of a positive rational *)

Lemma Zlog2_Q (n : Z) :
  0 < n → (2 ^ Z.log2 n <= inject_Z n)%Q ∧ (inject_Z n < 2 * 2 ^ Z.log2 n)%Q.
Proof.
  intros Hn. destruct (Z.log2_spec n Hn) as [Hlo Hhi].
  pose proof (Z.log2_nonneg n) as H0.
  rewrite (p2_Z _ H0). split.
  - rewrite <- Zle_Qle. exact Hlo.
  - change 2%Q with (inject_Z 2) at 1. rewrite <- inject_Z_mult, <- Zlt_Qlt.
    rewrite Z.pow_succ_r in Hhi by exact H0. exact Hhi.
Qed.

Lemma ilog2_spec (x : Q) :
  (0 < x)%Q → (2 ^ JS.ilog2 x <= x)%Q ∧ (x < 2 ^ (JS.ilog2 x + 1))%Q.
Proof.
  intros Hx. unfold JS.ilog2. cbv zeta.
  set (a := Qnum x). set (b := Z.pos (Qden x)).
  assert (Ha : 0 < a).
  { unfold a. destruct x as [n d]. unfold Qlt in Hx. cbn in *. lia. }
  assert (Hb : 0 < b) by (unfold b; lia).
  destruct (Zlog2_Q a Ha) as [Ha1 Ha2]. destruct (Zlog2_Q b Hb) as [Hb1 Hb2].
  assert (Hxab : (x * inject_Z b == inject_Z a)%Q).
  { unfold a, b. destruct x as [n d]. unfold Qeq, Qmult, inject_Z. cbn. lia. }
  assert (HB : (0 < inject_Z b)%Q) by (change 0%Q with (inject_Z 0); rewrite <- Zlt_Qlt; lia).
  set (e := Z.log2 a - Z.log2 b).
  assert (HE : (2 ^ e * 2 ^ Z.log2 b == 2 ^ Z.log2 a)%Q).
  { rewrite <- p2_plus. unfold e. now replace (Z.log2 a - Z.log2 b + Z.log2 b) with (Z.log2 a) by lia. }
  pose proof (p2_pos e) as HEpos. pose proof (p2_pos (Z.log2 b)) as HPB.
  pose proof (p2_pos (Z.log2 a)) as HPA.
  (* x < 2 * 2^e *)
  assert (Hup : (x < 2 * 2 ^ e)%Q).
  { apply Qmult_lt_r with (inject_Z b); [exact HB|]. rewrite Hxab.
    apply Qlt_le_trans with (2 * 2 ^ Z.log2 a)%Q; [exact Ha2|].
    rewrite <- HE. 
    assert (H : (2 * (2 ^ e * 2 ^ Z.log2 b) == 2 * 2 ^ e * 2 ^ Z.log2 b)%Q) by ring.
    rewrite H. apply Qmult_le_l; [lra|exact Hb1]. }
  assert (Hlow : (2 ^ e <= 2 * x)%Q).
  { apply Qmult_le_r with (2 ^ Z.log2 b)%Q; [exact HPB|]. rewrite HE.
    apply Qle_trans with (inject_Z a); [exact Ha1|]. rewrite <- Hxab.
    assert (H : (2 * x * 2 ^ Z.log2 b == x * (2 * 2 ^ Z.log2 b))%Q) by ring.
    rewrite H. apply Qmult_le_l; [exact Hx|]. lra. }
  destruct (Qle_bool (2 ^ e) x) eqn:Hc.
  - apply Qle_bool_iff in Hc. split; [exact Hc|]. now rewrite p2_succ.
  - assert (Hlt : (x < 2 ^ e)%Q).
    { apply Qnot_le_lt. intros H. apply Qle_bool_iff in H. congruence. }
    replace (e - 1 + 1) with e by lia. split; [|exact Hlt].
    assert (H2 : (2 ^ e == 2 * 2 ^ (e - 1))%Q).
    { rewrite <- p2_succ. now replace (e - 1 + 1) with e by lia. }
    lra.
Qed.

Lemma ilog2_mono (x y : Q) :
  (0 < x)%Q → (x <= y)%Q → JS.ilog2 x <= JS.ilog2 y.
Proof.
  intros Hx Hxy.
  destruct (ilog2_spec x Hx) as [Hx1 _].
  destruct (ilog2_spec y) as [_ Hy2]; [lra|].
  assert (H : (2 ^ JS.ilog2 x < 2 ^ (JS.ilog2 y + 1))%Q) by lra.
  apply p2_lt_inv in H. lia.
Qed.

Lemma ilog2_lt (x : Q) (k : Z) :
  (0 < x)%Q → (x < 2 ^ k)%Q → JS.ilog2 x < k.
Proof.
  intros Hx Hk. destruct (ilog2_spec x Hx) as [H1 _].
  apply p2_lt_inv. lra.
Qed.

Lemma ilog2_ge (x : Q) (k : Z) :
  (2 ^ k <= x)%Q → k <= JS.ilog2 x.
Proof.
  intros Hk. pose proof (p2_pos k) as Hp.
  destruct (ilog2_spec x) as [_ H2]; [lra|].
  assert (H : (2 ^ k < 2 ^ (JS.ilog2 x + 1))%Q) by lra.
  apply p2_lt_inv in H. lia.
Qed.

(** ** Rounding to binary64 *)

Lemma binary64_pos (x : Q) :
  (0 < x)%Q →
  JS.binary64 x
  = (inject_Z (JS.roundTiesToEven (x * 2 ^ (- JS.quantum x))) * 2 ^ JS.quantum x)%Q.
Proof.
  intros Hx. unfold JS.binary64.
  assert (E : (x ?= 0)%Q = Gt) by (apply (proj1 (Qgt_alt _ _)); exact Hx).
  now rewrite E.
Qed.

Lemma binary64_zero (x : Q) : (x == 0)%Q → JS.binary64 x = 0%Q.
Proof.
  intros Hx. unfold JS.binary64.
  assert (E : (x ?= 0)%Q = Eq) by (apply (proj1 (Qeq_alt _ _)); exact Hx).
  now rewrite E.
Qed.

(** What rounding gives lies on the same side of every multiple of the
    quantum as what is rounded. *)
Lemma binary64_le_multiple (x : Q) (k : Z) :
  (0 < x)%Q → (x <= inject_Z k * 2 ^ JS.quantum x)%Q →
  (JS.binary64 x <= inject_Z k * 2 ^ JS.quantum x)%Q.
Proof.
  intros Hx Hk. rewrite (binary64_pos x Hx).
  pose proof (p2_pos (JS.quantum x)) as Hq. pose proof (p2_pos (- JS.quantum x)) as Hq'.
  pose proof (p2_cancel (JS.quantum x)) as Hc.
  apply Qmult_le_compat_r; [|lra]. rewrite <- Zle_Qle.
  apply roundTiesToEven_le_Z.
  apply Qle_trans with (inject_Z k * 2 ^ JS.quantum x * 2 ^ (- JS.quantum x))%Q.
  - apply Qmult_le_compat_r; [exact Hk|lra].
  - assert (H : (inject_Z k * 2 ^ JS.quantum x * 2 ^ (- JS.quantum x)
                 == inject_Z k * (2 ^ (- JS.quantum x) * 2 ^ JS.quantum x))%Q) by ring.
    rewrite H, Hc. lra.
Qed.

Lemma binary64_ge_multiple (x : Q) (k : Z) :
  (0 < x)%Q → (inject_Z k * 2 ^ JS.quantum x <= x)%Q →
  (inject_Z k * 2 ^ JS.quantum x <= JS.binary64 x)%Q.
Proof.
  intros Hx Hk. rewrite (binary64_pos x Hx).
  pose proof (p2_pos (JS.quantum x)) as Hq. pose proof (p2_pos (- JS.quantum x)) as Hq'.
  pose proof (p2_cancel (JS.quantum x)) as Hc.
  apply Qmult_le_compat_r; [|lra]. rewrite <- Zle_Qle.
  apply roundTiesToEven_ge_Z.
  apply Qle_trans with (inject_Z k * 2 ^ JS.quantum x * 2 ^ (- JS.quantum x))%Q.
  - assert (H : (inject_Z k * 2 ^ JS.quantum x * 2 ^ (- JS.quantum x)
                 == inject_Z k * (2 ^ (- JS.quantum x) * 2 ^ JS.quantum x))%Q) by ring.
    rewrite H, Hc. lra.
  - apply Qmult_le_compat_r; [exact Hk|lra].
Qed.

Lemma roundTiesToEven_lower (x : Q) :
  (x - (1 # 2) <= inject_Z (JS.roundTiesToEven x))%Q.
Proof.
  unfold JS.roundTiesToEven. cbv zeta.
  pose proof (Qlt_floor x) as Hl. rewrite inject_Z_plus in Hl.
  change (inject_Z 1) with 1%Q in Hl.
  destruct (Qcompare_spec (x - inject_Z (Qfloor x)) (1 # 2)) as [Hx|Hx|Hx].
  - destruct (Z.even _); [lra|]. rewrite inject_Z_plus. change (inject_Z 1) with 1%Q. lra.
  - lra.
  - rewrite inject_Z_plus. change (inject_Z 1) with 1%Q. lra.
Qed.

(** Rounding a positive rational gives a multiple of the quantum of its
    binade that is at most half a quantum away. *)
Lemma binary64_nearest (x : Q) :
  (0 < x)%Q →
  ∃ m : Z,
    (JS.binary64 x == inject_Z m * 2 ^ JS.quantum x)%Q
    ∧ (x - (1 # 2) * 2 ^ JS.quantum x <= JS.binary64 x)%Q
    ∧ (JS.binary64 x <= x + (1 # 2) * 2 ^ JS.quantum x)%Q.
Proof.
  intros Hx. rewrite (binary64_pos x Hx).
  set (q := JS.quantum x). set (y := (x * 2 ^ (- q))%Q).
  exists (JS.roundTiesToEven y). split; [reflexivity|].
  pose proof (p2_pos q) as Hq. pose proof (p2_cancel q) as Hc.
  pose proof (roundTiesToEven_lower y) as Hlo.
  pose proof (roundTiesToEven_upper y) as Hup.
  assert (Hy : (y * 2 ^ q == x)%Q).
  { unfold y.
    assert (H : (x * 2 ^ (- q) * 2 ^ q == x * (2 ^ (- q) * 2 ^ q))%Q) by ring.
    rewrite H, Hc. ring. }
  split.
  - apply Qle_trans with ((y - (1 # 2)) * 2 ^ q)%Q.
    + assert (H : ((y - (1 # 2)) * 2 ^ q == y * 2 ^ q - (1 # 2) * 2 ^ q)%Q) by ring.
      rewrite H, Hy. apply Qle_refl.
    + apply Qmult_le_compat_r; [exact Hlo|lra].
  - apply Qle_trans with ((y + (1 # 2)) * 2 ^ q)%Q.
    + apply Qmult_le_compat_r; [exact Hup|lra].
    + assert (H : ((y + (1 # 2)) * 2 ^ q == y * 2 ^ q + (1 # 2) * 2 ^ q)%Q) by ring.
      rewrite H, Hy. apply Qle_refl.
Qed.

Lemma quantum_mono (x y : Q) :
  (0 < x)%Q → (x <= y)%Q → JS.quantum x <= JS.quantum y.
Proof.
  intros Hx Hxy. unfold JS.quantum. pose proof (ilog2_mono x y Hx Hxy). lia.
Qed.

Lemma binary64_nonneg (x : Q) : (0 <= x)%Q → (0 <= JS.binary64 x)%Q.
Proof.
  intros Hx. destruct (Qlt_le_dec 0 x) as [Hpos|Hneg].
  - pose proof (binary64_ge_multiple x 0 Hpos) as H.
    assert (E : (inject_Z 0 * 2 ^ JS.quantum x == 0)%Q) by (change (inject_Z 0) with 0%Q; ring).
    rewrite E in H. apply H. lra.
  - rewrite binary64_zero; [lra|]. lra.
Qed.

Lemma binary64_mono (x y : Q) :
  (0 <= x)%Q → (x <= y)%Q → (JS.binary64 x <= JS.binary64 y)%Q.
Proof.
  intros Hx Hxy. destruct (Qlt_le_dec 0 x) as [Hpos|Hzero].
  2:{ rewrite (binary64_zero x) by lra. apply binary64_nonneg. lra. }
  assert (Hy : (0 < y)%Q) by lra.
  pose proof (quantum_mono x y Hpos Hxy) as Hq.
  destruct (Z.eq_dec (JS.quantum x) (JS.quantum y)) as [E|N].
  - rewrite (binary64_pos x Hpos), (binary64_pos y Hy), E.
    pose proof (p2_pos (JS.quantum y)). pose proof (p2_pos (- JS.quantum y)).
    apply Qmult_le_compat_r; [|lra]. rewrite <- Zle_Qle.
    apply roundTiesToEven_mono. apply Qmult_le_compat_r; [exact Hxy|lra].
  - assert (Hlt : JS.quantum x < JS.quantum y) by lia.
    set (ey := JS.ilog2 y).
    assert (Hqy : JS.quantum y = ey - 52) by (unfold JS.quantum in *; fold ey in Hlt |- *; lia).
    assert (Hex : JS.ilog2 x < ey) by (unfold JS.quantum in *; fold ey in Hlt; lia).
    destruct (ilog2_spec x Hpos) as [_ Hx2]. destruct (ilog2_spec y Hy) as [Hy1 _].
    fold ey in Hy1.
    apply Qle_trans with (2 ^ ey)%Q.
    + assert (Hk : 0 <= ey - JS.quantum x) by lia.
      assert (E : (inject_Z (2 ^ (ey - JS.quantum x)) * 2 ^ JS.quantum x == 2 ^ ey)%Q).
      { rewrite <- (p2_Z _ Hk), <- p2_plus.
        now replace (ey - JS.quantum x + JS.quantum x) with ey by lia. }
      rewrite <- E. apply binary64_le_multiple; [exact Hpos|]. rewrite E.
      apply Qle_trans with (2 ^ (JS.ilog2 x + 1))%Q; [lra|]. apply p2_le. lia.
    + assert (E : (inject_Z (2 ^ 52) * 2 ^ JS.quantum y == 2 ^ ey)%Q).
      { rewrite <- (p2_Z 52) by lia. rewrite <- p2_plus, Hqy.
        now replace (52 + (ey - 52)) with ey by lia. }
      rewrite <- E. apply binary64_ge_multiple; [exact Hy|]. rewrite E. exact Hy1.
Qed.

Lemma binary64_Z (d : Z) :
  0 <= d < 2 ^ 53 → (JS.binary64 (inject_Z d) == inject_Z d)%Q.
Proof.
  intros [H0 H53]. destruct (Z.eq_dec d 0) as [->|Hne].
  { rewrite binary64_zero; reflexivity. }
  assert (Hpos : (0 < inject_Z d)%Q).
  { change 0%Q with (inject_Z 0). rewrite <- Zlt_Qlt. lia. }
  set (x := inject_Z d) in *. set (e := JS.ilog2 x).
  assert (He0 : 0 <= e).
  { apply ilog2_ge. change (2 ^ 0)%Q with (inject_Z 1). unfold x. rewrite <- Zle_Qle. lia. }
  assert (He53 : e < 53).
  { apply ilog2_lt; [exact Hpos|]. rewrite (p2_Z 53) by lia. unfold x.
    rewrite <- Zlt_Qlt. exact H53. }
  assert (Hq : JS.quantum x = e - 52) by (unfold JS.quantum; fold e; lia).
  assert (E : (inject_Z (d * 2 ^ (52 - e)) * 2 ^ JS.quantum x == x)%Q).
  { rewrite inject_Z_mult, <- (p2_Z (52 - e)) by lia. rewrite Hq. fold x.
    assert (H : (x * 2 ^ (52 - e) * 2 ^ (e - 52) == x * (2 ^ (52 - e) * 2 ^ (e - 52)))%Q) by ring.
    rewrite H, <- p2_plus. replace (52 - e + (e - 52)) with 0 by lia.
    change (2 ^ 0)%Q with 1%Q. ring. }
  apply Qle_antisym.
  - rewrite <- E at 2. apply binary64_le_multiple; [exact Hpos|]. rewrite E. apply Qle_refl.
  - rewrite <- E at 1. apply binary64_ge_multiple; [exact Hpos|]. rewrite E. apply Qle_refl.
Qed.

Lemma binary64_upper (x : Q) :
  (2 ^ (-1022) <= x)%Q → (JS.binary64 x <= x + x * 2 ^ (-53))%Q.
Proof.
  intros Hx. pose proof (p2_pos (-1022)) as Hp.
  assert (Hpos : (0 < x)%Q) by lra.
  set (e := JS.ilog2 x).
  assert (He : -1022 <= e) by (apply ilog2_ge; exact Hx).
  assert (Hq : JS.quantum x = e - 52) by (unfold JS.quantum; fold e; lia).
  destruct (ilog2_spec x Hpos) as [Hx1 _]. fold e in Hx1.
  rewrite (binary64_pos x Hpos), Hq.
  pose proof (roundTiesToEven_upper (x * 2 ^ (- (e - 52)))) as Hr.
  pose proof (p2_pos (e - 52)) as Hq1. pose proof (p2_cancel (e - 52)) as Hc.
  pose proof (p2_pos (-53)) as H53.
  apply Qle_trans with ((x * 2 ^ (- (e - 52)) + (1 # 2)) * 2 ^ (e - 52))%Q.
  - apply Qmult_le_compat_r; [exact Hr|lra].
  - assert (H : ((x * 2 ^ (- (e - 52)) + (1 # 2)) * 2 ^ (e - 52)
                 == x * (2 ^ (- (e - 52)) * 2 ^ (e - 52)) + (1 # 2) * 2 ^ (e - 52))%Q) by ring.
    rewrite H, Hc.
    assert (H2 : ((1 # 2) * 2 ^ (e - 52) == 2 ^ e * 2 ^ (-53))%Q).
    { rewrite <- p2_plus. replace (e + -53) with (e - 52 + -1) by lia.
      rewrite p2_plus. change (2 ^ (-1))%Q with (/ 2)%Q. field. }
    rewrite H2.
    assert (H3 : (2 ^ e * 2 ^ (-53) <= x * 2 ^ (-53))%Q).
    { apply Qmult_le_compat_r; [exact Hx1|lra]. }
    lra.
Qed.

Lemma Math_round_mono (x y : Q) :
  (x <= y)%Q → JS.Math_round x <= JS.Math_round y.
Proof.
  intros H. unfold JS.Math_round. apply Qfloor_resp_le.
  apply Qplus_le_compat; [exact H|apply Qle_refl].
Qed.

Lemma Math_round_Z (d : Z) : JS.Math_round (inject_Z d) = d.
Proof.
  unfold JS.Math_round. apply Z.le_antisymm.
  - apply Z.lt_succ_r. rewrite Zlt_Qlt.
    apply Qle_lt_trans with (inject_Z d + (1 # 2))%Q; [apply Qfloor_le|].
    unfold Z.succ. rewrite inject_Z_plus. change (inject_Z 1) with 1%Q. lra.
  - rewrite <- (Qfloor_Z d) at 1. apply Qfloor_resp_le. lra.
Qed.

Lemma Math_round_comp (x y : Q) : (x == y)%Q → JS.Math_round x = JS.Math_round y.
Proof. intros E. unfold JS.Math_round. apply Qfloor_comp. now rewrite E. Qed.

Lemma timePerLine_nonneg (duration : Z) (n : nat) :
  0 <= duration → (0 < n)%nat →
  (0 <= JS.div (inject_Z duration) (inject_Z (Z.of_nat n)))%Q.
Proof.
  intros Hd Hn. unfold JS.div. apply binary64_nonneg. apply Qle_shift_div_l.
  - change 0%Q with (inject_Z 0). rewrite <- Zlt_Qlt. lia.
  - rewrite Qmult_0_l. change 0%Q with (inject_Z 0). rewrite <- Zle_Qle. exact Hd.
Qed.

Lemma offset_mono (duration : Z) (n i j : nat) :
  0 <= duration → (0 < n)%nat → (i <= j)%nat →
  offset duration n i <= offset duration n j.
Proof.
  intros Hd Hn Hij. unfold offset.
  pose proof (timePerLine_nonneg duration n Hd Hn) as Ht. unfold JS.mul.
  apply Math_round_mono, binary64_mono.
  - apply Qmult_le_0_compat; [|exact Ht]. change 0%Q with (inject_Z 0).
    rewrite <- Zle_Qle. lia.
  - apply Qmult_le_compat_r; [|exact Ht]. rewrite <- Zle_Qle. lia.
Qed.

Lemma offset_first (duration : Z) (n : nat) : offset duration n 0 = 0.
Proof.
  unfold offset, JS.mul. rewrite binary64_zero; [reflexivity|].
  change (inject_Z (Z.of_nat 0)) with 0%Q. ring.
Qed.

Lemma offset_bound (duration : Z) (n i : nat) :
  0 <= duration < 2 ^ 53 → (i < n)%nat → Z.of_nat n <= 2 ^ 53 →
  0 <= offset duration n i <= duration.
Proof.
  intros [Hd H53] Hi Hn. split.
  - rewrite <- (offset_first duration n). apply offset_mono; [exact Hd|lia|lia].
  - unfold offset, JS.mul. rewrite <- (Math_round_Z duration) at 2.
    apply Math_round_mono.
    apply Qle_trans with (JS.binary64 (inject_Z duration));
      [|rewrite binary64_Z by lia; apply Qle_refl].
    set (N := inject_Z (Z.of_nat n)). set (I := inject_Z (Z.of_nat i)).
    set (D := inject_Z duration). set (t := JS.div D N).
    assert (HN : (1 <= N)%Q).
    { unfold N. change 1%Q with (inject_Z 1). rewrite <- Zle_Qle. lia. }
    assert (HI : (0 <= I)%Q ∧ (I <= N - 1)%Q).
    { unfold I, N. split.
      - change 0%Q with (inject_Z 0). rewrite <- Zle_Qle. lia.
      - change 1%Q with (inject_Z 1). unfold Qminus. rewrite <- inject_Z_opp, <- inject_Z_plus, <- Zle_Qle. lia. }
    assert (HD : (0 <= D)%Q).
    { unfold D. change 0%Q with (inject_Z 0). rewrite <- Zle_Qle. lia. }
    assert (Ht0 : (0 <= t)%Q) by (apply timePerLine_nonneg; [exact Hd|lia]).
    assert (HrN : (D / N * N == D)%Q) by (field; lra).
    assert (HN53 : (N <= 2 ^ 53)%Q).
    { rewrite (p2_Z 53) by lia. unfold N. rewrite <- Zle_Qle. exact Hn. }
    assert (Hu : (2 ^ 53 * 2 ^ (-53) == 1)%Q) by reflexivity.
    pose proof (p2_pos (-53)) as Hu0.
    apply binary64_mono.
    + apply Qmult_le_0_compat; tauto.
    + destruct (Z.eq_dec duration 0) as [E0|Hne].
      * assert (Et : t = 0%Q).
        { unfold t, JS.div. apply binary64_zero. unfold D. rewrite E0. field. lra. }
        rewrite Et. lra.
      * assert (Hr : (2 ^ (-1022) <= D / N)%Q).
        { apply Qle_trans with (2 ^ (-53))%Q; [apply p2_le; lia|].
          apply Qle_shift_div_l; [lra|].
          apply Qle_trans with 1%Q.
          - rewrite <- Hu. rewrite Qmult_comm. apply Qmult_le_compat_r; [exact HN53|lra].
          - unfold D. change 1%Q with (inject_Z 1). rewrite <- Zle_Qle. lia. }
        pose proof (binary64_upper (D / N) Hr) as Hup.
        change (JS.binary64 (D / N)) with t in Hup.
        set (r := (D / N)%Q) in *.
        assert (Hr0 : (0 <= r)%Q) by (pose proof (p2_pos (-1022)); lra).
        apply Qle_trans with ((N - 1) * t)%Q.
        { apply Qmult_le_compat_r; tauto. }
        apply Qle_trans with ((N - 1) * (r + r * 2 ^ (-53)))%Q.
        { rewrite (Qmult_comm (N - 1) t), (Qmult_comm (N - 1) (r + r * 2 ^ (-53))).
          apply Qmult_le_compat_r; [exact Hup|lra]. }
        rewrite <- HrN.
        assert (Hs : ((N - 1) * (r + r * 2 ^ (-53))
                      == r * N - r * (1 - (N - 1) * 2 ^ (-53)))%Q) by ring.
        rewrite Hs.
        assert (Hk : (0 <= r * (1 - (N - 1) * 2 ^ (-53)))%Q).
        { apply Qmult_le_0_compat; [exact Hr0|].
          assert (Hm : ((N - 1) * 2 ^ (-53) <= 2 ^ 53 * 2 ^ (-53))%Q).
          { apply Qmult_le_compat_r; lra. }
          lra. }
        lra.
Qed.

Lemma imap_timed_lyrics (g : nat → Z) (lines : list jsstring) :
  map lyric (imap (λ index text, {| time := g index; lyric := text |}) lines) = lines.
Proof.
  revert g. induction lines as [|line lines IH]; intros g; [reflexivity|].
  rewrite imap_cons. cbn [map lyric]. f_equal. apply (IH (g ∘ S)).
Qed.

Lemma convertPlainToTimed_unfold (plainLyrics : jsstring) (duration : Z) :
  LyricsService.convertPlainToTimed plainLyrics duration
  = let lines := filter (fun line => 0 <? Z.of_nat (length line))
                        (map JS.trim (JS.split 10 plainLyrics)) in
    imap (λ index text,
            {| time := offset duration (length lines) index; lyric := text |})
         lines.
Proof.
  unfold LyricsService.convertPlainToTimed, offset. cbv zeta.
  destruct (filter _ _); reflexivity.
Qed.

(** The lines of a text are no longer, taken together, than the text, and
    a line that is not blank holds a code unit of it. *)
Lemma length_trimStart (s : jsstring) : (length (JS.trimStart s) ≤ length s)%nat.
Proof.
  induction s as [|c s IH]; [reflexivity|]. cbn [JS.trimStart].
  destruct (JS.isWhiteSpace c); cbn [length]; lia.
Qed.

Lemma length_trim (s : jsstring) : (length (JS.trim s) ≤ length s)%nat.
Proof.
  unfold JS.trim, JS.trimEnd. rewrite length_rev.
  pose proof (length_trimStart (rev (JS.trimStart s))) as H1.
  rewrite length_rev in H1. pose proof (length_trimStart s). lia.
Qed.

Lemma split_total_length (s : jsstring) :
  (length (concat (JS.split 10 s)) ≤ length s)%nat.
Proof.
  induction s as [|c s IH]; [reflexivity|]. cbn [JS.split].
  destruct (c =? 10); [cbn [concat app length]; lia|].
  destruct (JS.split 10 s) as [|w ws]; cbn [concat app length] in *; lia.
Qed.

Lemma nonBlank_lines_length (lines : list jsstring) :
  (length (filter (fun line => (0 <? Z.of_nat (length line))%Z) (map JS.trim lines))
   ≤ length (concat lines))%nat.
Proof.
  induction lines as [|l lines IH]; [reflexivity|].
  cbn [map concat]. rewrite filter_cons, length_app.
  pose proof (length_trim l) as Hl.
  destruct (decide _) as [Hnb|_].
  - apply Is_true_true, Z.ltb_lt in Hnb.
    apply Nat.le_trans with (1 + length (concat lines))%nat; [|lia].
    cbn [length Nat.add]. apply le_n_S. exact IH.
  - apply Nat.le_trans with (length (concat lines)); [exact IH|lia].
Qed.

(** X18: for a duration that is an integer from 0 to below 2^53 and a text
    of at most 2^53 code units, the timeline the even split makes of plain
    lyrics has one entry per non-blank line, in the order of the text and
    with the trimmed line as its text; its offsets, computed in binary64 as
    the code computes them, start at 0, never decrease and never exceed the
    duration. *)
Theorem convertPlainToTimed_ordered_within_duration :
  ∀ (plainLyrics : jsstring) (duration : Z),
    0 <= duration < 2 ^ 53 →
    Z.of_nat (length plainLyrics) <= 2 ^ 53 →
    let timeline := LyricsService.convertPlainToTimed plainLyrics duration in
    map lyric timeline
    = filter (fun line => 0 <? Z.of_nat (length line))
             (map JS.trim (JS.split 10 plainLyrics))
    ∧ nonDecreasing timeline = true
    ∧ Forall (λ l, 0 <= time l <= duration ∧ lyric l ≠ [] ∧ trimmed (lyric l)) timeline
    ∧ (∀ l, head timeline = Some l → time l = 0).
Proof.
  intros plainLyrics duration Hd Hlen. cbv zeta.
  rewrite convertPlainToTimed_unfold. cbv zeta.
  assert (Hn : Z.of_nat
                 (length (filter (fun line => 0 <? Z.of_nat (length line))
                            (map JS.trim (JS.split 10 plainLyrics)))) <= 2 ^ 53).
  { pose proof (nonBlank_lines_length (JS.split 10 plainLyrics)).
    pose proof (split_total_length plainLyrics). lia. }
  set (lines := filter _ _) in *.
  assert (Hlines : Forall (λ s, s ≠ [] ∧ trimmed s) lines).
  { apply Forall_forall. intros s Hs. unfold lines in Hs.
    apply (proj1 (list_elem_of_filter _ _ _)) in Hs. destruct Hs as [Hnb Hin].
    apply (proj1 (list_elem_of_In _ _)) in Hin.
    apply in_map_iff in Hin. destruct Hin as (raw & <- & _). split.
    - intros E. rewrite E in Hnb. exact Hnb.
    - apply trim_idempotent. }
  split; [apply imap_timed_lyrics|]. split; [|split].
  - apply nonDecreasing_lookup. intros i a b Ha Hb.
    rewrite list_lookup_imap in Ha, Hb.
    destruct (lines !! i) as [x|]; [|discriminate].
    destruct (lines !! S i) as [y|] eqn:Hy; [|discriminate].
    cbn [fmap option_fmap option_map] in Ha, Hb.
    injection Ha as <-. injection Hb as <-. cbn [time].
    apply lookup_lt_Some in Hy.
    apply offset_mono; [lia|lia|lia].
  - apply Forall_lookup. intros i l Hl. rewrite list_lookup_imap in Hl.
    destruct (lines !! i) as [x|] eqn:Hx; [|discriminate].
    cbn [fmap option_fmap option_map] in Hl. injection Hl as <-.
    cbn [time lyric]. split.
    + apply offset_bound; [exact Hd| |exact Hn]. now apply lookup_lt_Some in Hx.
    + apply (proj1 (Forall_lookup _ _) Hlines i x Hx).
  - intros l Hl. destruct lines as [|x rest]; [discriminate|].
    rewrite imap_cons in Hl. cbn [head] in Hl. injection Hl as <-. apply offset_first.
Qed.

Lemma convertPlainToTimed_ordered_within_duration_witness :
  LyricsService.convertPlainToTimed (str "one
 two

three") 1000
  = [ {| time := 0; lyric := str "one" |};
      {| time := 333; lyric := str "two" |};
      {| time := 667; lyric := str "three" |} ]
  ∧ nonDecreasing (LyricsService.convertPlainToTimed (str "one
 two

three") 1000) = true
  ∧ time <$> LyricsService.convertPlainToTimed twenty_two_lines 180233 !! 11%nat
    = Some 90116
  ∧ nonDecreasing (LyricsService.convertPlainToTimed twenty_two_lines 180233) = true.
Proof.
  split; [vm_compute; reflexivity|]. split; [|split; [vm_compute; reflexivity|]].
  - refine (proj1 (proj2 (convertPlainToTimed_ordered_within_duration _ 1000 _ _)));
      [lia|vm_compute; discriminate].
  - refine (proj1 (proj2 (convertPlainToTimed_ordered_within_duration _ 180233 _ _)));
      [lia|vm_compute; discriminate].
Defined.

Lemma searchLyrics_unfold env l trackName artistName duration :
  LyricsService.searchLyrics trackName artistName duration env l
  = let (r, l1) := LyricsService.fetchAndParseLyrics trackName artistName duration env l in
    match r with
    | Return (Some parsed) => (Return (Some parsed), l1)
    | Return None =>
        let (r2, l2) := LyricsService.fetchLyrics trackName artistName duration env l1 in
        (match r2 with
         | Return (Some lyricsData) =>
             if JS.truthy (Lrclib.plainLyrics lyricsData)
                && negb (Lrclib.instrumental lyricsData)
             then Return (Some (LyricsService.convertPlainToTimed
                                  (default [] (Lrclib.plainLyrics lyricsData))
                                  duration))
             else Return None
         | _ => Return None
         end, l2)
    | Throw e => (Throw e, l1)
    end.
Proof.
  unfold LyricsService.searchLyrics, bind at 1.
  destruct (LyricsService.fetchAndParseLyrics _ _ _ env l) as [[[parsed|]|e] l1];
    try reflexivity.
  unfold tryCatch, bind.
  destruct (LyricsService.fetchLyrics _ _ _ env l1) as [[[ld|]|e] l2]; try reflexivity.
  destruct (JS.truthy (Lrclib.plainLyrics ld) && negb (Lrclib.instrumental ld));
    reflexivity.
Qed.

(** X19: the search with fallback never throws. It returns the parse of the
    synced lyrics after one request when the resolution succeeds; otherwise
    it asks LRCLIB a second time with the same query and, for an answer that
    is not instrumental and carries non-empty plain lyrics, returns their
    even split over the duration; in every other case it returns null. *)
Theorem searchLyrics_prefers_synced :
  ∀ env l trackName artistName duration,
    let q := {| Lrclib.track_name := trackName;
                Lrclib.artist_name := JS.trim (hd [] (JS.split 44 artistName));
                Lrclib.duration_ms := duration |} in
    let r := LyricsService.searchLyrics trackName artistName duration env l in
    match lrclibGet env with
    | Resolved (Some data) =>
        if Lrclib.instrumental data
        then fst r = Return None
             ∧ LyricsService.requests (snd r) = LyricsService.requests l ++ [q; q]
        else if JS.truthy (Lrclib.syncedLyrics data)
        then fst r = Return (Some (parseLRC (Lrclib.syncedLyrics data)))
             ∧ LyricsService.requests (snd r) = LyricsService.requests l ++ [q]
        else if JS.truthy (Lrclib.plainLyrics data)
        then fst r = Return (Some (LyricsService.convertPlainToTimed
                                     (default [] (Lrclib.plainLyrics data)) duration))
             ∧ LyricsService.requests (snd r) = LyricsService.requests l ++ [q; q]
        else fst r = Return None
             ∧ LyricsService.requests (snd r) = LyricsService.requests l ++ [q; q]
    | _ => fst r = Return None
           ∧ LyricsService.requests (snd r) = LyricsService.requests l ++ [q; q]
    end.
Proof.
  intros env l n a d. cbv zeta.
  rewrite searchLyrics_unfold, fetchAndParseLyrics_run, fetchLyrics_run.
  cbn [LyricsService.requests]. rewrite <- app_assoc. cbn [app].
  destruct (lrclibGet env) as [[data|]|e] eqn:Hreply; try (split; reflexivity).
  destruct (Lrclib.instrumental data) eqn:Hi; cbn [negb andb].
  - split; reflexivity.
  - destruct (JS.truthy (Lrclib.syncedLyrics data)) eqn:Hs.
    + split; reflexivity.
    + cbn [Lrclib.plainLyrics Lrclib.instrumental negb fst snd].
      destruct (orNull_truthy (Lrclib.plainLyrics data)) as [Ht Hv]. rewrite Ht.
      destruct (JS.truthy (Lrclib.plainLyrics data)) eqn:Hp; cbn [andb].
      * rewrite (Hv eq_refl). split; reflexivity.
      * split; reflexivity.
Qed.

(** ** spotifyService.js *)

Lemma split_commaFree (a : jsstring) :
  commaFree a = true → JS.split 44 a = [a].
Proof.
  induction a as [|c a IH]; [reflexivity|].
  cbn [commaFree forallb]. intros H. apply andb_prop in H. destruct H as [Hc Ha].
  cbn [JS.split]. apply negb_true_iff in Hc. rewrite Hc.
  unfold commaFree in IH. now rewrite (IH Ha).
Qed.

Lemma split_comma_head (a x : jsstring) :
  commaFree a = true → hd [] (JS.split 44 (a ++ 44 :: x)) = a.
Proof.
  induction a as [|c a IH]; [reflexivity|].
  cbn [commaFree forallb]. intros H. apply andb_prop in H. destruct H as [Hc Ha].
  cbn [app JS.split]. apply negb_true_iff in Hc. rewrite Hc.
  specialize (IH Ha). destruct (JS.split 44 (a ++ 44 :: x)) as [|w ws].
  - cbn in IH. now subst a.
  - cbn [hd] in *. now subst w.
Qed.

Lemma joinNames_primary (first : jsstring) (others : list jsstring) :
  commaFree first = true →
  hd [] (JS.split 44 (SpotifyService.joinNames (first :: others))) = first.
Proof.
  intros H. destruct others as [|second others].
  - cbn [SpotifyService.joinNames]. now rewrite split_commaFree.
  - cbn [SpotifyService.joinNames]. change (str ", ") with [44; 32].
    cbn [app]. now apply split_comma_head.
Qed.

Lemma getCurrentlyPlaying_track e s track :
  fst (SpotifyService.getCurrentlyPlaying e s) = Return (Some track) →
  ∃ data item,
    SpotifyService.playerGet e = Resolved (Some data)
    ∧ SpotifyService.playing_item data = Some item
    ∧ track = {| Track.id := SpotifyService.item_id item;
                 Track.name := SpotifyService.item_name item;
                 Track.artists :=
                   SpotifyService.joinNames (SpotifyService.artist_names item);
                 Track.duration := SpotifyService.duration_ms item;
                 Track.progress := SpotifyService.progress_ms data;
                 Track.isPlaying := SpotifyService.is_playing data |}.
Proof.
  unfold SpotifyService.getCurrentlyPlaying.
  destruct (SpotifyService.ensureValidToken e s) as [[[]|err] s1]; [|discriminate].
  destruct (SpotifyService.playerGet e) as [[data|]|err]; try discriminate.
  - destruct (SpotifyService.playing_item data) as [item|] eqn:Hitem; [|discriminate].
    cbn [fst]. intros [= <-]. now exists data, item.
  - destruct err as [|status|]; try discriminate.
    destruct status as [|p|p]; try discriminate.
    repeat (destruct p as [p|p|]; try discriminate).
Qed.

(** X20: a track that the Spotify service reports is the item of the
    player's answer: it has the item's id, name and duration, the progress
    and the playing flag of the answer, and for artists the item's artists'
    names joined by a comma and a space. When the first artist's name holds
    no comma, the request that the lyrics service then sends for this track
    asks LRCLIB for the item's name, the item's duration and the first
    artist's name, trimmed, whatever the other artists are called. *)
Theorem lrclib_query_first_artist :
  ∀ e s track env l,
    fst (SpotifyService.getCurrentlyPlaying e s) = Return (Some track) →
    ∃ data item,
      SpotifyService.playerGet e = Resolved (Some data)
      ∧ SpotifyService.playing_item data = Some item
      ∧ Track.id track = SpotifyService.item_id item
      ∧ Track.name track = SpotifyService.item_name item
      ∧ Track.duration track = SpotifyService.duration_ms item
      ∧ Track.progress track = SpotifyService.progress_ms data
      ∧ Track.isPlaying track = SpotifyService.is_playing data
      ∧ Track.artists track = SpotifyService.joinNames (SpotifyService.artist_names item)
      ∧ (∀ first second others,
           SpotifyService.artist_names item = first :: second :: others →
           Track.artists track
           = first ++ str ", " ++ SpotifyService.joinNames (second :: others))
      ∧ (∀ only, SpotifyService.artist_names item = [only] →
                 Track.artists track = only)
      ∧ ∀ first others,
          SpotifyService.artist_names item = first :: others →
          commaFree first = true →
          LyricsService.requests
            (snd (LyricsService.fetchLyrics (Track.name track) (Track.artists track)
                    (Track.duration track) env l))
          = LyricsService.requests l
            ++ [{| Lrclib.track_name := SpotifyService.item_name item;
                   Lrclib.artist_name := JS.trim first;
                   Lrclib.duration_ms := SpotifyService.duration_ms item |}].
Proof.
  intros e s track env l H.
  destruct (getCurrentlyPlaying_track e s track H) as (data & item & Hreply & Hitem & ->).
  exists data, item. cbn [Track.id Track.name Track.duration Track.progress
                          Track.isPlaying Track.artists].
  repeat (split; [first [assumption|reflexivity]|]).
  split; [|split].
  - intros first second others Hnames. now rewrite Hnames.
  - intros only Hnames. now rewrite Hnames.
  - intros first others Hnames Hfree. rewrite fetchLyrics_run.
    cbn [snd LyricsService.requests].
    now rewrite Hnames, joinNames_primary.
Qed.

Lemma lrclib_query_first_artist_witness :
  ∃ track,
    fst (SpotifyService.getCurrentlyPlaying
           (spotify_at 0 hour_token duet_playing) SpotifyService.new)
    = Return (Some track)
    ∧ Track.artists track = str "First Artist, Second, Artist"
    ∧ LyricsService.requests
        (snd (LyricsService.fetchLyrics (Track.name track) (Track.artists track)
                (Track.duration track) (at_time 0) LyricsService.new))
      = [{| Lrclib.track_name := str "Song";
            Lrclib.artist_name := str "First Artist";
            Lrclib.duration_ms := 200000 |}].
Proof.
  eexists. split; [reflexivity|]. split; [reflexivity|].
  destruct (lrclib_query_first_artist (spotify_at 0 hour_token duet_playing)
              SpotifyService.new _ (at_time 0) LyricsService.new eq_refl)
    as (data & item & Hreply & Hitem & _ & _ & _ & _ & _ & _ & _ & _ & Hquery).
  injection Hreply as <-. injection Hitem as <-.
  exact (Hquery (str "First Artist") [str "Second, Artist"] eq_refl eq_refl).
Defined.

Lemma ensureValidToken_valid e s :
  refreshDue e s = false → SpotifyService.ensureValidToken e s = (Return tt, s).
Proof.
  unfold refreshDue, SpotifyService.ensureValidToken. now intros ->.
Qed.

Lemma ensureValidToken_due e s :
  refreshDue e s = true →
  SpotifyService.ensureValidToken e s
  = match SpotifyService.tokenPost e with
    | Resolved data =>
        (Return tt,
         {| SpotifyService.accessToken := Some (SpotifyService.access_token data);
            SpotifyService.tokenExpiry :=
              Some (SpotifyService.clock e
                    + (SpotifyService.expires_in data - 300) * 1000);
            SpotifyService.requests :=
              SpotifyService.requests s ++ [SpotifyService.TokenRequest] |})
    | Rejected _ =>
        (Throw (Error "Failed to refresh Spotify access token"),
         SpotifyService.log SpotifyService.TokenRequest s)
    end.
Proof.
  unfold refreshDue, SpotifyService.ensureValidToken, SpotifyService.refreshAccessToken.
  intros ->. destruct (SpotifyService.tokenPost e); reflexivity.
Qed.

Lemma getCurrentlyPlaying_requests e s s1 :
  SpotifyService.ensureValidToken e s = (Return tt, s1) →
  SpotifyService.requests (snd (SpotifyService.getCurrentlyPlaying e s))
  = SpotifyService.requests s1
    ++ [SpotifyService.PlayerRequest (SpotifyService.accessToken s1)]
  ∧ (SpotifyService.playerGet e ≠ Rejected (HttpStatus 401) →
     SpotifyService.accessToken (snd (SpotifyService.getCurrentlyPlaying e s))
     = SpotifyService.accessToken s1
     ∧ SpotifyService.tokenExpiry (snd (SpotifyService.getCurrentlyPlaying e s))
       = SpotifyService.tokenExpiry s1)
  ∧ (SpotifyService.playerGet e = Rejected (HttpStatus 401) →
     fst (SpotifyService.getCurrentlyPlaying e s)
     = Throw (Error "Spotify token invalid - will refresh on next attempt")
     ∧ SpotifyService.accessToken (snd (SpotifyService.getCurrentlyPlaying e s)) = None
     ∧ SpotifyService.tokenExpiry (snd (SpotifyService.getCurrentlyPlaying e s)) = None).
Proof.
  intros Hs1. unfold SpotifyService.getCurrentlyPlaying. rewrite Hs1.
  destruct (SpotifyService.playerGet e) as [[data|]|err].
  - destruct (SpotifyService.playing_item data);
      (split; [reflexivity|split; [intros _; split; reflexivity|discriminate]]).
  - split; [reflexivity|split; [intros _; split; reflexivity|discriminate]].
  - destruct err as [|status|];
      try (split; [reflexivity|split; [intros _; split; reflexivity|discriminate]]).
    destruct (Z.eq_dec status 401) as [->|Hne].
    + split; [reflexivity|]. split; [intros H; now contradiction H|].
      intros _. repeat split.
    + assert (Hother :
        match status with
        | 429 => True | 401 => False | _ => True
        end) by (destruct status as [|p|p]; try exact I;
                 repeat (destruct p as [p|p|]; try exact I); now contradiction Hne).
      destruct status as [|p|p];
        try (split; [reflexivity|split; [intros _; split; reflexivity|congruence]]).
      repeat (destruct p as [p|p|];
        try (split; [reflexivity|split; [intros _; split; reflexivity|congruence]]));
      contradiction.
Qed.

Lemma getCurrentlyPlaying_valid e s token expiry :
  SpotifyService.accessToken s = Some token → token ≠ [] →
  SpotifyService.tokenExpiry s = Some expiry →
  SpotifyService.clock e < expiry →
  SpotifyService.playerGet e ≠ Rejected (HttpStatus 401) →
  let s' := snd (SpotifyService.getCurrentlyPlaying e s) in
  SpotifyService.requests s'
  = SpotifyService.requests s ++ [SpotifyService.PlayerRequest (Some token)]
  ∧ SpotifyService.accessToken s' = Some token
  ∧ SpotifyService.tokenExpiry s' = Some expiry.
Proof.
  intros Hacc Htok Hexp Hbefore Hplayer. cbv zeta.
  assert (Hvalid : refreshDue e s = false).
  { unfold refreshDue. rewrite Hacc, Hexp. cbn [default from_option id].
    destruct token; [contradiction|].
    cbn [JS.truthy negb orb]. rewrite Z.geb_leb. apply Z.leb_gt. lia. }
  destruct (getCurrentlyPlaying_requests e s s (ensureValidToken_valid e s Hvalid))
    as (Hreq & Hkeep & _).
  destruct (Hkeep Hplayer) as [Hacc' Hexp'].
  rewrite Hreq, Hacc', Hexp', Hacc, Hexp. now repeat split.
Qed.

Lemma calls_valid es :
  ∀ s token expiry,
    SpotifyService.accessToken s = Some token → token ≠ [] →
    SpotifyService.tokenExpiry s = Some expiry →
    Forall (λ e, SpotifyService.clock e < expiry
                 ∧ SpotifyService.playerGet e ≠ Rejected (HttpStatus 401)) es →
    SpotifyService.requests (calls es s)
    = SpotifyService.requests s
      ++ repeat (SpotifyService.PlayerRequest (Some token)) (length es)
    ∧ SpotifyService.accessToken (calls es s) = Some token
    ∧ SpotifyService.tokenExpiry (calls es s) = Some expiry.
Proof.
  induction es as [|e es IH]; intros s token expiry Hacc Htok Hexp Hall.
  - cbn [calls length repeat]. rewrite app_nil_r. now repeat split.
  - apply Forall_cons_1 in Hall as [[Hbefore Hplayer] Hall].
    destruct (getCurrentlyPlaying_valid e s token expiry Hacc Htok Hexp Hbefore Hplayer)
      as (Hreq & Hacc' & Hexp').
    cbn [calls length repeat].
    destruct (IH _ token expiry Hacc' Htok Hexp' Hall) as (Hreqs & Ha & Hx).
    rewrite Hreqs, Hreq, <- app_assoc. now repeat split.
Qed.

Lemma getCurrentlyPlaying_expired e s expiry :
  SpotifyService.tokenExpiry s = Some expiry →
  expiry <= SpotifyService.clock e →
  ∃ rest,
    SpotifyService.requests (snd (SpotifyService.getCurrentlyPlaying e s))
    = SpotifyService.requests s ++ SpotifyService.TokenRequest :: rest.
Proof.
  intros Hexp Hafter.
  assert (Hdue : refreshDue e s = true).
  { unfold refreshDue. rewrite Hexp. cbn [default from_option id].
    apply orb_true_intro. right. apply Z.geb_le. lia. }
  pose proof (ensureValidToken_due e s Hdue) as Hens.
  destruct (SpotifyService.tokenPost e) as [data|err] eqn:Hpost.
  - destruct (getCurrentlyPlaying_requests e s _ Hens) as (Hreq & _).
    eexists. rewrite Hreq. cbn [SpotifyService.requests].
    rewrite <- app_assoc. reflexivity.
  - exists []. unfold SpotifyService.getCurrentlyPlaying. now rewrite Hens.
Qed.

(** X21: when a refresh is due and the token endpoint answers with a
    non-empty token, the call sends the token request and then the player
    request with the new token. After it, over any sequence of later calls
    that are all made before the clock reaches the time of the refresh plus
    (expires_in - 300) seconds and of which none is answered 401, every call
    sends the player request with that token and no token request, and the
    token and its expiry stay; the first call made at or after that time,
    whenever it comes in the sequence, starts with a token request. *)
Theorem spotify_token_reused_until_expiry :
  ∀ e1 s data,
    refreshDue e1 s = true →
    SpotifyService.tokenPost e1 = Resolved data →
    SpotifyService.access_token data ≠ [] →
    SpotifyService.playerGet e1 ≠ Rejected (HttpStatus 401) →
    let s1 := snd (SpotifyService.getCurrentlyPlaying e1 s) in
    let token := SpotifyService.access_token data in
    let expiry :=
      SpotifyService.clock e1 + (SpotifyService.expires_in data - 300) * 1000 in
    SpotifyService.requests s1
    = SpotifyService.requests s
      ++ [SpotifyService.TokenRequest; SpotifyService.PlayerRequest (Some token)]
    ∧ ∀ later,
        Forall (λ e, SpotifyService.clock e < expiry
                     ∧ SpotifyService.playerGet e ≠ Rejected (HttpStatus 401)) later →
        let s2 := calls later s1 in
        SpotifyService.requests s2
        = SpotifyService.requests s1
          ++ repeat (SpotifyService.PlayerRequest (Some token)) (length later)
        ∧ SpotifyService.accessToken s2 = Some token
        ∧ SpotifyService.tokenExpiry s2 = Some expiry
        ∧ ∀ e', expiry <= SpotifyService.clock e' →
                ∃ rest,
                  SpotifyService.requests
                    (snd (SpotifyService.getCurrentlyPlaying e' s2))
                  = SpotifyService.requests s2 ++ SpotifyService.TokenRequest :: rest.
Proof.
  intros e1 s data Hdue Hpost Htok Hplayer. cbv zeta.
  pose proof (ensureValidToken_due e1 s Hdue) as Hens. rewrite Hpost in Hens.
  destruct (getCurrentlyPlaying_requests e1 s _ Hens) as (Hreq & Hkeep & _).
  destruct (Hkeep Hplayer) as [Hacc Hexp].
  cbn [SpotifyService.requests SpotifyService.accessToken SpotifyService.tokenExpiry]
    in Hreq, Hacc, Hexp.
  split; [now rewrite Hreq, <- app_assoc|].
  intros later Hall.
  destruct (calls_valid later _ _ _ Hacc Htok Hexp Hall) as (Hreqs & Hacc2 & Hexp2).
  split; [exact Hreqs|]. split; [exact Hacc2|]. split; [exact Hexp2|].
  intros e' Hafter. now apply (getCurrentlyPlaying_expired e' _ _ Hexp2).
Qed.

Lemma spotify_token_reused_until_expiry_witness :
  refreshDue (spotify_at 1000 hour_token duet_playing) SpotifyService.new = true
  ∧ SpotifyService.requests
      (calls [ spotify_at 1000 hour_token duet_playing;
               spotify_at 2000 (Rejected NetworkFailure) duet_playing;
               spotify_at 3300999 (Rejected NetworkFailure) (Rejected (HttpStatus 429)) ]
         SpotifyService.new)
    = [SpotifyService.TokenRequest;
       SpotifyService.PlayerRequest (Some (str "tok"));
       SpotifyService.PlayerRequest (Some (str "tok"));
       SpotifyService.PlayerRequest (Some (str "tok"))].
Proof.
  split; [reflexivity|].
  destruct (spotify_token_reused_until_expiry
              (spotify_at 1000 hour_token duet_playing) SpotifyService.new
              {| SpotifyService.access_token := str "tok";
                 SpotifyService.expires_in := 3600 |}
              eq_refl eq_refl ltac:(discriminate) ltac:(discriminate))
    as [Hfirst Hlater].
  destruct (Hlater [ spotify_at 2000 (Rejected NetworkFailure) duet_playing;
                     spotify_at 3300999 (Rejected NetworkFailure)
                       (Rejected (HttpStatus 429)) ]) as (Hreqs & _).
  - repeat constructor; cbn; try lia; discriminate.
  - cbn [calls]. cbn [calls] in Hreqs. rewrite Hreqs, Hfirst. reflexivity.
Defined.

(** X22: a call whose token refresh fails throws the error of the refresh,
    sends no player request and leaves the stored token as it was. A call
    whose player request is answered 401 throws and forgets the token, so
    that the next call, whenever it is made, starts with a token request. *)
Theorem spotify_failed_calls :
  ∀ e s,
    (∀ err, fst (SpotifyService.ensureValidToken e s) = Throw err →
       SpotifyService.getCurrentlyPlaying e s
       = (Throw (Error "Failed to refresh Spotify access token"),
          SpotifyService.log SpotifyService.TokenRequest s))
    ∧ (fst (SpotifyService.ensureValidToken e s) = Return tt →
       SpotifyService.playerGet e = Rejected (HttpStatus 401) →
       let s1 := snd (SpotifyService.getCurrentlyPlaying e s) in
       fst (SpotifyService.getCurrentlyPlaying e s)
       = Throw (Error "Spotify token invalid - will refresh on next attempt")
       ∧ SpotifyService.accessToken s1 = None
       ∧ ∀ e', ∃ rest,
           SpotifyService.requests (snd (SpotifyService.getCurrentlyPlaying e' s1))
           = SpotifyService.requests s1 ++ SpotifyService.TokenRequest :: rest).
Proof.
  intros e s. split.
  - intros err Herr. unfold SpotifyService.getCurrentlyPlaying.
    destruct (refreshDue e s) eqn:Hdue.
    + rewrite (ensureValidToken_due e s Hdue) in *.
      destruct (SpotifyService.tokenPost e); [discriminate|reflexivity].
    + rewrite (ensureValidToken_valid e s Hdue) in Herr. discriminate.
  - intros Hok H401. cbv zeta.
    destruct (SpotifyService.ensureValidToken e s) as [[[]|err] s0] eqn:Hens;
      [|discriminate].
    destruct (getCurrentlyPlaying_requests e s s0 Hens) as (_ & _ & Hforget).
    destruct (Hforget H401) as (Hthrow & Hacc & _).
    split; [exact Hthrow|]. split; [exact Hacc|].
    set (s1 := snd (SpotifyService.getCurrentlyPlaying e s)) in *.
    intros e'.
    assert (Hdue : refreshDue e' s1 = true) by (unfold refreshDue; now rewrite Hacc).
    pose proof (ensureValidToken_due e' s1 Hdue) as Hens'.
    destruct (SpotifyService.tokenPost e') as [data|err] eqn:Hpost.
    + destruct (getCurrentlyPlaying_requests e' s1 _ Hens') as (Hreq & _).
      eexists. rewrite Hreq. cbn [SpotifyService.requests].
      rewrite <- app_assoc. reflexivity.
    + exists []. unfold SpotifyService.getCurrentlyPlaying. now rewrite Hens'.
Qed.

Lemma spotify_failed_calls_witness :
  SpotifyService.getCurrentlyPlaying
    (spotify_at 0 (Rejected (HttpStatus 400)) duet_playing) SpotifyService.new
  = (Throw (Error "Failed to refresh Spotify access token"),
     SpotifyService.log SpotifyService.TokenRequest SpotifyService.new)
  ∧ SpotifyService.accessToken
      (snd (SpotifyService.getCurrentlyPlaying
              (spotify_at 0 hour_token (Rejected (HttpStatus 401)))
              SpotifyService.new)) = None.
Proof.
  split.
  - refine (proj1 (spotify_failed_calls
                     (spotify_at 0 (Rejected (HttpStatus 400)) duet_playing)
                     SpotifyService.new)
                  (Error "Failed to refresh Spotify access token") _).
    reflexivity.
  - refine (proj1 (proj2 (proj2 (spotify_failed_calls
                     (spotify_at 0 hour_token (Rejected (HttpStatus 401)))
                     SpotifyService.new) _ _))); reflexivity.
Defined.

(** ** discordService.js: clearing the status *)

(** X23: clearing the status never throws and sends one request with the
    empty text. When that request succeeds the remembered status is gone, so
    the next status set, whatever its text, is sent to Discord; when it fails
    the remembered status stays, and setting a status whose first 128 code
    units equal it sends nothing. *)
Theorem clearStatus_then_setLyricStatus :
  ∀ env d env' lyric,
    let d1 := snd (DiscordService.clearStatus env d) in
    fst (DiscordService.clearStatus env d) = Return tt
    ∧ DiscordService.patches d1 = DiscordService.patches d ++ [PatchClear]
    ∧ match discordPatch env with
      | Resolved _ =>
          DiscordService.patches (snd (DiscordService.setLyricStatus lyric env' d1))
          = DiscordService.patches d1 ++ [PatchStatus (firstn 128 lyric)]
      | Rejected _ =>
          DiscordService.lastStatus d1 = DiscordService.lastStatus d
          ∧ (DiscordService.lastStatus d = Some (firstn 128 lyric) →
             DiscordService.setLyricStatus lyric env' d1 = (Return tt, d1))
      end.
Proof.
  intros env d env' lyric. cbv zeta. rewrite clearStatus_run. cbn [fst snd].
  split; [reflexivity|]. split; [reflexivity|].
  destruct (discordPatch env).
  - rewrite setLyricStatus_new by discriminate.
    destruct (discordPatch env'); reflexivity.
  - split; [reflexivity|]. intros Hsame. now apply setLyricStatus_same.
Qed.

(** ** logger.js *)

Lemma Logger_new_level (name : jsstring) :
  Logger.level (Logger.new name) = Logger.WARN
  ∨ Logger.level (Logger.new name) = Logger.INFO
  ∨ Logger.level (Logger.new name) = Logger.DEBUG.
Proof.
  unfold Logger.new, Logger.LOG_LEVELS. cbn [Logger.level].
  repeat case_bool_decide; cbn; auto.
Qed.

(** X24: whatever level name the logger is created with, its level is WARN,
    INFO or DEBUG and never ERROR: the name ERROR, like an unknown name,
    gives INFO. Logging does not change the level, so on every logger with
    such a level [error] and [warn] print their message, and [debug] prints
    only at level DEBUG. *)
Theorem Logger_never_silences_warnings :
  ∀ (name : jsstring),
    let l := Logger.new name in
    (Logger.level l = Logger.WARN ∨ Logger.level l = Logger.INFO
     ∨ Logger.level l = Logger.DEBUG)
    ∧ (Logger.toUpperCase name = str "ERROR" → Logger.level l = Logger.INFO)
    ∧ ∀ (l' : Logger.t) (message : jsstring),
        Logger.level l' = Logger.level l →
        Logger.console (Logger.error message l')
        = Logger.console l' ++ [(Logger.ConsoleError, str "ERROR", message)]
        ∧ Logger.console (Logger.warn message l')
          = Logger.console l' ++ [(Logger.ConsoleWarn, str "WARN", message)]
        ∧ (Logger.level l ≠ Logger.DEBUG →
           Logger.debug message l' = l')
        ∧ Logger.level (Logger.error message l') = Logger.level l
        ∧ Logger.level (Logger.warn message l') = Logger.level l
        ∧ Logger.level (Logger.info message l') = Logger.level l
        ∧ Logger.level (Logger.debug message l') = Logger.level l.
Proof.
  intros name. cbv zeta. split; [apply Logger_new_level|]. split.
  - intros E. unfold Logger.new. rewrite E. reflexivity.
  - intros l' message Hl.
    unfold Logger.error, Logger.warn, Logger.info, Logger.debug, Logger.print.
    rewrite Hl.
    destruct (Logger_new_level name) as [E|[E|E]]; rewrite E;
      cbn; repeat split; try reflexivity; try (now rewrite <- E, <- Hl);
      try (intros; now destruct l'); try congruence.
Qed.
